(** * Matrix.cpp: a dense matrix of doubles with Gauss-Jordan inversion

    Shallow embedding of [src/Matrix.cpp] (serial build, i.e. without
    [_OPENMP] and [_PROFILE_TIME]).

    - A [Matrix] is the C++ object: the inherited [vector<vector<double>>]
      ([rows]) together with the two [size_t] members [nrows_] and [ncols_].
    - [size_t] values are integers in [0, 2^64); the only subtractions of the
      source ([nsize - 1], [nsize - 2]) are written with their wrap-around.
    - The unchecked [operator[]] of [std::vector] is undefined outside the
      vector; the embedding is total and reports that case as the outcome
      [Err OutOfBounds].
    - Every [throw runtime_error(...)] becomes an [Err] outcome; the error
      constructor records which family of message was thrown.
    - Function bodies run in a state-and-error monad over a store that holds
      the C++ objects a body can name ([*this], [lhs], [rhs] and the locals),
      so that what a body writes, and what it leaves alone, is visible.
    - The element type is a parameter ([Scalar]); it is instantiated with
      exact rationals ([Q]) and with binary64 floating point numbers. *)

From Stdlib Require Import ZArith QArith Qabs Floats Lia Lqa.
From stdpp Require Import base tactics option list.

Local Open Scope Z_scope.

(** ** Scalars *)

(** The operations [Matrix.cpp] performs on [double]. *)
Class Scalar (T : Type) := {
  s_zero : T;                (* the literal 0 / 0.0 *)
  s_one : T;                 (* the literal 1 *)
  s_add : T -> T -> T;
  s_sub : T -> T -> T;
  s_mul : T -> T -> T;
  s_div : T -> T -> T;
  s_abs : T -> T;            (* std::abs(double) *)
  s_ltb : T -> T -> bool;    (* operator< *)
  ZERO_LIMIT : T             (* static const double _ZERO_LIMIT = 1.0e-9 *)
}.

(** Exact rational arithmetic. *)
#[export] Instance Q_scalar : Scalar Q := {|
  s_zero := 0%Q;
  s_one := 1%Q;
  s_add := Qplus;
  s_sub := Qminus;
  s_mul := Qmult;
  s_div := Qdiv;
  s_abs := Qabs;
  s_ltb := fun x y => negb (Qle_bool y x);
  ZERO_LIMIT := (1 # 1000000000)%Q
|}.

(** IEEE 754 binary64, the [double] of the source. *)
#[export] Instance double_scalar : Scalar float := {|
  s_zero := 0%float;
  s_one := 1%float;
  s_add := PrimFloat.add;
  s_sub := PrimFloat.sub;
  s_mul := PrimFloat.mul;
  s_div := PrimFloat.div;
  s_abs := PrimFloat.abs;
  s_ltb := PrimFloat.ltb;
  ZERO_LIMIT := 0x1.12e0be826d695p-30%float  (* the double nearest 1.0e-9 *)
|}.

(** The exact rational value of a finite double. *)
Definition Qpow2 (e : Z) : Q :=
  match e with
  | Z0 => 1%Q
  | Zpos p => inject_Z (2 ^ Zpos p)
  | Zneg p => (1 # (2 ^ p))%Q
  end.

Definition double_to_Q (f : float) : option Q :=
  match Prim2SF f with
  | S754_zero _ => Some 0%Q
  | S754_finite s m e =>
      Some (inject_Z (if s then Zneg m else Zpos m) * Qpow2 e)%Q
  | S754_infinity _ | S754_nan => None
  end.

(** ** [size_t] and [int] *)

Definition SIZE_MAX1 : Z := 2 ^ 64.

(** [a - b] on [size_t]. *)
Definition size_sub (a b : Z) : Z := (a - b) mod SIZE_MAX1.

(** [a * b] on [size_t]. *)
Definition size_mul (a b : Z) : Z := (a * b) mod SIZE_MAX1.

(** Conversion of an integer to a 32-bit [int] (two's complement). *)
Definition to_int (z : Z) : Z := (z + 2 ^ 31) mod 2 ^ 32 - 2 ^ 31.

(** ** Outcomes *)

Inductive error : Type :=
  | ShapeMismatch   (* "Matrix should be square!",
                       "Matrices do not have the correct shape." *)
  | SingularMatrix  (* "0 occurs (...). Please use row permutation.",
                       "... occurs during inverse." *)
  | MalformedInput  (* "Error: Empty matrix is not allowed to be converted to
                       a continuous matrix",
                       "Error: Matrix does not have regular shape.",
                       "Error: The Continuous matrix has zero rows or
                       columns." *)
  | OutOfBounds.    (* an index outside a vector or buffer: undefined
                       behaviour in the source *)

Inductive outcome (A : Type) : Type :=
  | Ok (a : A)
  | Err (e : error).
Arguments Ok {A} a.
Arguments Err {A} e.

#[export] Instance error_eq_dec : EqDecision error.
Proof. solve_decision. Defined.

(** Control of a loop body: go on with the next iteration, or leave the
    function with a value ([return] inside a loop). *)
Inductive ctl (A R : Type) : Type :=
  | Next (a : A)
  | Return (r : R).
Arguments Next {A R} a.
Arguments Return {A R} r.

(** ** The objects and the store *)

Section Model.

Context {T : Type} `{Scalar T}.

(** [class Matrix : public vector<vector<double>>] with its two members. *)
Record Matrix : Type := mkMatrix {
  rows : list (list T);
  nrows_ : Z;
  ncols_ : Z
}.

(** A default-constructed [vector<vector<double>>]; [Matrix::Matrix()] leaves
    the two members unset, and every constructor used in this file assigns
    them before they are read. *)
Definition empty_Matrix : Matrix := mkMatrix [] 0 0.

(** The objects a function body of [Matrix.cpp] names. *)
Inductive var : Type :=
  | this | lhs | rhs
  | mat | mat_inv | mat_t | mat_add | mat_minus | mat_mul.

#[export] Instance var_eq_dec : EqDecision var.
Proof. solve_decision. Defined.

Definition store : Type := var -> Matrix.

Definition upd (v : var) (m : Matrix) (st : store) : store :=
  fun v' => if decide (v' = v) then m else st v'.

(** ** The monad of function bodies *)

Definition M (A : Type) : Type := store -> outcome A * store.

Definition ret {A} (a : A) : M A := fun st => (Ok a, st).

Definition throw {A} (e : error) : M A := fun st => (Err e, st).

Definition bind {A B} (m : M A) (f : A -> M B) : M B :=
  fun st =>
    match m st with
    | (Ok a, st') => f a st'
    | (Err e, st') => (Err e, st')
    end.

Notation "'let*' x ':=' c1 'in' c2" := (bind c1 (fun x => c2))
  (at level 10, x name, c1 at level 100, c2 at level 200).
Notation "c1 ;; c2" := (bind c1 (fun _ => c2))
  (at level 100, c2 at level 200, right associativity).

Definition get (v : var) : M Matrix := fun st => (Ok (st v), st).

Definition put (v : var) (m : Matrix) : M unit := fun st => (Ok tt, upd v m st).

(** [vector::operator[]] on a [size_t] or non-negative [int] index. A negative
    [int] converts to a huge [size_t], which is outside every vector. *)
Definition index {A} (l : list A) (i : Z) : outcome A :=
  if 0 <=? i then
    match l !! Z.to_nat i with
    | Some x => Ok x
    | None => Err OutOfBounds
    end
  else Err OutOfBounds.

Definition lift {A} (o : outcome A) : M A := fun st => (o, st).

(** [v[i]], read. *)
Definition row_at (v : var) (i : Z) : M (list T) :=
  let* m := get v in lift (index (rows m) i).

(** [v[i][j]], read. *)
Definition rd (v : var) (i j : Z) : M T :=
  let* r := row_at v i in lift (index r j).

(** [v[i][j] = x]. *)
Definition wr (v : var) (i j : Z) (x : T) : M unit :=
  let* m := get v in
  let* r := lift (index (rows m) i) in
  lift (index r j) ;;
  put v (mkMatrix (<[Z.to_nat i := <[Z.to_nat j := x]> r]> (rows m))
                  (nrows_ m) (ncols_ m)).

(** ** Loops *)

(** [n] iterations of a counting loop with upper bound [hi], then [kont]. *)
Fixpoint for_nat {A R} (n : nat) (hi : Z) (body : Z -> A -> M (ctl A R))
    (kont : Z -> A -> M (ctl A R)) (k : Z) (a : A) : M (ctl A R) :=
  match n with
  | O => kont k a
  | S n' =>
      if hi <=? k then ret (Next a)
      else let* r := body k a in
           match r with
           | Next a' => for_nat n' hi body kont (k + 1) a'
           | Return r => ret (Return r)
           end
  end.

(** The same with [2 ^ d] iterations: the counter of a loop of the source
    ranges over 64-bit values, and this form still evaluates. *)
Fixpoint for_go {A R} (d : nat) (hi : Z) (body : Z -> A -> M (ctl A R))
    (kont : Z -> A -> M (ctl A R)) (k : Z) (a : A) : M (ctl A R) :=
  match d with
  | O =>
      if hi <=? k then ret (Next a)
      else let* r := body k a in
           match r with
           | Next a' => kont (k + 1) a'
           | Return r => ret (Return r)
           end
  | S d' => for_go d' hi body (for_go d' hi body kont) k a
  end.

(** [for (k = lo; k < hi; k++) body], where the body may [return]. *)
Definition for_ctl {A R} (lo hi : Z) (body : Z -> A -> M (ctl A R)) (a : A)
    : M (ctl A R) :=
  for_go (Z.to_nat (Z.log2_up (hi - lo))) hi body (fun _ a' => ret (Next a'))
         lo a.

(** [for (k = lo; k < hi; k++) a = body k a]: a loop that carries the local
    scalars it updates. *)
Definition for_fold {A} (lo hi : Z) (body : Z -> A -> M A) (a : A) : M A :=
  let* r := for_ctl (R := Empty_set) lo hi
              (fun k a => let* a' := body k a in ret (Next a')) a in
  match r with
  | Next a' => ret a'
  | Return r => match r with end
  end.

(** [for (k = lo; k < hi; k++) body]. *)
Definition for_loop (lo hi : Z) (body : Z -> M unit) : M unit :=
  for_fold lo hi (fun k _ => body k) tt.

(** [for (int k = hi; k > lo; k--) body]. *)
Definition for_down (hi lo : Z) (body : Z -> M unit) : M unit :=
  for_loop 0 (hi - lo) (fun d => body (hi - d)).

(** [for_each(first, last, f)] over a container, [f] updating what it has
    captured by reference. *)
Fixpoint for_each {A S} (l : list A) (f : A -> S -> outcome S) (s : S)
    : outcome S :=
  match l with
  | [] => Ok s
  | x :: l' =>
      match f x s with
      | Ok s' => for_each l' f s'
      | Err e => Err e
      end
  end.

(** ** Construction, [resize], assignment *)

(** [vector::resize(n, d)]: the first [n] elements are kept, new ones are
    copies of [d]. *)
Definition resize_vec {A} (n : Z) (d : A) (l : list A) : list A :=
  take (Z.to_nat n) l ++ replicate (Z.to_nat n - length l) d.

(** [Matrix::resize], on the object and on a variable of the store. *)
Definition resize_Matrix (nrows ncols : Z) (m : Matrix) : Matrix :=
  mkMatrix (resize_vec ncols s_zero <$> resize_vec nrows [] (rows m))
           nrows ncols.

Definition resize (v : var) (nrows ncols : Z) : M unit :=
  let* m := get v in
  put v (resize_Matrix nrows ncols m).

(** [Matrix v(nrows, ncols);] and, with [nrows = ncols], [Matrix v(nsize);]. *)
Definition construct (v : var) (nrows ncols : Z) : M unit :=
  put v empty_Matrix ;; resize v nrows ncols.

(** [dst[i].resize(n)]. *)
Definition resize_row (dst : var) (i n : Z) : M unit :=
  let* m := get dst in
  let* r := lift (index (rows m) i) in
  put dst (mkMatrix (<[Z.to_nat i := resize_vec n s_zero r]> (rows m))
                    (nrows_ m) (ncols_ m)).

(** [Matrix::operator=], as [dst = src]. *)
Definition assign (dst src : var) : M unit :=
  if decide (dst = src) then ret tt
  else
    let* s := get src in
    let* d := get dst in
    put dst (mkMatrix (resize_vec (nrows_ s) [] (rows d))
                      (nrows_ s) (ncols_ s)) ;;
    for_loop 0 (nrows_ s) (fun i =>
      resize_row dst i (ncols_ s) ;;
      for_loop 0 (ncols_ s) (fun j =>
        let* x := rd src i j in
        wr dst i j x)).

(** [Matrix v(orig);] *)
Definition copy_construct (v orig : var) : M unit :=
  put v empty_Matrix ;; assign v orig.

(** ** [Matrix::checkDominant] *)

(** [accumulate(row.begin(), row.end(), 0.0,
                [](double lhs, double rhs) { return abs(lhs) + abs(rhs); })] *)
Definition accumulate_abs (row : list T) : T :=
  foldl (fun l r => s_add (s_abs l) (s_abs r)) s_zero row.

Definition checkDominant : M bool :=
  let* m := get this in
  let* r := for_ctl 0 (nrows_ m) (fun i (_ : unit) =>
              let* row := row_at this i in
              let sum := accumulate_abs row in
              let* d := rd this i i in
              if s_ltb d (s_sub sum d) then ret (Return false)
              else ret (Next tt)) tt in
  match r with
  | Return b => ret b
  | Next _ => ret true
  end.

(** ** [Matrix::inverse] *)

(** [abs(x) < _ZERO_LIMIT] *)
Definition near_zero (x : T) : bool := s_ltb (s_abs x) ZERO_LIMIT.

(** The shape check, the two local matrices and the identity. Returns
    [nsize]. *)
Definition inverse_init : M Z :=
  let* m := get this in
  if negb (nrows_ m =? ncols_ m) then throw ShapeMismatch
  else
    let nsize := nrows_ m in
    construct mat_inv nsize nsize ;;
    copy_construct mat this ;;
    for_loop 0 nsize (fun i => wr mat_inv i i s_one) ;;
    ret nsize.

(** Body of the forward elimination loop, for the pivot [k]. *)
Definition forward_step (nsize k : Z) : M unit :=
  let* p := rd mat k k in
  if near_zero p then throw SingularMatrix
  else
    for_loop (k + 1) nsize (fun i =>
      let* mik := rd mat i k in
      let* mkk := rd mat k k in
      let coef := s_div mik mkk in
      for_loop k nsize (fun j =>
        let* b := rd mat k j in
        let* a := rd mat i j in
        wr mat i j (s_sub a (s_mul b coef))) ;;
      for_loop 0 nsize (fun j =>
        let* b := rd mat_inv k j in
        let* a := rd mat_inv i j in
        wr mat_inv i j (s_sub a (s_mul b coef)))).

(** [for (size_t k = 0; k < nsize - 1; k++)] *)
Definition inverse_forward (nsize : Z) : M unit :=
  for_loop 0 (size_sub nsize 1) (forward_step nsize).

(** Body of the normalization loop, for the row [i]. *)
Definition normalize_step (nsize i : Z) : M unit :=
  let* p := rd mat i i in
  if near_zero p then throw SingularMatrix
  else
    let* coef := rd mat i i in
    for_loop i nsize (fun j =>
      let* a := rd mat i j in
      wr mat i j (s_div a coef)) ;;
    for_loop 0 nsize (fun j =>
      let* a := rd mat_inv i j in
      wr mat_inv i j (s_div a coef)).

Definition inverse_normalize (nsize : Z) : M unit :=
  for_loop 0 nsize (normalize_step nsize).

(** Body of the two outer backward elimination loops, at row [i] and
    column [j]. The counter [m] is an [int] compared with the [size_t]
    [nsize]; it stays below [2^31] for every matrix that fits in memory. *)
Definition backward_step (nsize i j : Z) : M unit :=
  for_loop 0 nsize (fun m =>
    let* b := rd mat_inv j m in
    let* c := rd mat i j in
    let* a := rd mat_inv i m in
    wr mat_inv i m (s_sub a (s_mul b c))) ;;
  let* b := rd mat j j in
  let* c := rd mat i j in
  let* a := rd mat i j in
  wr mat i j (s_sub a (s_mul b c)).

(** [for (int i = nsize - 2; i >= 0; i--)
      for (int j = nsize - 1; j > i; j--)] *)
Definition inverse_backward (nsize : Z) : M unit :=
  for_down (to_int (size_sub nsize 2)) (-1) (fun i =>
    for_down (to_int (size_sub nsize 1)) i (fun j =>
      backward_step nsize i j)).

Definition inverse : M Matrix :=
  let* nsize := inverse_init in
  inverse_forward nsize ;;
  inverse_normalize nsize ;;
  inverse_backward nsize ;;
  get mat_inv.

(** ** [Matrix::transpose] *)

Definition transpose : M Matrix :=
  let* m := get this in
  construct mat_t (ncols_ m) (nrows_ m) ;;
  for_loop 0 (nrows_ m) (fun i =>
    for_loop 0 (ncols_ m) (fun j =>
      let* x := rd this i j in
      wr mat_t j i x)) ;;
  get mat_t.

(** ** The arithmetic operators *)

(** [operator+(lhs, rhs)] *)
Definition operator_add : M Matrix :=
  construct mat_add 0 0 ;;
  let* l := get lhs in
  let* r := get rhs in
  if negb (ncols_ l =? ncols_ r) || negb (nrows_ l =? nrows_ r)
  then throw ShapeMismatch
  else
    resize mat_add (nrows_ l) (ncols_ l) ;;
    for_loop 0 (nrows_ l) (fun i =>
      for_loop 0 (ncols_ l) (fun j =>
        let* a := rd lhs i j in
        let* b := rd rhs i j in
        wr mat_add i j (s_add a b))) ;;
    get mat_add.

(** [operator-(lhs, rhs)] *)
Definition operator_sub : M Matrix :=
  construct mat_minus 0 0 ;;
  let* l := get lhs in
  let* r := get rhs in
  if negb (ncols_ l =? ncols_ r) || negb (nrows_ l =? nrows_ r)
  then throw ShapeMismatch
  else
    resize mat_minus (nrows_ l) (ncols_ l) ;;
    for_loop 0 (nrows_ l) (fun i =>
      for_loop 0 (ncols_ l) (fun j =>
        let* a := rd lhs i j in
        let* b := rd rhs i j in
        wr mat_minus i j (s_sub a b))) ;;
    get mat_minus.

(** [operator*(lhs, rhs)] *)
Definition operator_mul : M Matrix :=
  construct mat_mul 0 0 ;;
  let* l := get lhs in
  let* r := get rhs in
  if negb (ncols_ l =? nrows_ r) then throw ShapeMismatch
  else
    let mid := ncols_ l in
    let nrows := nrows_ l in
    let ncols := ncols_ r in
    resize mat_mul nrows ncols ;;
    for_loop 0 nrows (fun i =>
      for_loop 0 ncols (fun j =>
        let* sum := for_fold 0 mid (fun k sum =>
                      let* a := rd lhs i k in
                      let* b := rd rhs k j in
                      ret (s_add sum (s_mul a b))) s_zero in
        wr mat_mul i j sum)) ;;
    get mat_mul.

(** ** The flat buffer *)

(** Modelled from the spec: [struct continuousMatrix] is declared in
    [Matrix.h], which is not among the sources. The spec gives it as
    [{nrows, ncols, length = nrows*ncols, data}], [data] a flat row-major
    buffer of [length] doubles; the three counts are taken to be [size_t],
    the type [nrows()] and [ncols()] return. *)
Record continuousMatrix : Type := mkCM {
  cm_nrows : Z;
  cm_ncols : Z;
  cm_length : Z;
  cm_data : list T
}.

Definition len {A} (l : list A) : Z := Z.of_nat (length l).

(** The lambda [row_copy] of [toContinuousMatrix], on the state
    [(cm->data, values_copied)]; [values_copied] is an [int]. *)
Definition row_copy_out (row : list T) (s : list T * Z) : outcome (list T * Z) :=
  let '(data, values_copied) := s in
  if (0 <=? values_copied) && (values_copied + len row <=? len data) then
    Ok (take (Z.to_nat values_copied) data ++ row
          ++ drop (Z.to_nat values_copied + length row) data,
        to_int (values_copied + len row))
  else Err OutOfBounds.

Definition toContinuousMatrix : M continuousMatrix :=
  let* m := get this in
  if (nrows_ m =? 0) || (ncols_ m =? 0) then throw MalformedInput
  else
    let length := size_mul (nrows_ m) (ncols_ m) in
    (* malloc: the buffer starts with unspecified contents *)
    let data := replicate (Z.to_nat length) s_zero in
    let* s := lift (for_each (rows m) row_copy_out (data, 0)) in
    (* values_copied != cm->length, the [int] converted to [size_t] *)
    if negb (snd s mod SIZE_MAX1 =? length) then throw MalformedInput
    else ret (mkCM (nrows_ m) (ncols_ m) length (fst s)).

(** The lambda [row_copy] of [fromContinuousMatrix], on the state
    [(rows already filled, values_copied)]. *)
Definition row_copy_in (data : list T) (row : list T)
    (s : list (list T) * Z) : outcome (list (list T) * Z) :=
  let '(filled, values_copied) := s in
  if (0 <=? values_copied) && (values_copied + len row <=? len data) then
    Ok (filled ++ [take (length row) (drop (Z.to_nat values_copied) data)],
        to_int (values_copied + len row))
  else Err OutOfBounds.

Definition fromContinuousMatrix (cm : continuousMatrix) : M unit :=
  if (cm_nrows cm =? 0) || (cm_ncols cm =? 0) then throw MalformedInput
  else
    resize this (cm_nrows cm) (cm_ncols cm) ;;
    let* m := get this in
    let* s := lift (for_each (rows m) (row_copy_in (cm_data cm)) ([], 0)) in
    put this (mkMatrix (fst s) (nrows_ m) (ncols_ m)).

End Model.

Arguments Matrix T : clear implicits.
Arguments continuousMatrix T : clear implicits.
Arguments store T : clear implicits.
Arguments M T A : clear implicits.

Notation "'let*' x ':=' c1 'in' c2" := (bind c1 (fun x => c2))
  (at level 10, x name, c1 at level 100, c2 at level 200).
Notation "c1 ;; c2" := (bind c1 (fun _ => c2))
  (at level 100, c2 at level 200, right associativity).

(** ** Specifications of function bodies *)

Section Specs.

Context {T : Type} `{Scalar T}.

(** [sat m st Q E]: from the store [st], the body [m] either finishes with a
    value and a store that satisfy [Q], or stops with an error and a store
    that satisfy [E]. *)
Definition sat {A} (m : M T A) (st : store T)
    (Q : A -> store T -> Prop) (E : error -> store T -> Prop) : Prop :=
  match m st with
  | (Ok a, st') => Q a st'
  | (Err e, st') => E e st'
  end.

(** The body finishes, without error. *)
Definition no_err : error -> store T -> Prop := fun _ _ => False.

(** The invariant of the data model: [nrows_] rows of [ncols_] cells each,
    both counts being [size_t] values. *)
Definition wf (m : Matrix T) : Prop :=
  0 <= nrows_ m < SIZE_MAX1 /\ 0 <= ncols_ m < SIZE_MAX1 /\
  len (rows m) = nrows_ m /\
  Forall (fun r => len r = ncols_ m) (rows m).

(** [m] has [r] rows of [c] cells (whatever its two members say). *)
Definition shaped (r c : Z) (m : Matrix T) : Prop :=
  len (rows m) = r /\ Forall (fun row => len row = c) (rows m).

(** The cell [i][j] of [m], when it exists. *)
Definition cell (m : Matrix T) (i j : Z) : option T :=
  if (0 <=? i) && (0 <=? j) then
    rows m !! Z.to_nat i ≫= fun r => r !! Z.to_nat j
  else None.

(** [m] with [x] stored in the cell [i][j]. *)
Definition set_cell (m : Matrix T) (i j : Z) (x : T) : Matrix T :=
  match rows m !! Z.to_nat i with
  | Some r =>
      mkMatrix (<[Z.to_nat i := <[Z.to_nat j := x]> r]> (rows m))
               (nrows_ m) (ncols_ m)
  | None => m
  end.

(** Two stores agree on every object but [out]. *)
Definition agree_except (out : var) (st st0 : store T) : Prop :=
  forall v, v <> out -> st v = st0 v.

(** The lengths of the rows of [m]. *)
Definition row_lengths (m : Matrix T) : list nat := length <$> rows m.

(** [st] differs from [st0] at most in the values of the cells of [out]. *)
Definition same_frame (out : var) (st st0 : store T) : Prop :=
  agree_except out st st0 /\
  nrows_ (st out) = nrows_ (st0 out) /\
  ncols_ (st out) = ncols_ (st0 out) /\
  row_lengths (st out) = row_lengths (st0 out).

(** The value of the cell [i][j] of [m] (zero outside [m]). *)
Definition at_ (m : Matrix T) (i j : Z) : T := default s_zero (cell m i j).

(** The identity matrix of size [n]. *)
Definition identity_cells (n : Z) (m : Matrix T) : Prop :=
  forall i j, 0 <= i < n -> 0 <= j < n ->
    cell m i j = Some (if decide (i = j) then s_one else s_zero).

(** [f 0 + f 1 + ... + f (n - 1)], summed from the left, starting at zero. *)
Fixpoint sum_upto (f : nat -> T) (n : nat) : T :=
  match n with
  | O => s_zero
  | S n' => s_add (sum_upto f n') (f n')
  end.

(** The sum over [k] from [0] to [n - 1] of [a[i][k] * b[k][j]]. *)
Definition dot (a b : Matrix T) (i j n : Z) : T :=
  sum_upto (fun k => s_mul (at_ a i (Z.of_nat k)) (at_ b (Z.of_nat k) j))
           (Z.to_nat n).

(** Whatever the outcome of [m], the objects in [vs] are left as they were,
    and an error is one of [P]. *)
Definition keeps {A} (vs : var -> Prop) (P : error -> Prop) (m : M T A)
    : Prop :=
  forall st,
    sat m st (fun _ st' => forall v, vs v -> st' v = st v)
             (fun e st' => P e /\ forall v, vs v -> st' v = st v).

(** Two stores agree on the objects in [vs]. *)
Definition agree_on (vs : var -> Prop) (st st' : store T) : Prop :=
  forall v, vs v -> st v = st' v.

(** The outcome of [m] depends on the objects in [vs] only; when it
    finishes, the objects in [vs'] depend on those in [vs] only. *)
Definition pure_in {A} (vs vs' : var -> Prop) (m : M T A) : Prop :=
  forall st st', agree_on vs st st' ->
    fst (m st) = fst (m st') /\
    (forall a, fst (m st) = Ok a -> agree_on vs' (snd (m st)) (snd (m st'))).

(** The two working matrices of [inverse] are [n x n]. *)
Definition working (n : Z) (st : store T) : Prop :=
  shaped n n (st mat) /\ shaped n n (st mat_inv).

(** [|mat[k][k]| < _ZERO_LIMIT] in the store [st]. *)
Definition pivot_near_zero (st : store T) (k : Z) : Prop :=
  exists x, cell (st mat) k k = Some x /\ near_zero x = true.

(** A pass of [inverse] over its two working matrices took [st] to [st']:
    the cells of [mat] and [mat_inv] are now [fa i j] and [fb i j], both
    are still [n x n], and the members of [mat_inv] are as they were. *)
Definition reworked (n : Z) (st st' : store T) (fa fb : Z -> Z -> T) : Prop :=
  working n st' /\
  nrows_ (st' mat_inv) = nrows_ (st mat_inv) /\
  ncols_ (st' mat_inv) = ncols_ (st mat_inv) /\
  forall i j, 0 <= i < n -> 0 <= j < n ->
    at_ (st' mat) i j = fa i j /\ at_ (st' mat_inv) i j = fb i j.

(** The test [checkDominant] makes on the row [i], as the source computes
    it: [a[i][i] < sum - a[i][i]], with [sum] the accumulation over the
    row. *)
Definition row_fails (m : Matrix T) (i : Z) : Prop :=
  exists row d,
    rows m !! Z.to_nat i = Some row /\ row !! Z.to_nat i = Some d /\
    s_ltb d (s_sub (accumulate_abs row) d) = true.

(** The test of [operator+] and [operator-]. *)
Definition shapes_differ (l r : Matrix T) : bool :=
  negb (ncols_ l =? ncols_ r) || negb (nrows_ l =? nrows_ r).

(** The [i]-th run of [c] cells of a flat buffer. *)
Definition chunk (c : nat) (data : list T) (i : nat) : list T :=
  take c (drop (i * c) data).

(** A store for a call [a.f()] or [f(a, b)]: [a] is [*this] and [lhs], [b] is
    [rhs], and the locals are not yet constructed. *)
Definition call (a b : Matrix T) : store T :=
  fun v =>
    match v with
    | this | lhs => a
    | rhs => b
    | _ => empty_Matrix
    end.

End Specs.

(** *** Over the rationals and the doubles *)

(** The sum of [|x|] over the row. *)
Definition row_abs_sum (row : list Q) : Q :=
  fold_right (fun x s => Qabs x + s)%Q 0%Q row.

(** Row [i] of [m] is dominated by its diagonal entry [d]:
    [d >= rowAbsSum - |d|]. *)
Definition dominant_row (m : Matrix Q) (i : Z) : Prop :=
  exists row d,
    rows m !! Z.to_nat i = Some row /\ row !! Z.to_nat i = Some d /\
    (row_abs_sum row - Qabs d <= d)%Q.

(** [x] is a finite double whose exact value is closer than [tol] to [q]. *)
Definition within (tol : Q) (x : float) (q : Q) : Prop :=
  exists v, double_to_Q x = Some v /\ (Qabs (v - q) < tol)%Q.

(** The matrix of the exact values of the cells of a matrix of doubles,
    when every cell is finite. *)
Definition exact_Matrix (m : Matrix float) : option (Matrix Q) :=
  (fun r => mkMatrix r (nrows_ m) (ncols_ m))
    <$> mapM (mapM double_to_Q) (rows m).

(** The entry [i][j] of the identity matrix. *)
Definition delta (i j : Z) : Q := if decide (i = j) then 1%Q else 0%Q.

(** [mat_inv * a == mat], cell by cell: the row operations [inverse] has
    done so far, which [mat_inv] records, take [a] to [mat]. *)
Definition tracks (n : Z) (a : Matrix Q) (st : store Q) : Prop :=
  forall i j, 0 <= i < n -> 0 <= j < n ->
    (dot (st mat_inv) a i j n == at_ (st mat) i j)%Q.

(** The columns before [k] of [mat] are zero below the diagonal. *)
Definition lower_zero (n k : Z) (st : store Q) : Prop :=
  forall r c, 0 <= c < k -> c < r < n -> (at_ (st mat) r c == 0)%Q.

(** The first [k] diagonal entries of [mat] are one. *)
Definition unit_diag (k : Z) (st : store Q) : Prop :=
  forall r, 0 <= r < k -> (at_ (st mat) r r == 1)%Q.

(** The rows of [mat] from [i] on are zero right of the diagonal. *)
Definition upper_zero (n i : Z) (st : store Q) : Prop :=
  forall r c, i <= r < n -> r < c < n -> (at_ (st mat) r c == 0)%Q.

(** The matrices of the scenarios of the specification. *)
Definition A_4726 {T} (four seven two six : T) : Matrix T :=
  mkMatrix [[four; seven]; [two; six]] 2 2.

Definition S_1224 {T} (one two four : T) : Matrix T :=
  mkMatrix [[one; two]; [two; four]] 2 2.

Definition D_dominant : Matrix Q :=
  mkMatrix [[5; 1; 1]; [1; 4; 1]; [1; 1; 3]]%Q 3 3.

Definition D_not_dominant : Matrix Q :=
  mkMatrix [[1; 5; 1]; [1; 4; 1]; [1; 1; 3]]%Q 3 3.

Definition A_23 : Matrix Q := mkMatrix [[1; 2; 3]; [4; 5; 6]]%Q 2 3.

Definition B_32 : Matrix Q := mkMatrix [[1; 0]; [0; 1]; [2; 2]]%Q 3 2.

(** A matrix of doubles whose first row is [1 + 3u, 1, 3u] for
    [u = 2^-52]: its diagonal entry is exactly the sum of the two others. *)
Definition R_ulp : Matrix float :=
  mkMatrix [[0x1.0000000000003p+0; 1; 0x1.8p-51]; [0; 1; 0]; [0; 0; 1]]%float
           3 3.

(** A permutation matrix: invertible, with a zero leading entry. *)
Definition P_0110 : Matrix Q := mkMatrix [[0; 1]; [1; 0]]%Q 2 2.

(** A flat matrix of two rows and three columns. *)
Definition F_23 : continuousMatrix Q := mkCM 2 3 6 [1; 2; 3; 4; 5; 6]%Q.

(** A matrix whose rows do not have one length, with four cells in all. *)
Definition J_13 : Matrix Q := mkMatrix [[1]; [2; 3; 4]]%Q 2 2.

(** ** Loops: unfolding *)

Section Loops.

Context {T : Type}.

Implicit Types st : store T.

Lemma for_nat_ext {A R} hi (body : Z -> A -> M T (ctl A R)) kont1 kont2 :
  (forall k a st, kont1 k a st = kont2 k a st) ->
  forall n k a st,
    for_nat n hi body kont1 k a st = for_nat n hi body kont2 k a st.
Proof.
  intros Hk n. induction n as [|n IH]; intros k a st; simpl; [apply Hk|].
  destruct (hi <=? k); [reflexivity|].
  unfold bind. destruct (body k a st) as [[[a'|r]|e] st']; auto.
Qed.

Lemma for_nat_add {A R} hi (body : Z -> A -> M T (ctl A R)) kont n m :
  forall k a st,
    for_nat (n + m) hi body kont k a st
    = for_nat n hi body (for_nat m hi body kont) k a st.
Proof.
  induction n as [|n IH]; intros k a st; simpl; [reflexivity|].
  destruct (hi <=? k); [reflexivity|].
  unfold bind. destruct (body k a st) as [[[a'|r]|e] st']; auto.
Qed.

Lemma for_go_nat {A R} hi (body : Z -> A -> M T (ctl A R)) d :
  forall kont k a st,
    for_go d hi body kont k a st = for_nat (2 ^ d) hi body kont k a st.
Proof.
  induction d as [|d IH]; intros kont k a st.
  - simpl. destruct (hi <=? k); [reflexivity|].
    unfold bind. destruct (body k a st) as [[[a'|r]|e] st']; auto.
  - change (for_go (S d) hi body kont k a st)
      with (for_go d hi body (for_go d hi body kont) k a st).
    rewrite IH.
    rewrite (for_nat_ext hi body _ (for_nat (2 ^ d) hi body kont))
      by (intros; apply IH).
    rewrite <- for_nat_add. f_equal. simpl. lia.
Qed.

Lemma for_nat_enough {A R} hi (body : Z -> A -> M T (ctl A R)) n :
  forall k a st,
    (Z.to_nat (hi - k) <= n)%nat ->
    for_nat n hi body (fun _ a' => ret (Next a')) k a st
    = for_nat (Z.to_nat (hi - k)) hi body (fun _ a' => ret (Next a')) k a st.
Proof.
  induction n as [|n IH]; intros k a st Hn.
  - replace (Z.to_nat (hi - k)) with 0%nat by lia. reflexivity.
  - simpl. destruct (Z.leb_spec hi k) as [Hle|Hlt].
    + replace (Z.to_nat (hi - k)) with 0%nat by lia. reflexivity.
    + replace (Z.to_nat (hi - k)) with (S (Z.to_nat (hi - (k + 1)))) by lia.
      simpl. destruct (Z.leb_spec hi k); [lia|].
      unfold bind. destruct (body k a st) as [[[a'|r]|e] st']; auto.
      apply IH. lia.
Qed.

Lemma pow2_log2_up (x : Z) : (Z.to_nat x <= 2 ^ Z.to_nat (Z.log2_up x))%nat.
Proof.
  destruct (Z.le_gt_cases x 1) as [Hx|Hx].
  - assert (Hp : (1 <= 2 ^ Z.to_nat (Z.log2_up x))%nat).
    { apply Nat.neq_0_lt_0, Nat.pow_nonzero. lia. }
    lia.
  - pose proof (Z.log2_up_spec x Hx) as [_ Hs].
    pose proof (Z.log2_up_nonneg x) as Hnn.
    apply Nat2Z.inj_le. rewrite Nat2Z.inj_pow, !Z2Nat.id by lia.
    exact Hs.
Qed.

Lemma for_ctl_nat {A R} lo hi (body : Z -> A -> M T (ctl A R)) a st :
  for_ctl lo hi body a st
  = for_nat (Z.to_nat (hi - lo)) hi body (fun _ a' => ret (Next a')) lo a st.
Proof.
  unfold for_ctl. rewrite for_go_nat. apply for_nat_enough, pow2_log2_up.
Qed.

(** One iteration of [for_ctl]. *)
Lemma for_ctl_unfold {A R} lo hi (body : Z -> A -> M T (ctl A R)) a st :
  for_ctl lo hi body a st
  = if hi <=? lo then (Ok (Next a), st)
    else (let* r := body lo a in
          match r with
          | Next a' => for_ctl (lo + 1) hi body a'
          | Return r => ret (Return r)
          end) st.
Proof.
  rewrite for_ctl_nat. destruct (Z.leb_spec hi lo) as [Hle|Hlt].
  - replace (Z.to_nat (hi - lo)) with 0%nat by lia. reflexivity.
  - replace (Z.to_nat (hi - lo)) with (S (Z.to_nat (hi - (lo + 1)))) by lia.
    simpl. destruct (Z.leb_spec hi lo); [lia|].
    unfold bind. destruct (body lo a st) as [[[a'|r]|e] st']; auto.
    symmetry. apply for_ctl_nat.
Qed.

(** One iteration of [for_fold]. *)
Lemma for_fold_unfold {A} lo hi (body : Z -> A -> M T A) a st :
  for_fold lo hi body a st
  = if hi <=? lo then (Ok a, st)
    else (let* a' := body lo a in for_fold (lo + 1) hi body a') st.
Proof.
  unfold for_fold at 1. unfold bind at 1. rewrite for_ctl_unfold.
  destruct (hi <=? lo); [reflexivity|].
  unfold bind. destruct (body lo a st) as [[a'|e] st']; reflexivity.
Qed.

(** One iteration of [for_loop]. *)
Lemma for_loop_unfold lo hi (body : Z -> M T unit) st :
  for_loop lo hi body st
  = if hi <=? lo then (Ok tt, st)
    else (body lo ;; for_loop (lo + 1) hi body) st.
Proof.
  unfold for_loop. rewrite for_fold_unfold.
  destruct (hi <=? lo); [reflexivity|].
  unfold bind. destruct (body lo st) as [[[]|e] st']; reflexivity.
Qed.

End Loops.

(** ** Rules for [sat] *)

Section Rules.

Context {T : Type}.

Implicit Types (st : store T) (E : error -> store T -> Prop).

Lemma sat_ret {A} (a : A) st (Q : A -> store T -> Prop) E :
  Q a st -> sat (ret a) st Q E.
Proof. intros HQ. exact HQ. Qed.

Lemma sat_throw {A} e st (Q : A -> store T -> Prop) E :
  E e st -> sat (throw e) st Q E.
Proof. intros HE. exact HE. Qed.

Lemma sat_lift {A} (o : outcome A) st (Q : A -> store T -> Prop) E :
  match o with Ok a => Q a st | Err e => E e st end -> sat (lift o) st Q E.
Proof. intros Ho. unfold sat, lift. destruct o; exact Ho. Qed.

Lemma sat_get v st (Q : Matrix T -> store T -> Prop) E :
  Q (st v) st -> sat (get v) st Q E.
Proof. intros HQ. exact HQ. Qed.

Lemma sat_put v m st (Q : unit -> store T -> Prop) E :
  Q tt (upd v m st) -> sat (put v m) st Q E.
Proof. intros HQ. exact HQ. Qed.

Lemma sat_bind {A B} (m : M T A) (f : A -> M T B) st
    (Q : B -> store T -> Prop) E :
  sat m st (fun a st' => sat (f a) st' Q E) E -> sat (bind m f) st Q E.
Proof.
  unfold sat, bind. destruct (m st) as [[a|e] st']; intros Hm; exact Hm.
Qed.

Lemma sat_mono {A} (m : M T A) st (Q Q' : A -> store T -> Prop) E E' :
  sat m st Q E ->
  (forall a st', Q a st' -> Q' a st') ->
  (forall e st', E e st' -> E' e st') ->
  sat m st Q' E'.
Proof.
  unfold sat. destruct (m st) as [[a|e] st']; intros Hm HQ HE; auto.
Qed.

Lemma sat_conj {A} (m : M T A) st (Q Q' : A -> store T -> Prop) E E' :
  sat m st Q E -> sat m st Q' E' ->
  sat m st (fun a st' => Q a st' /\ Q' a st')
           (fun e st' => E e st' /\ E' e st').
Proof.
  unfold sat. destruct (m st) as [[a|e] st']; intros H1 H2; auto.
Qed.

Lemma sat_ok {A} (m : M T A) st (Q : A -> store T -> Prop) :
  sat m st Q no_err -> exists a st', m st = (Ok a, st') /\ Q a st'.
Proof.
  unfold sat, no_err. destruct (m st) as [[a|e] st']; intros Hm; [|easy].
  exists a, st'. auto.
Qed.

(** A counting loop whose body may [return]: [I] holds before every
    iteration, [Qr] when the body returns. *)
Lemma sat_for_ctl {A R} (I : Z -> A -> store T -> Prop)
    (Qr : R -> store T -> Prop) E lo hi (body : Z -> A -> M T (ctl A R)) :
  (forall k a st, lo <= k < hi -> I k a st ->
     sat (body k a) st
       (fun r st' => match r with
                     | Next a' => I (k + 1) a' st'
                     | Return r => Qr r st'
                     end) E) ->
  forall a st, I lo a st ->
  sat (for_ctl lo hi body a) st
    (fun r st' => match r with
                  | Next a' => I (Z.max lo hi) a' st'
                  | Return r => Qr r st'
                  end) E.
Proof.
  intros Hbody.
  remember (Z.to_nat (hi - lo)) as n eqn:Hn.
  revert lo Hn Hbody. induction n as [|n IH]; intros lo Hn Hbody a st HI.
  - unfold sat. rewrite for_ctl_unfold.
    destruct (Z.leb_spec hi lo); [|lia].
    replace (Z.max lo hi) with lo by lia. exact HI.
  - unfold sat. rewrite for_ctl_unfold.
    destruct (Z.leb_spec hi lo); [lia|].
    apply sat_bind.
    eapply sat_mono; [apply (Hbody lo a st); [lia|exact HI]| |auto].
    intros [a'|r] st' Hr.
    + replace (Z.max lo hi) with (Z.max (lo + 1) hi) by lia.
      apply IH; [lia| |exact Hr].
      intros k a0 st0 Hk. apply Hbody. lia.
    + exact Hr.
Qed.

Lemma sat_for_fold {A} (I : Z -> A -> store T -> Prop) E lo hi
    (body : Z -> A -> M T A) :
  (forall k a st, lo <= k < hi -> I k a st ->
     sat (body k a) st (I (k + 1)) E) ->
  forall a st, I lo a st ->
  sat (for_fold lo hi body a) st (I (Z.max lo hi)) E.
Proof.
  intros Hbody a st HI. unfold for_fold. apply sat_bind.
  eapply sat_mono;
    [apply (sat_for_ctl I (fun (r : Empty_set) _ => False) E);
       [|exact HI]| |auto].
  - intros k a0 st0 Hk HI0. apply sat_bind.
    eapply sat_mono; [apply Hbody; eauto| |auto].
    intros a' st' Ha'. exact Ha'.
  - intros [a'|[]] st' Hr. exact Hr.
Qed.

Lemma sat_for_loop (I : Z -> store T -> Prop) E lo hi (body : Z -> M T unit) :
  (forall k st, lo <= k < hi -> I k st ->
     sat (body k) st (fun _ => I (k + 1)) E) ->
  forall st, I lo st ->
  sat (for_loop lo hi body) st (fun _ => I (Z.max lo hi)) E.
Proof.
  intros Hbody st HI. unfold for_loop.
  apply (sat_for_fold (fun k (_ : unit) => I k)); [|exact HI].
  intros k [] st0 Hk HI0. apply Hbody; assumption.
Qed.

Lemma sat_for_loop_post (I : Z -> store T -> Prop) E lo hi
    (body : Z -> M T unit) st (Q : unit -> store T -> Prop) :
  (forall k st, lo <= k < hi -> I k st ->
     sat (body k) st (fun _ => I (k + 1)) E) ->
  I lo st ->
  (forall st', I (Z.max lo hi) st' -> Q tt st') ->
  sat (for_loop lo hi body) st Q E.
Proof.
  intros Hbody HI HQ.
  eapply sat_mono; [apply (sat_for_loop I E); eassumption| |auto].
  intros [] st'. apply HQ.
Qed.

(** A loop can be cut at any point of its range. *)
Lemma for_loop_split lo mid hi (body : Z -> M T unit) :
  lo <= mid <= hi ->
  forall st,
    for_loop lo hi body st
    = (for_loop lo mid body ;; for_loop mid hi body) st.
Proof.
  intros Hm.
  remember (Z.to_nat (mid - lo)) as n eqn:Hn.
  revert lo Hn Hm. induction n as [|n IH]; intros lo Hn Hm st.
  - assert (mid = lo) by lia. subst mid.
    unfold bind. rewrite (for_loop_unfold lo lo).
    destruct (Z.leb_spec lo lo); [reflexivity|lia].
  - unfold bind. rewrite (for_loop_unfold lo hi), (for_loop_unfold lo mid).
    destruct (Z.leb_spec hi lo); [lia|].
    destruct (Z.leb_spec mid lo); [lia|].
    unfold bind. destruct (body lo st) as [[[]|e] st']; [|reflexivity].
    rewrite (IH (lo + 1)) by lia. reflexivity.
Qed.

End Rules.

(** ** Cells, reads and writes *)

Section Cells.

Context {T : Type} `{Scalar T}.

Implicit Types (st : store T) (m : Matrix T).

Lemma upd_same v m st : upd v m st v = m.
Proof. unfold upd. destruct (decide (v = v)); congruence. Qed.

Lemma upd_other v v' m st : v' <> v -> upd v m st v' = st v'.
Proof. intros Hv. unfold upd. destruct (decide (v' = v)); congruence. Qed.

Lemma cell_Some m i j x :
  cell m i j = Some x ->
  0 <= i /\ 0 <= j /\
  exists r, rows m !! Z.to_nat i = Some r /\ r !! Z.to_nat j = Some x.
Proof.
  unfold cell. destruct (Z.leb_spec 0 i), (Z.leb_spec 0 j); simpl; try easy.
  destruct (rows m !! Z.to_nat i) as [r|] eqn:Hr; simpl; [|easy].
  intros Hx. eauto.
Qed.

Lemma cell_lookup m i j r :
  0 <= i -> 0 <= j -> rows m !! Z.to_nat i = Some r ->
  cell m i j = r !! Z.to_nat j.
Proof.
  intros Hi Hj Hr. unfold cell.
  destruct (Z.leb_spec 0 i), (Z.leb_spec 0 j); try lia. simpl.
  rewrite Hr. reflexivity.
Qed.

Lemma shaped_row r c m i :
  shaped r c m -> 0 <= i < r ->
  exists row, rows m !! Z.to_nat i = Some row /\ len row = c.
Proof.
  intros [Hr Hc] Hi.
  destruct (lookup_lt_is_Some_2 (rows m) (Z.to_nat i)) as [row Hrow].
  { unfold len in Hr. lia. }
  exists row. split; [exact Hrow|].
  rewrite Forall_lookup in Hc. eapply Hc; eauto.
Qed.

Lemma shaped_cell r c m i j :
  shaped r c m -> 0 <= i < r -> 0 <= j < c -> is_Some (cell m i j).
Proof.
  intros Hs Hi Hj. destruct (shaped_row r c m i Hs Hi) as (row & Hrow & Hlen).
  rewrite (cell_lookup m i j row) by (lia || assumption).
  apply lookup_lt_is_Some_2. unfold len in Hlen. lia.
Qed.

Lemma shaped_cell_inv r c m i j :
  shaped r c m -> is_Some (cell m i j) -> 0 <= i < r /\ 0 <= j < c.
Proof.
  intros [Hr Hc] [x Hx].
  destruct (cell_Some m i j x Hx) as (Hi & Hj & row & Hrow & Hcell).
  pose proof (lookup_lt_Some _ _ _ Hrow) as Hlt.
  pose proof (lookup_lt_Some _ _ _ Hcell) as Hlt'.
  rewrite Forall_lookup in Hc. pose proof (Hc _ _ Hrow) as Hlen.
  unfold len in *. lia.
Qed.

Lemma rd_eq v i j st :
  rd v i j st
  = (match cell (st v) i j with
     | Some x => Ok x
     | None => Err OutOfBounds
     end, st).
Proof.
  unfold rd, row_at, bind, get, lift, index, cell.
  destruct (0 <=? i); simpl; [|reflexivity].
  destruct (rows (st v) !! Z.to_nat i) as [r|]; simpl.
  - destruct (0 <=? j); simpl; [|reflexivity].
    destruct (r !! Z.to_nat j); reflexivity.
  - destruct (0 <=? j); reflexivity.
Qed.

Lemma wr_eq v i j x st :
  wr v i j x st
  = match cell (st v) i j with
    | Some _ => (Ok tt, upd v (set_cell (st v) i j x) st)
    | None => (Err OutOfBounds, st)
    end.
Proof.
  unfold wr, bind, get, lift, put, index, cell, set_cell.
  destruct (0 <=? i); simpl; [|reflexivity].
  destruct (rows (st v) !! Z.to_nat i) as [r|]; simpl.
  - destruct (0 <=? j); simpl; [|reflexivity].
    destruct (r !! Z.to_nat j); reflexivity.
  - destruct (0 <=? j); reflexivity.
Qed.

Lemma sat_rd v i j st x (Q : T -> store T -> Prop) E :
  cell (st v) i j = Some x -> Q x st -> sat (rd v i j) st Q E.
Proof. intros Hc HQ. unfold sat. rewrite rd_eq, Hc. exact HQ. Qed.

Lemma sat_wr v i j x st (Q : unit -> store T -> Prop) E :
  is_Some (cell (st v) i j) ->
  Q tt (upd v (set_cell (st v) i j x) st) ->
  sat (wr v i j x) st Q E.
Proof. intros [y Hc] HQ. unfold sat. rewrite wr_eq, Hc. exact HQ. Qed.

Lemma sat_wr_shaped r c v i j x st (Q : unit -> store T -> Prop) E :
  shaped r c (st v) -> 0 <= i < r -> 0 <= j < c ->
  (forall st', st' v = set_cell (st v) i j x ->
               (forall v', v' <> v -> st' v' = st v') -> Q tt st') ->
  sat (wr v i j x) st Q E.
Proof.
  intros Hs Hi Hj HQ. apply sat_wr; [eapply shaped_cell; eauto|].
  apply HQ; [apply upd_same|]. intros v' Hv. apply upd_other. exact Hv.
Qed.

Lemma sat_rd_shaped r c v i j st (Q : T -> store T -> Prop) E :
  shaped r c (st v) -> 0 <= i < r -> 0 <= j < c ->
  (forall x, cell (st v) i j = Some x -> Q x st) ->
  sat (rd v i j) st Q E.
Proof.
  intros Hs Hi Hj HQ.
  destruct (shaped_cell r c (st v) i j Hs Hi Hj) as [x Hx].
  eapply sat_rd; eauto.
Qed.

Lemma set_cell_nrows m i j x : nrows_ (set_cell m i j x) = nrows_ m.
Proof. unfold set_cell. destruct (rows m !! Z.to_nat i); reflexivity. Qed.

Lemma set_cell_ncols m i j x : ncols_ (set_cell m i j x) = ncols_ m.
Proof. unfold set_cell. destruct (rows m !! Z.to_nat i); reflexivity. Qed.

Lemma shaped_set_cell r c m i j x :
  shaped r c m -> shaped r c (set_cell m i j x).
Proof.
  intros [Hr Hc]. unfold set_cell.
  destruct (rows m !! Z.to_nat i) as [row|] eqn:Hrow; [|split; assumption].
  split; simpl.
  - unfold len in *. rewrite length_insert. exact Hr.
  - rewrite Forall_lookup in Hc. pose proof (Hc _ _ Hrow) as Hlen.
    apply Forall_insert; [apply Forall_lookup; exact Hc|].
    unfold len in *. rewrite length_insert. exact Hlen.
Qed.

Lemma cell_set_cell m i j x i' j' :
  is_Some (cell m i j) ->
  cell (set_cell m i j x) i' j'
  = if decide (i' = i /\ j' = j) then Some x else cell m i' j'.
Proof.
  intros [y Hy].
  destruct (cell_Some m i j y Hy) as (Hi & Hj & row & Hrow & Hcell).
  pose proof (lookup_lt_Some _ _ _ Hrow) as Hlt.
  pose proof (lookup_lt_Some _ _ _ Hcell) as Hlt'.
  unfold set_cell. rewrite Hrow. unfold cell at 1. simpl.
  destruct (Z.leb_spec 0 i'), (Z.leb_spec 0 j'); simpl.
  - destruct (decide (i' = i)) as [->|Hne].
    + rewrite list_lookup_insert_eq by exact Hlt. simpl.
      destruct (decide (j' = j)) as [->|Hne'].
      * rewrite list_lookup_insert_eq by exact Hlt'.
        destruct (decide (i = i /\ j = j)) as [_|[]]; auto.
      * rewrite list_lookup_insert_ne by lia.
        destruct (decide (i = i /\ j' = j)) as [[_ ?]|_]; [easy|].
        symmetry. apply cell_lookup; assumption.
    + rewrite list_lookup_insert_ne by lia.
      destruct (decide (i' = i /\ j' = j)) as [[? _]|_]; [easy|].
      unfold cell. destruct (Z.leb_spec 0 i'), (Z.leb_spec 0 j'); try lia.
      reflexivity.
  - destruct (decide (i' = i /\ j' = j)) as [[_ ?]|_]; [lia|].
    unfold cell. destruct (Z.leb_spec 0 j'); [lia|].
    rewrite andb_false_r. reflexivity.
  - destruct (decide (i' = i /\ j' = j)) as [[? _]|_]; [lia|].
    unfold cell. destruct (Z.leb_spec 0 i'); [lia|]. reflexivity.
  - destruct (decide (i' = i /\ j' = j)) as [[? _]|_]; [lia|].
    unfold cell. destruct (Z.leb_spec 0 i'); [lia|]. reflexivity.
Qed.

(** Two matrices of one shape with the same cells have the same rows. *)
Lemma rows_ext r c m1 m2 :
  shaped r c m1 -> shaped r c m2 ->
  (forall i j, 0 <= i < r -> 0 <= j < c -> cell m1 i j = cell m2 i j) ->
  rows m1 = rows m2.
Proof.
  intros Hs1 Hs2 Hcells. apply list_eq. intros i.
  destruct (decide (Z.of_nat i < r)) as [Hi|Hi].
  - destruct (shaped_row r c m1 (Z.of_nat i) Hs1) as (r1 & Hr1 & Hl1); [lia|].
    destruct (shaped_row r c m2 (Z.of_nat i) Hs2) as (r2 & Hr2 & Hl2); [lia|].
    rewrite Nat2Z.id in Hr1, Hr2. rewrite Hr1, Hr2. f_equal.
    apply list_eq. intros j.
    destruct (decide (Z.of_nat j < c)) as [Hj|Hj].
    + specialize (Hcells (Z.of_nat i) (Z.of_nat j)).
      rewrite (cell_lookup m1 _ _ r1), (cell_lookup m2 _ _ r2) in Hcells
        by (rewrite ?Nat2Z.id; (lia || assumption)).
      rewrite Nat2Z.id in Hcells. apply Hcells; lia.
    + unfold len in *. rewrite !lookup_ge_None_2 by lia. reflexivity.
  - destruct Hs1 as [Hl1 _], Hs2 as [Hl2 _]. unfold len in *.
    rewrite !lookup_ge_None_2 by lia. reflexivity.
Qed.

End Cells.

(** ** [resize] and construction *)

Section Resize.

Context {T : Type} `{Scalar T}.

Implicit Types (st : store T) (m : Matrix T).

Lemma length_resize_vec {A} n (d : A) l : 0 <= n -> len (resize_vec n d l) = n.
Proof.
  intros Hn. unfold len, resize_vec.
  rewrite length_app, length_take, length_replicate. lia.
Qed.

Lemma lookup_resize_vec {A} n (d : A) l (i : nat) :
  resize_vec n d l !! i
  = if decide (Z.of_nat i < n) then Some (default d (l !! i)) else None.
Proof.
  unfold resize_vec. destruct (decide (Z.of_nat i < n)) as [Hi|Hi].
  - destruct (decide (i < length l)%nat) as [Hl|Hl].
    + rewrite lookup_app_l by (rewrite length_take; lia).
      rewrite lookup_take_lt by lia.
      destruct (lookup_lt_is_Some_2 l i Hl) as [x Hx]. rewrite Hx. reflexivity.
    + rewrite lookup_app_r by (rewrite length_take; lia).
      rewrite (lookup_ge_None_2 l i) by lia. simpl.
      apply lookup_replicate_2. rewrite length_take. lia.
  - apply lookup_ge_None_2.
    rewrite length_app, length_take, length_replicate. lia.
Qed.

Lemma shaped_resize r c m :
  0 <= r -> 0 <= c -> shaped r c (resize_Matrix r c m).
Proof.
  intros Hr Hc. split; simpl.
  - unfold len. rewrite length_fmap. apply length_resize_vec. exact Hr.
  - apply Forall_fmap, Forall_forall. intros row _. simpl.
    apply length_resize_vec. exact Hc.
Qed.

(** What [resize] leaves in a cell: the old value where there was one, and
    zero elsewhere. *)
Lemma cell_resize r c m i j :
  0 <= i < r -> 0 <= j < c ->
  cell (resize_Matrix r c m) i j = Some (default s_zero (cell m i j)).
Proof.
  intros Hi Hj. unfold cell.
  destruct (Z.leb_spec 0 i), (Z.leb_spec 0 j); try lia. simpl.
  rewrite list_lookup_fmap, lookup_resize_vec.
  destruct (decide (Z.of_nat (Z.to_nat i) < r)); [|lia]. simpl.
  rewrite lookup_resize_vec.
  destruct (decide (Z.of_nat (Z.to_nat j) < c)); [|lia].
  destruct (rows m !! Z.to_nat i) as [row|]; reflexivity.
Qed.

Lemma cell_empty i j : cell (@empty_Matrix T) i j = None.
Proof. unfold cell. destruct (_ && _); reflexivity. Qed.

Lemma sat_resize v r c st (Q : unit -> store T -> Prop) E :
  (forall st', st' v = resize_Matrix r c (st v) ->
               (forall v', v' <> v -> st' v' = st v') -> Q tt st') ->
  sat (resize v r c) st Q E.
Proof.
  intros HQ. apply HQ; [apply upd_same|].
  intros v' Hv. apply upd_other. exact Hv.
Qed.

Lemma sat_construct v r c st (Q : unit -> store T -> Prop) E :
  (forall st', st' v = resize_Matrix r c empty_Matrix ->
               (forall v', v' <> v -> st' v' = st v') -> Q tt st') ->
  sat (construct v r c) st Q E.
Proof.
  intros HQ. unfold sat, construct, bind, put, resize, get. simpl.
  apply HQ; [rewrite !upd_same; reflexivity|].
  intros v' Hv. rewrite !upd_other by exact Hv. reflexivity.
Qed.

End Resize.

(** ** Loops that fill a matrix *)

Section Fill.

Context {T : Type} `{Scalar T}.

Implicit Types (st : store T) (m : Matrix T).

Lemma row_lengths_shaped r c m1 m2 :
  row_lengths m1 = row_lengths m2 -> shaped r c m2 -> shaped r c m1.
Proof.
  unfold row_lengths, shaped, len. intros Hl [Hr Hc]. split.
  - rewrite <- Hr, <- (length_fmap length (rows m1)), Hl, length_fmap.
    reflexivity.
  - assert (HF : Forall (fun n => Z.of_nat n = c) (length <$> rows m1)).
    { rewrite Hl. apply Forall_fmap. exact Hc. }
    apply Forall_fmap in HF. exact HF.
Qed.

Lemma row_lengths_lookup m1 m2 (a : nat) :
  row_lengths m1 = row_lengths m2 ->
  length <$> rows m1 !! a = length <$> rows m2 !! a.
Proof.
  unfold row_lengths. intros Hl. rewrite <- !list_lookup_fmap, Hl. reflexivity.
Qed.

Lemma row_lengths_cell m1 m2 a b :
  row_lengths m1 = row_lengths m2 ->
  is_Some (cell m2 a b) -> is_Some (cell m1 a b).
Proof.
  intros Hl [x Hx].
  destruct (cell_Some m2 a b x Hx) as (Ha & Hb & row & Hrow & Hcell).
  pose proof (row_lengths_lookup m1 m2 (Z.to_nat a) Hl) as Hlen.
  rewrite Hrow in Hlen. simpl in Hlen.
  destruct (rows m1 !! Z.to_nat a) as [row1|] eqn:Hrow1; [|discriminate].
  simpl in Hlen. injection Hlen as Hlen.
  rewrite (cell_lookup m1 a b row1) by assumption.
  apply lookup_lt_is_Some_2. rewrite Hlen. eapply lookup_lt_Some; eauto.
Qed.

Lemma row_lengths_set_cell m i j x :
  row_lengths (set_cell m i j x) = row_lengths m.
Proof.
  unfold row_lengths, set_cell.
  destruct (rows m !! Z.to_nat i) as [row|] eqn:Hrow; [|reflexivity]. simpl.
  rewrite list_fmap_insert, length_insert. apply list_insert_id.
  rewrite list_lookup_fmap, Hrow. reflexivity.
Qed.

Lemma row_lengths_length m1 m2 :
  row_lengths m1 = row_lengths m2 -> len (rows m1) = len (rows m2).
Proof.
  unfold row_lengths, len. intros Hl.
  rewrite <- (length_fmap length (rows m1)), Hl, length_fmap. reflexivity.
Qed.

(** Rows of equal length with the same cells are equal. *)
Lemma row_ext m1 m2 (a : nat) r1 r2 :
  rows m1 !! a = Some r1 -> rows m2 !! a = Some r2 ->
  length r1 = length r2 ->
  (forall b, 0 <= b < len r1 -> cell m1 (Z.of_nat a) b = cell m2 (Z.of_nat a) b) ->
  r1 = r2.
Proof.
  intros Hr1 Hr2 Hlen Hcells. apply list_eq. intros b.
  destruct (decide (b < length r1)%nat) as [Hb|Hb].
  - specialize (Hcells (Z.of_nat b)).
    rewrite (cell_lookup m1 _ _ r1), (cell_lookup m2 _ _ r2) in Hcells
      by (rewrite ?Nat2Z.id; (lia || assumption)).
    rewrite Nat2Z.id in Hcells. apply Hcells. unfold len. lia.
  - rewrite !lookup_ge_None_2 by lia. reflexivity.
Qed.

Lemma same_frame_refl out st : same_frame out st st.
Proof.
  unfold same_frame, agree_except.
  split; [auto|]. split; [auto|]. split; auto.
Qed.

Lemma same_frame_trans out st1 st2 st3 :
  same_frame out st1 st2 -> same_frame out st2 st3 -> same_frame out st1 st3.
Proof.
  intros (Ha & Hn & Hc & Hl) (Ha' & Hn' & Hc' & Hl').
  split; [|split; [congruence|]; split; congruence].
  intros v Hv. rewrite Ha, Ha' by exact Hv. reflexivity.
Qed.

Lemma same_frame_cell out st st0 a b :
  same_frame out st st0 ->
  is_Some (cell (st0 out) a b) -> is_Some (cell (st out) a b).
Proof. intros (_ & _ & _ & Hl). apply row_lengths_cell. exact Hl. Qed.

Lemma same_frame_shaped out st st0 r c :
  same_frame out st st0 -> shaped r c (st0 out) -> shaped r c (st out).
Proof. intros (_ & _ & _ & Hl). apply row_lengths_shaped. exact Hl. Qed.

Lemma same_frame_wr out i j x st st' :
  st' out = set_cell (st out) i j x -> agree_except out st' st ->
  same_frame out st' st.
Proof.
  intros Hout Hag. split; [exact Hag|]. rewrite Hout.
  split; [apply set_cell_nrows|]. split; [apply set_cell_ncols|].
  apply row_lengths_set_cell.
Qed.

(** [for (j = 0; j < c; j++) out[pi j][pj j] = f j], where the body [b j]
    is known to amount to that write. *)
Lemma sat_fill_row (out : var) (c : Z) (b : Z -> M T unit) (f : Z -> T)
    (pi pj : Z -> Z) st0 :
  (forall j j', 0 <= j < c -> 0 <= j' < c ->
     pi j = pi j' -> pj j = pj j' -> j = j') ->
  (forall j, 0 <= j < c -> is_Some (cell (st0 out) (pi j) (pj j))) ->
  (forall j st, 0 <= j < c -> agree_except out st st0 ->
     b j st = wr out (pi j) (pj j) (f j) st) ->
  sat (for_loop 0 c b) st0
    (fun _ st' =>
       same_frame out st' st0 /\
       (forall j, 0 <= j < c -> cell (st' out) (pi j) (pj j) = Some (f j)) /\
       (forall a a', (forall j, 0 <= j < c -> ~ (pi j = a /\ pj j = a')) ->
          cell (st' out) a a' = cell (st0 out) a a'))
    no_err.
Proof.
  intros Hinj Hin Hb.
  apply (sat_for_loop_post (fun k st' =>
       same_frame out st' st0 /\
       (forall j, 0 <= j < k -> cell (st' out) (pi j) (pj j) = Some (f j)) /\
       (forall a a', (forall j, 0 <= j < k -> ~ (pi j = a /\ pj j = a')) ->
          cell (st' out) a a' = cell (st0 out) a a'))).
  - intros k st Hk (Hfr & Hdone & Hrest).
    assert (Hck : is_Some (cell (st out) (pi k) (pj k))).
    { eapply same_frame_cell; [exact Hfr|]. apply Hin. lia. }
    unfold sat. rewrite Hb by (lia || apply Hfr). rewrite wr_eq.
    destruct Hck as [y Hy]. rewrite Hy.
    assert (Hfr' : same_frame out (upd out (set_cell (st out) (pi k) (pj k) (f k)) st) st).
    { apply (same_frame_wr out (pi k) (pj k) (f k)); [apply upd_same|].
      intros v Hv. apply upd_other. exact Hv. }
    split; [eapply same_frame_trans; eauto|].
    rewrite upd_same. split.
    + intros j Hj. rewrite cell_set_cell by eauto.
      destruct (decide (pi j = pi k /\ pj j = pj k)) as [[Hi' Hj']|Hne].
      * rewrite (Hinj j k) by (lia || assumption). reflexivity.
      * apply Hdone. destruct (decide (j = k)) as [->|]; [tauto|lia].
    + intros a a' Hout. rewrite cell_set_cell by eauto.
      destruct (decide (a = pi k /\ a' = pj k)) as [[-> ->]|Hne].
      * exfalso. apply (Hout k); [lia|tauto].
      * apply Hrest. intros j Hj. apply Hout. lia.
  - split; [apply same_frame_refl|]. split; [intros; lia|auto].
  - intros st' (Hfr & Hdone & Hrest). split; [exact Hfr|]. split.
    + intros j Hj. apply Hdone. lia.
    + intros a a' Hout. apply Hrest. intros j Hj. apply Hout. lia.
Qed.

(** [for (i = 0; i < r; i++) for (j = 0; j < c; j++)
      out[pi i j][pj i j] = f i j]. *)
Lemma sat_fill (out : var) (r c : Z) (b : Z -> Z -> M T unit)
    (f : Z -> Z -> T) (pi pj : Z -> Z -> Z) st0 :
  (forall i j i' j', 0 <= i < r -> 0 <= j < c -> 0 <= i' < r -> 0 <= j' < c ->
     pi i j = pi i' j' -> pj i j = pj i' j' -> i = i' /\ j = j') ->
  (forall i j, 0 <= i < r -> 0 <= j < c ->
     is_Some (cell (st0 out) (pi i j) (pj i j))) ->
  (forall i j st, 0 <= i < r -> 0 <= j < c -> agree_except out st st0 ->
     b i j st = wr out (pi i j) (pj i j) (f i j) st) ->
  sat (for_loop 0 r (fun i => for_loop 0 c (b i))) st0
    (fun _ st' =>
       same_frame out st' st0 /\
       (forall i j, 0 <= i < r -> 0 <= j < c ->
          cell (st' out) (pi i j) (pj i j) = Some (f i j)))
    no_err.
Proof.
  intros Hinj Hin Hb.
  apply (sat_for_loop_post (fun k st' =>
       same_frame out st' st0 /\
       (forall i j, 0 <= i < k -> 0 <= j < c ->
          cell (st' out) (pi i j) (pj i j) = Some (f i j)))).
  - intros k st Hk (Hfr & Hdone).
    eapply sat_mono;
      [apply (sat_fill_row out c (b k) (f k) (pi k) (pj k) st)| |auto].
    + intros j j' Hj Hj' Hi1 Hj1.
      apply (Hinj k j k j'); (lia || assumption).
    + intros j Hj. eapply same_frame_cell; [exact Hfr|]. apply Hin; lia.
    + intros j st' Hj Hag. apply Hb; [lia|lia|].
      intros v Hv. rewrite Hag by exact Hv. apply Hfr. exact Hv.
    + intros _ st' (Hfr' & Hrow & Hrest).
      split; [eapply same_frame_trans; eauto|].
      intros i j Hi Hj. destruct (decide (i = k)) as [->|Hne].
      * apply Hrow. exact Hj.
      * rewrite Hrest; [apply Hdone; lia|].
        intros j' Hj' [Hi1 Hj1].
        destruct (Hinj k j' i j) as [? _]; (lia || assumption).
  - split; [apply same_frame_refl|]. intros; lia.
  - intros st' (Hfr & Hdone). split; [exact Hfr|].
    intros i j Hi Hj. apply Hdone; lia.
Qed.

End Fill.

(** ** Assignment and copy construction *)

Section Assign.

Context {T : Type} `{Scalar T}.

Implicit Types (st : store T) (m : Matrix T).

Lemma wf_shaped m : wf m -> shaped (nrows_ m) (ncols_ m) m.
Proof. intros (_ & _ & Hr & Hc). split; assumption. Qed.

Lemma index_ok {A} (l : list A) i x :
  0 <= i -> l !! Z.to_nat i = Some x -> index l i = Ok x.
Proof.
  intros Hi Hx. unfold index. destruct (Z.leb_spec 0 i); [|lia].
  rewrite Hx. reflexivity.
Qed.

Lemma at_cell m i j x : cell m i j = Some x -> at_ m i j = x.
Proof. intros Hx. unfold at_. rewrite Hx. reflexivity. Qed.

Lemma shaped_at r c m i j :
  shaped r c m -> 0 <= i < r -> 0 <= j < c -> cell m i j = Some (at_ m i j).
Proof.
  intros Hs Hi Hj. destruct (shaped_cell r c m i j Hs Hi Hj) as [x Hx].
  rewrite (at_cell m i j x Hx). exact Hx.
Qed.

Lemma Matrix_eq m1 m2 :
  rows m1 = rows m2 -> nrows_ m1 = nrows_ m2 -> ncols_ m1 = ncols_ m2 ->
  m1 = m2.
Proof. destruct m1, m2. simpl. intros -> -> ->. reflexivity. Qed.

(** [dst = src] makes [dst] a copy of a well-formed [src] and touches nothing
    else. *)
Lemma sat_assign dst src st (Q : unit -> store T -> Prop) E :
  dst <> src -> wf (st src) ->
  (forall st', st' dst = st src -> agree_except dst st' st -> Q tt st') ->
  sat (assign dst src) st Q E.
Proof.
  intros Hne Hwf HQ.
  pose proof (wf_shaped _ Hwf) as Hsh. destruct Hwf as (Hr0 & Hc0 & Hlen0 & _).
  set (A := st src) in *. set (r := nrows_ A) in *. set (c := ncols_ A) in *.
  unfold assign. destruct (decide (dst = src)) as [|_]; [contradiction|].
  apply sat_bind, sat_get. apply sat_bind, sat_get. apply sat_bind, sat_put.
  fold A r c.
  apply (sat_for_loop_post (fun i st' =>
    agree_except dst st' st /\ nrows_ (st' dst) = r /\ ncols_ (st' dst) = c /\
    len (rows (st' dst)) = r /\
    forall i' : nat, Z.of_nat i' < i -> rows (st' dst) !! i' = rows A !! i')).
  - intros i st1 Hi (Hag & Hn & Hc & Hlen & Hdone).
    assert (Hsrc : st1 src = A) by (apply Hag; congruence).
    destruct (lookup_lt_is_Some_2 (rows (st1 dst)) (Z.to_nat i)) as [row Hrow].
    { unfold len in Hlen. lia. }
    apply sat_bind. unfold resize_row.
    apply sat_bind, sat_get. apply sat_bind, sat_lift.
    rewrite (index_ok _ i row) by (lia || assumption).
    apply sat_put.
    set (st2 := upd dst _ st1).
    assert (Hst2 : st2 dst = mkMatrix (<[Z.to_nat i := resize_vec c s_zero row]>
                                          (rows (st1 dst)))
                                      (nrows_ (st1 dst)) (ncols_ (st1 dst)))
      by apply upd_same.
    assert (Hag2 : agree_except dst st2 st1)
      by (intros v Hv; apply upd_other; exact Hv).
    clearbody st2.
    assert (Hrow2 : rows (st2 dst) !! Z.to_nat i = Some (resize_vec c s_zero row)).
    { rewrite Hst2. simpl. apply list_lookup_insert_eq.
      eapply lookup_lt_Some; eauto. }
    eapply sat_mono;
      [apply (sat_fill_row dst c _ (fun j => at_ A i j) (fun _ => i) (fun j => j) st2)
      | |intros e st' []].
    + intros j j' _ _ _ Hjj. exact Hjj.
    + intros j Hj. rewrite (cell_lookup _ i j _) by (lia || eassumption).
      apply lookup_lt_is_Some_2.
      pose proof (length_resize_vec c s_zero row ltac:(lia)) as Hl.
      unfold len in Hl. lia.
    + intros j st3 Hj Hag3. unfold bind. rewrite rd_eq.
      rewrite (Hag3 src), (Hag2 src), Hsrc by congruence.
      rewrite (shaped_at r c A i j) by (lia || assumption). reflexivity.
    + intros [] st3 ((Hag3 & Hn3 & Hc3 & Hl3) & Hcells & Hrest).
      split; [|split; [|split; [|split]]].
      * intros v Hv. rewrite Hag3, Hag2 by exact Hv. apply Hag. exact Hv.
      * rewrite Hn3, Hst2. exact Hn.
      * rewrite Hc3, Hst2. exact Hc.
      * rewrite (row_lengths_length _ _ Hl3), Hst2. simpl.
        unfold len in *. rewrite length_insert. exact Hlen.
      * intros i' Hi'.
        destruct (shaped_row r c A (Z.of_nat i') Hsh) as (rA & HrA & HlA); [lia|].
        rewrite Nat2Z.id in HrA. rewrite HrA.
        pose proof (row_lengths_lookup _ _ i' Hl3) as Hl3'.
        destruct (decide (Z.of_nat i' = i)) as [Heq|Hneq].
        -- subst i. rewrite Nat2Z.id in Hrow2. rewrite Hrow2 in Hl3'.
           destruct (rows (st3 dst) !! i') as [r3|] eqn:Hr3; [|discriminate].
           simpl in Hl3'. injection Hl3' as Hl3'.
           pose proof (length_resize_vec c s_zero row ltac:(lia)) as Hlr.
           unfold len in *.
           f_equal. apply (row_ext (st3 dst) A i' r3 rA); try assumption; [lia|].
           intros b Hb. unfold len in Hb. rewrite Hcells by lia.
           symmetry. apply (shaped_at r c); (assumption || lia).
        -- assert (H2 : rows (st2 dst) !! i' = Some rA).
           { rewrite Hst2. simpl. rewrite list_lookup_insert_ne by lia.
             rewrite Hdone by lia. exact HrA. }
           rewrite H2 in Hl3'.
           destruct (rows (st3 dst) !! i') as [r3|] eqn:Hr3; [|discriminate].
           simpl in Hl3'. injection Hl3' as Hl3'.
           f_equal. apply (row_ext (st3 dst) (st2 dst) i' r3 rA); try assumption.
           intros b Hb. apply Hrest. intros j _ [Hij _]. lia.
  - split; [intros v Hv; apply upd_other; exact Hv|].
    rewrite upd_same. simpl. split; [reflexivity|]. split; [reflexivity|].
    split; [apply length_resize_vec; lia|]. intros i' Hi'. lia.
  - intros st' (Hag & Hn & Hc & Hlen & Hdone). apply HQ; [|exact Hag].
    apply Matrix_eq; [|exact Hn|exact Hc].
    apply list_eq. intros i'. destruct (decide (Z.of_nat i' < r)) as [Hi'|Hi'].
    + apply Hdone. lia.
    + unfold len in *. rewrite !lookup_ge_None_2 by lia. reflexivity.
Qed.

Lemma sat_copy_construct v orig st (Q : unit -> store T -> Prop) E :
  v <> orig -> wf (st orig) ->
  (forall st', st' v = st orig -> agree_except v st' st -> Q tt st') ->
  sat (copy_construct v orig) st Q E.
Proof.
  intros Hne Hwf HQ. unfold copy_construct. apply sat_bind, sat_put.
  apply sat_assign; [exact Hne|rewrite upd_other by congruence; exact Hwf|].
  intros st' Hv Hag. rewrite upd_other in Hv by congruence.
  apply HQ; [exact Hv|].
  intros v' Hv'. rewrite Hag by exact Hv'. apply upd_other. exact Hv'.
Qed.

End Assign.

(** ** [inverse]: the set-up *)

Section InverseInit.

Context {T : Type} `{Scalar T}.

Implicit Types (st : store T) (m : Matrix T).

Lemma sat_err {A} (m : M T A) st e0 :
  sat m st (fun _ _ => False) (fun e _ => e = e0) -> fst (m st) = Err e0.
Proof.
  unfold sat. destruct (m st) as [[a|e] st']; simpl; [easy|congruence].
Qed.

(** On a well-formed square matrix the set-up of [inverse] passes the shape
    check, makes [mat] a copy of [*this] and [mat_inv] the identity. *)
Lemma sat_inverse_init st n (Q : Z -> store T -> Prop) E :
  wf (st this) -> nrows_ (st this) = n -> ncols_ (st this) = n ->
  (forall st1,
     st1 mat = st this -> shaped n n (st1 mat_inv) ->
     identity_cells n (st1 mat_inv) ->
     (forall v, v <> mat -> v <> mat_inv -> st1 v = st v) ->
     Q n st1) ->
  sat inverse_init st Q E.
Proof.
  intros Hwf Hr Hc HQ. assert (Hn : 0 <= n) by (destruct Hwf; lia).
  unfold inverse_init. apply sat_bind, sat_get.
  rewrite Hr, Hc, Z.eqb_refl. simpl.
  apply sat_bind, sat_construct. intros st1 Hinv1 Hag1.
  apply sat_bind, sat_copy_construct; [discriminate| |].
  { rewrite Hag1 by discriminate. exact Hwf. }
  intros st2 Hmat2 Hag2. rewrite Hag1 in Hmat2 by discriminate.
  assert (Hinv2 : st2 mat_inv = resize_Matrix n n empty_Matrix).
  { rewrite Hag2 by discriminate. exact Hinv1. }
  apply sat_bind.
  eapply sat_mono;
    [apply (sat_fill_row mat_inv n _ (fun _ => s_one) (fun j => j) (fun j => j) st2)
    | |intros e st' []].
  - intros j j' _ _ Hjj _. exact Hjj.
  - intros j Hj. rewrite Hinv2, cell_resize by lia. eauto.
  - intros j st3 _ _. reflexivity.
  - intros [] st3 (Hfr & Hdiag & Hrest). apply sat_ret, HQ.
    + destruct Hfr as (Hag3 & _). rewrite Hag3 by discriminate. exact Hmat2.
    + eapply same_frame_shaped; [exact Hfr|]. rewrite Hinv2.
      apply shaped_resize; lia.
    + intros i j Hi Hj. destruct (decide (i = j)) as [->|Hij].
      * apply Hdiag. exact Hj.
      * rewrite Hrest by (intros j' _ [-> ->]; congruence).
        rewrite Hinv2, cell_resize, cell_empty by lia. reflexivity.
    + intros v Hv1 Hv2. destruct Hfr as (Hag3 & _).
      rewrite Hag3, Hag2, Hag1 by assumption. reflexivity.
Qed.

(** A receiver that is not square is rejected, before anything is built. *)
Lemma inverse_init_not_square st :
  nrows_ (st this) <> ncols_ (st this) ->
  inverse_init st = (Err ShapeMismatch, st).
Proof.
  intros Hne. unfold inverse_init, bind, get.
  destruct (Z.eqb_spec (nrows_ (st this)) (ncols_ (st this))); [contradiction|].
  reflexivity.
Qed.

End InverseInit.

(** ** [transpose] and the product *)

Section TransposeMul.

Context {T : Type} `{Scalar T}.

Implicit Types (st : store T) (m : Matrix T).

Lemma shaped_wf m :
  0 <= nrows_ m < SIZE_MAX1 -> 0 <= ncols_ m < SIZE_MAX1 ->
  shaped (nrows_ m) (ncols_ m) m -> wf m.
Proof. intros Hr Hc [Hl Hf]. repeat split; (lia || assumption). Qed.

Lemma sat_transpose st :
  wf (st this) ->
  sat transpose st
    (fun B st' =>
       nrows_ B = ncols_ (st this) /\ ncols_ B = nrows_ (st this) /\ wf B /\
       (forall i j, 0 <= i < nrows_ (st this) -> 0 <= j < ncols_ (st this) ->
          cell B j i = Some (at_ (st this) i j)) /\
       agree_except mat_t st' st)
    no_err.
Proof.
  intros Hwf. pose proof (wf_shaped _ Hwf) as Hsh.
  destruct Hwf as (Hr & Hc & _).
  set (A := st this) in *. set (r := nrows_ A) in *. set (c := ncols_ A) in *.
  unfold transpose. apply sat_bind, sat_get. fold A r c.
  apply sat_bind, sat_construct. intros st1 Ht1 Hag1.
  apply sat_bind.
  eapply sat_mono;
    [apply (sat_fill mat_t r c _ (fun i j => at_ A i j)
              (fun i j => j) (fun i j => i) st1)| |intros e st' []].
  - intros i j i' j' _ _ _ _ Hj Hi. auto.
  - intros i j Hi Hj. rewrite Ht1, cell_resize by lia. eauto.
  - intros i j st2 Hi Hj Hag2. unfold bind. rewrite rd_eq.
    rewrite (Hag2 this), (Hag1 this) by discriminate. fold A.
    rewrite (shaped_at r c A i j) by assumption. reflexivity.
  - intros [] st2 ((Hag2 & Hn2 & Hc2 & Hl2) & Hcells). apply sat_get.
    rewrite Ht1 in Hn2, Hc2. simpl in Hn2, Hc2.
    split; [exact Hn2|]. split; [exact Hc2|]. split; [|split].
    + apply shaped_wf; rewrite ?Hn2, ?Hc2; try lia.
      eapply row_lengths_shaped; [exact Hl2|]. rewrite Ht1.
      apply shaped_resize; lia.
    + intros i j Hi Hj. apply Hcells; assumption.
    + intros v Hv. rewrite Hag2, Hag1 by exact Hv. reflexivity.
Qed.

(** The accumulation of one cell of the product. *)
Lemma mul_cell_sum a b i j st :
  st lhs = a -> st rhs = b -> wf a -> wf b -> ncols_ a = nrows_ b ->
  0 <= i < nrows_ a -> 0 <= j < ncols_ b ->
  for_fold 0 (ncols_ a) (fun k sum =>
    let* x := rd lhs i k in
    let* y := rd rhs k j in
    ret (s_add sum (s_mul x y))) s_zero st
  = (Ok (dot a b i j (ncols_ a)), st).
Proof.
  intros Ha Hb Hwfa Hwfb Hmid Hi Hj.
  pose proof (wf_shaped _ Hwfa) as Hsa. pose proof (wf_shaped _ Hwfb) as Hsb.
  destruct Hwfa as (_ & Hca & _).
  match goal with |- ?m st = _ =>
    destruct (sat_ok m st (fun x st' => x = dot a b i j (ncols_ a) /\ st' = st))
      as (x & st' & Hrun & -> & ->); [|exact Hrun]
  end.
  eapply sat_mono;
    [apply (sat_for_fold (fun k acc st' =>
       acc = dot a b i j k /\ st' = st) no_err)| |auto].
  - intros k acc st' Hk [-> ->].
    apply sat_bind. eapply sat_rd;
      [rewrite Ha; apply (shaped_at (nrows_ a) (ncols_ a) a); (assumption || lia)|].
    apply sat_bind. eapply sat_rd;
      [rewrite Hb; apply (shaped_at (nrows_ b) (ncols_ b) b); (assumption || lia)|].
    apply sat_ret. split; [|reflexivity].
    unfold dot. replace (Z.to_nat (k + 1)) with (S (Z.to_nat k)) by lia.
    simpl. rewrite Z2Nat.id by lia. reflexivity.
  - split; reflexivity.
  - intros x st' [-> ->]. replace (Z.max 0 (ncols_ a)) with (ncols_ a) by lia.
    split; reflexivity.
Qed.

Lemma sat_operator_mul st :
  wf (st lhs) -> wf (st rhs) -> ncols_ (st lhs) = nrows_ (st rhs) ->
  sat operator_mul st
    (fun C st' =>
       nrows_ C = nrows_ (st lhs) /\ ncols_ C = ncols_ (st rhs) /\ wf C /\
       (forall i j, 0 <= i < nrows_ (st lhs) -> 0 <= j < ncols_ (st rhs) ->
          cell C i j = Some (dot (st lhs) (st rhs) i j (ncols_ (st lhs)))) /\
       agree_except mat_mul st' st)
    no_err.
Proof.
  intros Hwfa Hwfb Hmid.
  set (a := st lhs) in *. set (b := st rhs) in *.
  assert (Hr : 0 <= nrows_ a < SIZE_MAX1) by (destruct Hwfa; lia).
  assert (Hc : 0 <= ncols_ b < SIZE_MAX1) by (destruct Hwfb; lia).
  unfold operator_mul. apply sat_bind, sat_construct. intros st1 _ Hag1.
  apply sat_bind, sat_get. apply sat_bind, sat_get.
  rewrite !Hag1 by discriminate. fold a b.
  rewrite Hmid, Z.eqb_refl. simpl. rewrite <- Hmid.
  apply sat_bind, sat_resize. intros st2 Ht2 Hag2.
  apply sat_bind.
  eapply sat_mono;
    [apply (sat_fill mat_mul (nrows_ a) (ncols_ b) _
              (fun i j => dot a b i j (ncols_ a))
              (fun i j => i) (fun i j => j) st2)| |intros e st' []].
  - intros i j i' j' _ _ _ _ Hi Hj. auto.
  - intros i j Hi Hj. rewrite Ht2, cell_resize by lia. eauto.
  - intros i j st3 Hi Hj Hag3. unfold bind at 1.
    rewrite (mul_cell_sum a b i j st3); try assumption; [reflexivity| |].
    + rewrite Hag3, Hag2, Hag1 by discriminate. reflexivity.
    + rewrite Hag3, Hag2, Hag1 by discriminate. reflexivity.
  - intros [] st3 ((Hag3 & Hn3 & Hc3 & Hl3) & Hcells). apply sat_get.
    rewrite Ht2 in Hn3, Hc3. simpl in Hn3, Hc3.
    split; [exact Hn3|]. split; [exact Hc3|]. split; [|split].
    + apply shaped_wf; rewrite ?Hn3, ?Hc3; try lia.
      eapply row_lengths_shaped; [exact Hl3|]. rewrite Ht2.
      apply shaped_resize; lia.
    + intros i j Hi Hj. apply Hcells; assumption.
    + intros v Hv. rewrite Hag3, Hag2, Hag1 by exact Hv. reflexivity.
Qed.

End TransposeMul.

(** ** What a body leaves alone, and how it can fail *)

Section Keeps.

Context {T : Type} `{Scalar T}.

Variable vs : var -> Prop.
Variable P : error -> Prop.
Hypothesis P_oob : P OutOfBounds.

Lemma keeps_ret {A} (a : A) : keeps (T := T) vs P (ret a).
Proof. intros st. apply sat_ret. auto. Qed.

Lemma keeps_throw {A} e : P e -> keeps (T := T) vs P (throw (A := A) e).
Proof. intros He st. apply sat_throw. auto. Qed.

Lemma keeps_get v : keeps (T := T) vs P (get v).
Proof. intros st. apply sat_get. auto. Qed.

Lemma keeps_put v (m : Matrix T) : ~ vs v -> keeps (T := T) vs P (put v m).
Proof.
  intros Hv st. apply sat_put. intros v' Hv'. apply upd_other. congruence.
Qed.

Lemma index_err {A} (l : list A) i e : index l i = Err e -> e = OutOfBounds.
Proof.
  unfold index. destruct (0 <=? i); [|congruence].
  destruct (l !! Z.to_nat i); congruence.
Qed.

Lemma keeps_index {A} (l : list A) i :
  keeps (T := T) vs P (lift (index l i)).
Proof.
  intros st. apply sat_lift. destruct (index l i) as [x|e] eqn:Hi; [auto|].
  rewrite (index_err _ _ _ Hi). auto.
Qed.

Lemma keeps_bind {A B} (m : M T A) (f : A -> M T B) :
  keeps (T := T) vs P m -> (forall a, keeps (T := T) vs P (f a)) -> keeps (T := T) vs P (bind m f).
Proof.
  intros Hm Hf st. apply sat_bind.
  eapply sat_mono; [apply Hm| |auto].
  intros a st' Hst'. simpl.
  eapply sat_mono; [apply Hf| |].
  - intros b st'' Hst'' v Hv. rewrite Hst'', Hst' by exact Hv. reflexivity.
  - intros e st'' [He Hst'']. split; [exact He|].
    intros v Hv. rewrite Hst'', Hst' by exact Hv. reflexivity.
Qed.

Lemma keeps_for_ctl {A R} lo hi (body : Z -> A -> M T (ctl A R)) a :
  (forall k a', keeps (T := T) vs P (body k a')) -> keeps (T := T) vs P (for_ctl lo hi body a).
Proof.
  intros Hbody st.
  eapply sat_mono;
    [apply (sat_for_ctl (fun _ _ st' => forall v, vs v -> st' v = st v)
                        (fun _ st' => forall v, vs v -> st' v = st v)
                        (fun e st' => P e /\ forall v, vs v -> st' v = st v))
    | |auto].
  - intros k a' st' _ Hst'.
    eapply sat_mono; [apply Hbody| |].
    + intros [a''|r] st'' Hst'' v Hv;
        rewrite Hst'', Hst' by exact Hv; reflexivity.
    + intros e st'' [He Hst'']. split; [exact He|].
      intros v Hv. rewrite Hst'', Hst' by exact Hv. reflexivity.
  - auto.
  - intros [a'|r] st' Hst'; exact Hst'.
Qed.

Lemma keeps_for_fold {A} lo hi (body : Z -> A -> M T A) a :
  (forall k a', keeps (T := T) vs P (body k a')) -> keeps (T := T) vs P (for_fold lo hi body a).
Proof.
  intros Hbody. unfold for_fold. apply keeps_bind.
  - apply keeps_for_ctl. intros k a'. apply keeps_bind; [apply Hbody|].
    intros a''. apply keeps_ret.
  - intros [a'|[]]. apply keeps_ret.
Qed.

Lemma keeps_for_loop lo hi (body : Z -> M T unit) :
  (forall k, keeps (T := T) vs P (body k)) -> keeps (T := T) vs P (for_loop lo hi body).
Proof. intros Hbody. apply keeps_for_fold. intros k _. apply Hbody. Qed.

Lemma keeps_for_down hi lo (body : Z -> M T unit) :
  (forall k, keeps (T := T) vs P (body k)) -> keeps (T := T) vs P (for_down hi lo body).
Proof. intros Hbody. apply keeps_for_loop. intros k. apply Hbody. Qed.

Lemma keeps_row_at v i : keeps (T := T) vs P (row_at v i).
Proof.
  unfold row_at. apply keeps_bind; [apply keeps_get|].
  intros m. apply keeps_index.
Qed.

Lemma keeps_rd v i j : keeps (T := T) vs P (rd v i j).
Proof.
  unfold rd. apply keeps_bind; [apply keeps_row_at|].
  intros r. apply keeps_index.
Qed.

Lemma keeps_wr v i j x : ~ vs v -> keeps (T := T) vs P (wr v i j x).
Proof.
  intros Hv. unfold wr. apply keeps_bind; [apply keeps_get|]. intros m.
  apply keeps_bind; [apply keeps_index|]. intros r.
  apply keeps_bind; [apply keeps_index|]. intros _.
  apply keeps_put. exact Hv.
Qed.

Lemma keeps_resize v r c : ~ vs v -> keeps (T := T) vs P (resize v r c).
Proof.
  intros Hv. unfold resize. apply keeps_bind; [apply keeps_get|].
  intros m. apply keeps_put. exact Hv.
Qed.

Lemma keeps_construct v r c : ~ vs v -> keeps (T := T) vs P (construct v r c).
Proof.
  intros Hv. unfold construct. apply keeps_bind; [apply keeps_put; exact Hv|].
  intros _. apply keeps_resize. exact Hv.
Qed.

Lemma keeps_resize_row v i n : ~ vs v -> keeps (T := T) vs P (resize_row v i n).
Proof.
  intros Hv. unfold resize_row. apply keeps_bind; [apply keeps_get|].
  intros m. apply keeps_bind; [apply keeps_index|].
  intros r. apply keeps_put. exact Hv.
Qed.

Lemma keeps_assign dst src : ~ vs dst -> keeps (T := T) vs P (assign dst src).
Proof.
  intros Hv. unfold assign. destruct (decide (dst = src)); [apply keeps_ret|].
  apply keeps_bind; [apply keeps_get|]. intros s.
  apply keeps_bind; [apply keeps_get|]. intros d.
  apply keeps_bind; [apply keeps_put; exact Hv|]. intros _.
  apply keeps_for_loop. intros i.
  apply keeps_bind; [apply keeps_resize_row; exact Hv|]. intros _.
  apply keeps_for_loop. intros j.
  apply keeps_bind; [apply keeps_rd|]. intros x. apply keeps_wr. exact Hv.
Qed.

Lemma keeps_copy_construct v orig :
  ~ vs v -> keeps (T := T) vs P (copy_construct v orig).
Proof.
  intros Hv. unfold copy_construct.
  apply keeps_bind; [apply keeps_put; exact Hv|].
  intros _. apply keeps_assign. exact Hv.
Qed.

End Keeps.

(** Steps through a body with the [keeps] lemmas; an object that is written
    must not be among the ones kept. *)
Ltac keeps_side :=
  solve
    [ assumption
    | let Hv := fresh "Hv" in
      intros Hv; simpl in Hv;
      first
        [ contradiction
        | discriminate
        | match goal with
          | L : forall v, _ -> _ \/ _ |- _ => apply L in Hv
          end;
          intuition discriminate
        | intuition discriminate ] ].

Ltac keeps_step :=
  lazymatch goal with
  | |- keeps _ _ (ret _) => apply keeps_ret
  | |- keeps _ _ (throw _) => apply keeps_throw; assumption
  | |- keeps _ _ (get _) => apply keeps_get
  | |- keeps _ _ (rd _ _ _) => apply keeps_rd; assumption
  | |- keeps _ _ (row_at _ _) => apply keeps_row_at; assumption
  | |- keeps _ _ (wr _ _ _ _) => apply keeps_wr; [assumption|keeps_side]
  | |- keeps _ _ (put _ _) => apply keeps_put; keeps_side
  | |- keeps _ _ (resize _ _ _) => apply keeps_resize; keeps_side
  | |- keeps _ _ (construct _ _ _) => apply keeps_construct; keeps_side
  | |- keeps _ _ (copy_construct _ _) =>
      apply keeps_copy_construct; [assumption|keeps_side]
  | |- keeps _ _ (for_loop _ _ _) => apply keeps_for_loop; intros ?
  | |- keeps _ _ (for_down _ _ _) => apply keeps_for_down; intros ?
  | |- keeps _ _ (for_fold _ _ _ _) => apply keeps_for_fold; intros ? ?
  | |- keeps _ _ (for_ctl _ _ _ _) => apply keeps_for_ctl; intros ? ?
  | |- keeps _ _ (bind _ _) => apply keeps_bind; [|intros ?]
  | |- keeps _ _ (if ?b then _ else _) => destruct b
  | |- keeps _ _ (match ?r with Next _ => _ | Return _ => _ end) => destruct r
  end.

Section KeepsBodies.

Context {T : Type} `{Scalar T}.

Variable vs : var -> Prop.
Variable P : error -> Prop.
Hypothesis P_oob : P OutOfBounds.

(** The operands of the functions: everything else in the store is a local
    of some body. *)
Hypothesis operands : forall v, vs v -> v = this \/ v = lhs \/ v = rhs.

Lemma keeps_inverse_forward n :
  P SingularMatrix -> keeps (T := T) vs P (inverse_forward n).
Proof.
  intros HP. unfold inverse_forward, forward_step. repeat keeps_step.
Qed.

Lemma keeps_inverse_normalize n :
  P SingularMatrix -> keeps (T := T) vs P (inverse_normalize n).
Proof.
  intros HP. unfold inverse_normalize, normalize_step. repeat keeps_step.
Qed.

Lemma keeps_inverse_backward n : keeps (T := T) vs P (inverse_backward n).
Proof. unfold inverse_backward, backward_step. repeat keeps_step. Qed.

Lemma keeps_inverse_init :
  P ShapeMismatch -> keeps (T := T) vs P inverse_init.
Proof. intros HP. unfold inverse_init. repeat keeps_step. Qed.

Lemma keeps_inverse :
  P ShapeMismatch -> P SingularMatrix -> keeps (T := T) vs P inverse.
Proof.
  intros HP1 HP2. unfold inverse.
  apply keeps_bind; [apply keeps_inverse_init; exact HP1|]. intros n.
  apply keeps_bind; [apply keeps_inverse_forward; exact HP2|]. intros _.
  apply keeps_bind; [apply keeps_inverse_normalize; exact HP2|]. intros _.
  apply keeps_bind; [apply keeps_inverse_backward|]. intros _.
  apply keeps_get.
Qed.

Lemma keeps_transpose : keeps (T := T) vs P transpose.
Proof. unfold transpose. repeat keeps_step. Qed.

Lemma keeps_operator_add :
  P ShapeMismatch -> keeps (T := T) vs P operator_add.
Proof. intros HP. unfold operator_add. repeat keeps_step. Qed.

Lemma keeps_operator_sub :
  P ShapeMismatch -> keeps (T := T) vs P operator_sub.
Proof. intros HP. unfold operator_sub. repeat keeps_step. Qed.

Lemma keeps_operator_mul :
  P ShapeMismatch -> keeps (T := T) vs P operator_mul.
Proof. intros HP. unfold operator_mul. repeat keeps_step. Qed.

Lemma keeps_checkDominant : keeps (T := T) vs P checkDominant.
Proof. unfold checkDominant. repeat keeps_step. Qed.

End KeepsBodies.

(** ** What the result of a body depends on *)

Section Pure.

Context {T : Type} `{Scalar T}.

Implicit Types (vs : var -> Prop) (st : store T).

Lemma pure_ret {A} vs (a : A) : pure_in (T := T) vs vs (ret a).
Proof. intros st st' Hag. split; [reflexivity|]. intros _ _. exact Hag. Qed.

Lemma pure_throw {A} vs vs' e : pure_in (T := T) vs vs' (throw (A := A) e).
Proof. intros st st' Hag. split; [reflexivity|]. discriminate. Qed.

Lemma pure_lift {A} vs (o : outcome A) : pure_in (T := T) vs vs (lift o).
Proof. intros st st' Hag. split; [reflexivity|]. intros _ _. exact Hag. Qed.

Lemma pure_get vs v : vs v -> pure_in (T := T) vs vs (get v).
Proof.
  intros Hv st st' Hag. split; [simpl; f_equal; apply Hag, Hv|].
  intros _ _. exact Hag.
Qed.

Lemma pure_put vs v (m : Matrix T) :
  pure_in vs (fun x => vs x \/ x = v) (put v m).
Proof.
  intros st st' Hag. split; [reflexivity|]. intros _ _ x Hx. simpl.
  unfold upd. destruct (decide (x = v)); [reflexivity|].
  apply Hag. tauto.
Qed.

Lemma pure_bind {A B} vs vs' vs'' (m : M T A) (f : A -> M T B) :
  pure_in vs vs' m -> (forall a, pure_in vs' vs'' (f a)) ->
  pure_in vs vs'' (bind m f).
Proof.
  intros Hm Hf st st' Hag. destruct (Hm st st' Hag) as [Hfst Hsnd].
  unfold bind. destruct (m st) as [[a|e] st1], (m st') as [[a'|e'] st1'];
    simpl in *; try discriminate.
  - injection Hfst as <-. apply Hf. apply (Hsnd a). reflexivity.
  - injection Hfst as <-. split; [reflexivity|]. discriminate.
Qed.

Lemma pure_weaken {A} vs vs' ws ws' (m : M T A) :
  pure_in vs vs' m ->
  (forall v, vs v -> ws v) -> (forall v, ws' v -> vs' v) ->
  pure_in ws ws' m.
Proof.
  intros Hm Hin Hout st st' Hag.
  destruct (Hm st st') as [Hfst Hsnd]; [intros v Hv; apply Hag, Hin, Hv|].
  split; [exact Hfst|]. intros a Ha v Hv. apply (Hsnd a Ha), Hout, Hv.
Qed.

Lemma pure_eq {A} vs vs' (m m' : M T A) :
  (forall st, m st = m' st) -> pure_in vs vs' m' -> pure_in vs vs' m.
Proof. intros Heq Hm st st' Hag. rewrite !Heq. apply Hm, Hag. Qed.

Lemma pure_for_ctl {A R} vs lo hi (body : Z -> A -> M T (ctl A R)) a :
  (forall k a', pure_in vs vs (body k a')) ->
  pure_in vs vs (for_ctl lo hi body a).
Proof.
  intros Hbody. remember (Z.to_nat (hi - lo)) as n eqn:Hn.
  revert lo a Hn. induction n as [|n IH]; intros lo a Hn.
  - apply (pure_eq _ _ _ (ret (Next a))); [|apply pure_ret].
    intros st. rewrite for_ctl_unfold.
    destruct (Z.leb_spec hi lo); [reflexivity|lia].
  - eapply pure_eq.
    + intros st. rewrite for_ctl_unfold.
      destruct (Z.leb_spec hi lo); [lia|]. reflexivity.
    + apply (pure_bind vs vs vs); [apply Hbody|].
      intros [a'|r]; [apply IH; lia|apply pure_ret].
Qed.

Lemma pure_for_fold {A} vs lo hi (body : Z -> A -> M T A) a :
  (forall k a', pure_in vs vs (body k a')) ->
  pure_in vs vs (for_fold lo hi body a).
Proof.
  intros Hbody. unfold for_fold. apply (pure_bind vs vs vs).
  - apply pure_for_ctl. intros k a'.
    apply (pure_bind vs vs vs); [apply Hbody|]. intros a''. apply pure_ret.
  - intros [a'|[]]. apply pure_ret.
Qed.

Lemma pure_for_loop vs lo hi (body : Z -> M T unit) :
  (forall k, pure_in vs vs (body k)) -> pure_in vs vs (for_loop lo hi body).
Proof. intros Hbody. apply pure_for_fold. intros k _. apply Hbody. Qed.

Lemma pure_for_down vs hi lo (body : Z -> M T unit) :
  (forall k, pure_in vs vs (body k)) -> pure_in vs vs (for_down hi lo body).
Proof. intros Hbody. apply pure_for_loop. intros k. apply Hbody. Qed.

(** Writing into an object that is already among [vs]. *)
Lemma pure_put_in vs v (m : Matrix T) : vs v -> pure_in vs vs (put v m).
Proof.
  intros Hv.
  apply (pure_weaken vs (fun x => vs x \/ x = v) vs vs);
    [apply pure_put|auto|cbv beta; tauto].
Qed.

Lemma pure_row_at vs v i : vs v -> pure_in (T := T) vs vs (row_at v i).
Proof.
  intros Hv. unfold row_at. apply (pure_bind vs vs vs); [apply pure_get, Hv|].
  intros m. apply pure_lift.
Qed.

Lemma pure_rd vs v i j : vs v -> pure_in (T := T) vs vs (rd v i j).
Proof.
  intros Hv. unfold rd. apply (pure_bind vs vs vs); [apply pure_row_at, Hv|].
  intros r. apply pure_lift.
Qed.

Lemma pure_wr vs v i j (x : T) : vs v -> pure_in vs vs (wr v i j x).
Proof.
  intros Hv. unfold wr. apply (pure_bind vs vs vs); [apply pure_get, Hv|].
  intros m. apply (pure_bind vs vs vs); [apply pure_lift|]. intros r.
  apply (pure_bind vs vs vs); [apply pure_lift|]. intros _.
  apply pure_put_in, Hv.
Qed.

Lemma pure_resize vs v r c : vs v -> pure_in (T := T) vs vs (resize v r c).
Proof.
  intros Hv. unfold resize. apply (pure_bind vs vs vs); [apply pure_get, Hv|].
  intros m. apply pure_put_in, Hv.
Qed.

Lemma pure_resize_row vs v i n :
  vs v -> pure_in (T := T) vs vs (resize_row v i n).
Proof.
  intros Hv. unfold resize_row.
  apply (pure_bind vs vs vs); [apply pure_get, Hv|]. intros m.
  apply (pure_bind vs vs vs); [apply pure_lift|]. intros r.
  apply pure_put_in, Hv.
Qed.

(** A constructed object joins the objects the rest of the body may use. *)
Lemma pure_construct vs v r c :
  pure_in (T := T) vs (fun x => vs x \/ x = v) (construct v r c).
Proof.
  unfold construct. eapply pure_bind; [apply pure_put|].
  intros _. apply pure_resize. right. reflexivity.
Qed.

Lemma pure_assign vs dst src :
  vs dst -> vs src -> pure_in (T := T) vs vs (assign dst src).
Proof.
  intros Hd Hs. unfold assign. destruct (decide (dst = src)); [apply pure_ret|].
  apply (pure_bind vs vs vs); [apply pure_get, Hs|]. intros s.
  apply (pure_bind vs vs vs); [apply pure_get, Hd|]. intros d.
  apply (pure_bind vs vs vs); [apply pure_put_in, Hd|]. intros _.
  apply pure_for_loop. intros i.
  apply (pure_bind vs vs vs); [apply pure_resize_row, Hd|]. intros _.
  apply pure_for_loop. intros j.
  apply (pure_bind vs vs vs); [apply pure_rd, Hs|]. intros x.
  apply pure_wr, Hd.
Qed.

Lemma pure_copy_construct vs v orig :
  vs orig ->
  pure_in (T := T) vs (fun x => vs x \/ x = v) (copy_construct v orig).
Proof.
  intros Ho. unfold copy_construct. eapply pure_bind; [apply pure_put|].
  intros _. apply pure_assign; [right; reflexivity|left; exact Ho].
Qed.

End Pure.

(** Steps through a body with the [pure_in] lemmas. *)
Ltac pure_side := solve [cbv beta; intuition (auto; discriminate)].

Ltac pure_step :=
  lazymatch goal with
  | |- pure_in _ _ (ret _) => apply pure_ret
  | |- pure_in _ _ (throw _) => apply pure_throw
  | |- pure_in _ _ (get _) => apply pure_get; pure_side
  | |- pure_in _ _ (rd _ _ _) => apply pure_rd; pure_side
  | |- pure_in _ _ (row_at _ _) => apply pure_row_at; pure_side
  | |- pure_in _ _ (wr _ _ _ _) => apply pure_wr; pure_side
  | |- pure_in _ _ (resize _ _ _) => apply pure_resize; pure_side
  | |- pure_in _ _ (construct _ _ _) => apply pure_construct
  | |- pure_in _ _ (copy_construct _ _) => apply pure_copy_construct; pure_side
  | |- pure_in _ _ (for_loop _ _ _) => apply pure_for_loop; intros ?
  | |- pure_in _ _ (for_down _ _ _) => apply pure_for_down; intros ?
  | |- pure_in _ _ (for_fold _ _ _ _) => apply pure_for_fold; intros ? ?
  | |- pure_in _ _ (for_ctl _ _ _ _) => apply pure_for_ctl; intros ? ?
  | |- pure_in _ _ (bind _ _) => eapply pure_bind; [|intros ?]
  | |- pure_in _ _ (if ?b then _ else _) => destruct b
  | |- pure_in _ _ (match ?r with Next _ => _ | Return _ => _ end) =>
      destruct r
  end.

Section PureBodies.

Context {T : Type} `{Scalar T}.

Lemma pure_transpose :
  exists vs', pure_in (T := T) (fun v => v = this) vs' transpose.
Proof. eexists. unfold transpose. repeat pure_step. Qed.

Lemma pure_inverse :
  exists vs', pure_in (T := T) (fun v => v = this) vs' inverse.
Proof.
  eexists. unfold inverse, inverse_init, inverse_forward, forward_step,
    inverse_normalize, normalize_step, inverse_backward, backward_step.
  repeat pure_step.
Qed.

Lemma pure_operator_add :
  exists vs', pure_in (T := T) (fun v => v = lhs \/ v = rhs) vs' operator_add.
Proof. eexists. unfold operator_add. repeat pure_step. Qed.

Lemma pure_operator_sub :
  exists vs', pure_in (T := T) (fun v => v = lhs \/ v = rhs) vs' operator_sub.
Proof. eexists. unfold operator_sub. repeat pure_step. Qed.

Lemma pure_operator_mul :
  exists vs', pure_in (T := T) (fun v => v = lhs \/ v = rhs) vs' operator_mul.
Proof. eexists. unfold operator_mul. repeat pure_step. Qed.

End PureBodies.

(** ** Shape checks *)

Section Shapes.

Context {T : Type} `{Scalar T}.

Implicit Types (st : store T).

Lemma keeps_sat {A} vs P (m : M T A) st (Q : A -> store T -> Prop) E :
  keeps vs P m ->
  (forall a st', Q a st') -> (forall e st', P e -> E e st') ->
  sat m st Q E.
Proof.
  intros Hk HQ HE. eapply sat_mono; [apply Hk| |].
  - intros a st' _. apply HQ.
  - intros e st' [He _]. apply HE, He.
Qed.

Lemma keeps_snd {A} vs P (m : M T A) st v :
  keeps vs P m -> vs v -> snd (m st) v = st v.
Proof.
  intros Hk Hv. specialize (Hk st). unfold sat in Hk.
  destruct (m st) as [[a|e] st']; simpl; [|destruct Hk as [_ Hk]]; auto.
Qed.

Lemma sat_not_err {A} (m : M T A) st e0 :
  sat m st (fun _ _ => True) (fun e _ => e <> e0) -> fst (m st) <> Err e0.
Proof.
  unfold sat. destruct (m st) as [[a|e] st']; simpl; congruence.
Qed.

Lemma shapes_differ_iff (l r : Matrix T) :
  shapes_differ l r = true
  <-> ~ (nrows_ l = nrows_ r /\ ncols_ l = ncols_ r).
Proof.
  unfold shapes_differ.
  destruct (Z.eqb_spec (ncols_ l) (ncols_ r)), (Z.eqb_spec (nrows_ l) (nrows_ r));
    simpl; split; (congruence || tauto).
Qed.

Lemma operator_add_shape st :
  fst (operator_add st) = Err ShapeMismatch
  <-> ~ (nrows_ (st lhs) = nrows_ (st rhs) /\ ncols_ (st lhs) = ncols_ (st rhs)).
Proof.
  rewrite <- shapes_differ_iff.
  destruct (shapes_differ (st lhs) (st rhs)) eqn:Htest.
  - split; [reflexivity|]. intros _.
    apply sat_err. unfold operator_add.
    apply sat_bind, sat_construct. intros st1 _ Hag1.
    apply sat_bind, sat_get. apply sat_bind, sat_get.
    rewrite !Hag1 by discriminate.
    unfold shapes_differ in Htest. rewrite Htest.
    apply sat_throw. reflexivity.
  - split; [|discriminate]. intros Herr. exfalso. revert Herr.
    apply sat_not_err. unfold operator_add.
    apply sat_bind, sat_construct. intros st1 _ Hag1.
    apply sat_bind, sat_get. apply sat_bind, sat_get.
    rewrite !Hag1 by discriminate.
    unfold shapes_differ in Htest. rewrite Htest.
    apply (keeps_sat (fun _ => False) (fun e => e <> ShapeMismatch));
      [|auto|auto].
    assert (Hoob : OutOfBounds <> ShapeMismatch) by discriminate.
    repeat keeps_step.
Qed.

Lemma operator_sub_shape st :
  fst (operator_sub st) = Err ShapeMismatch
  <-> ~ (nrows_ (st lhs) = nrows_ (st rhs) /\ ncols_ (st lhs) = ncols_ (st rhs)).
Proof.
  rewrite <- shapes_differ_iff.
  destruct (shapes_differ (st lhs) (st rhs)) eqn:Htest.
  - split; [reflexivity|]. intros _.
    apply sat_err. unfold operator_sub.
    apply sat_bind, sat_construct. intros st1 _ Hag1.
    apply sat_bind, sat_get. apply sat_bind, sat_get.
    rewrite !Hag1 by discriminate.
    unfold shapes_differ in Htest. rewrite Htest.
    apply sat_throw. reflexivity.
  - split; [|discriminate]. intros Herr. exfalso. revert Herr.
    apply sat_not_err. unfold operator_sub.
    apply sat_bind, sat_construct. intros st1 _ Hag1.
    apply sat_bind, sat_get. apply sat_bind, sat_get.
    rewrite !Hag1 by discriminate.
    unfold shapes_differ in Htest. rewrite Htest.
    apply (keeps_sat (fun _ => False) (fun e => e <> ShapeMismatch));
      [|auto|auto].
    assert (Hoob : OutOfBounds <> ShapeMismatch) by discriminate.
    repeat keeps_step.
Qed.

Lemma operator_mul_shape st :
  fst (operator_mul st) = Err ShapeMismatch
  <-> ncols_ (st lhs) <> nrows_ (st rhs).
Proof.
  destruct (Z.eqb_spec (ncols_ (st lhs)) (nrows_ (st rhs))) as [Heq|Hne].
  - split; [|contradiction]. intros Herr. exfalso. revert Herr.
    apply sat_not_err. unfold operator_mul.
    apply sat_bind, sat_construct. intros st1 _ Hag1.
    apply sat_bind, sat_get. apply sat_bind, sat_get.
    rewrite !Hag1 by discriminate. rewrite Heq, Z.eqb_refl. simpl.
    apply (keeps_sat (fun _ => False) (fun e => e <> ShapeMismatch));
      [|auto|auto].
    assert (Hoob : OutOfBounds <> ShapeMismatch) by discriminate.
    repeat keeps_step.
  - split; [intros _; exact Hne|]. intros _.
    apply sat_err. unfold operator_mul.
    apply sat_bind, sat_construct. intros st1 _ Hag1.
    apply sat_bind, sat_get. apply sat_bind, sat_get.
    rewrite !Hag1 by discriminate.
    destruct (Z.eqb_spec (ncols_ (st lhs)) (nrows_ (st rhs))); [contradiction|].
    apply sat_throw. reflexivity.
Qed.

Lemma inverse_shape st :
  fst (inverse st) = Err ShapeMismatch
  <-> nrows_ (st this) <> ncols_ (st this).
Proof.
  destruct (Z.eqb_spec (nrows_ (st this)) (ncols_ (st this))) as [Heq|Hne].
  - split; [|contradiction]. intros Herr. exfalso. revert Herr.
    apply sat_not_err. unfold inverse, inverse_init.
    apply sat_bind. apply sat_bind, sat_get.
    rewrite Heq, Z.eqb_refl. simpl.
    assert (Hoob : OutOfBounds <> ShapeMismatch) by discriminate.
    assert (Hsing : SingularMatrix <> ShapeMismatch) by discriminate.
    eapply sat_mono;
      [apply (keeps_sat (fun _ => False) (fun e => e <> ShapeMismatch)
                _ _ (fun _ _ => True) (fun e _ => e <> ShapeMismatch));
         [repeat keeps_step|auto|auto]| |auto].
    intros n st1 _.
    apply (keeps_sat (fun _ => False) (fun e => e <> ShapeMismatch));
      [|auto|auto].
    apply keeps_bind; [apply keeps_inverse_forward; auto; intros v []|].
    intros _.
    apply keeps_bind; [apply keeps_inverse_normalize; auto; intros v []|].
    intros _.
    apply keeps_bind; [apply keeps_inverse_backward; auto; intros v []|].
    intros _. apply keeps_get.
  - split; [intros _; exact Hne|]. intros _.
    unfold inverse. unfold bind at 1.
    rewrite inverse_init_not_square by exact Hne. reflexivity.
Qed.

End Shapes.

(** ** The flat buffer *)

Section Flat.

Context {T : Type} `{Scalar T}.

Implicit Types (st : store T) (m : Matrix T).

Lemma to_int_small z : - 2 ^ 31 <= z < 2 ^ 31 -> to_int z = z.
Proof. intros Hz. unfold to_int. rewrite Z.mod_small; lia. Qed.

Lemma len_nil {A} : len (@nil A) = 0.
Proof. reflexivity. Qed.

Lemma len_cons {A} (x : A) l : len (x :: l) = 1 + len l.
Proof. unfold len. simpl. lia. Qed.

Lemma len_app {A} (l k : list A) : len (l ++ k) = len l + len k.
Proof. unfold len. rewrite length_app. lia. Qed.

Lemma len_nonneg {A} (l : list A) : 0 <= len l.
Proof. unfold len. lia. Qed.

Lemma to_nat_len {A} (l : list A) : Z.to_nat (len l) = length l.
Proof. apply Nat2Z.id. Qed.

Lemma len_concat c (rs : list (list T)) :
  Forall (fun r => len r = c) rs -> len (concat rs) = len rs * c.
Proof.
  induction 1 as [|row rs Hrow _ IH]; [reflexivity|].
  simpl. rewrite len_app, len_cons, IH, Hrow. lia.
Qed.

(** Copying the rows out, one after the other, fills the buffer with their
    concatenation, from the current offset on. *)
Lemma for_each_copy_out c (rs : list (list T)) :
  Forall (fun r => len r = c) rs ->
  forall pre junk rest,
    len junk = len rs * c -> len pre + len rs * c < 2 ^ 31 ->
    for_each rs row_copy_out (pre ++ junk ++ rest, len pre)
    = Ok (pre ++ concat rs ++ rest, len pre + len rs * c).
Proof.
  induction 1 as [|row rs Hrow Hrs IH]; intros pre junk rest Hjunk Hsize.
  - simpl. unfold len in Hjunk. simpl in Hjunk.
    assert (junk = []) as -> by (apply nil_length_inv; lia).
    rewrite (len_nil (A := list T)). simpl. do 2 f_equal. lia.
  - rewrite len_cons in *. pose proof (len_nonneg row). pose proof (len_nonneg rs).
    pose proof (len_nonneg pre). pose proof (len_nonneg rest).
    simpl. rewrite !len_app.
    destruct (Z.leb_spec 0 (len pre)); [|lia].
    destruct (Z.leb_spec (len pre + len row) (len pre + (len junk + len rest)));
      [|nia].
    simpl. rewrite !to_nat_len, take_app_length, drop_app_add.
    rewrite to_int_small by nia.
    assert (Hdrop : drop (length row) (junk ++ rest)
                    = drop (length row) junk ++ rest).
    { apply drop_app_le. unfold len in *. nia. }
    rewrite Hdrop, app_assoc, <- len_app.
    rewrite IH.
    + rewrite len_app, <- !app_assoc. do 2 f_equal. lia.
    + unfold len in *. rewrite length_drop. nia.
    + rewrite len_app. nia.
Qed.

Lemma for_each_app {A S} (l1 l2 : list A) (f : A -> S -> outcome S) s :
  for_each (l1 ++ l2) f s
  = match for_each l1 f s with
    | Ok s' => for_each l2 f s'
    | Err e => Err e
    end.
Proof.
  revert s. induction l1 as [|x l1 IH]; intros s; simpl; [reflexivity|].
  destruct (f x s); [apply IH|reflexivity].
Qed.

(** Row-major order: the cell [i][j] is at offset [i * c + j]. *)
Lemma lookup_concat_rows c (rs : list (list T)) :
  Forall (fun r => len r = c) rs ->
  forall i j, 0 <= i -> 0 <= j < c ->
    concat rs !! Z.to_nat (i * c + j)
    = rs !! Z.to_nat i ≫= fun r => r !! Z.to_nat j.
Proof.
  induction 1 as [|row rs Hrow Hrs IH]; intros i j Hi Hj.
  - reflexivity.
  - simpl. unfold len in Hrow. destruct (decide (i = 0)) as [->|Hi0].
    + simpl. rewrite lookup_app_l by lia. f_equal; lia.
    + rewrite lookup_app_r by nia.
      replace (Z.to_nat (i * c + j) - length row)%nat
        with (Z.to_nat ((i - 1) * c + j)) by nia.
      rewrite IH by lia.
      replace (Z.to_nat i) with (S (Z.to_nat (i - 1))) by lia. reflexivity.
Qed.

Lemma toContinuousMatrix_ok st :
  wf (st this) -> 0 < nrows_ (st this) -> 0 < ncols_ (st this) ->
  nrows_ (st this) * ncols_ (st this) < 2 ^ 31 ->
  toContinuousMatrix st
  = (Ok (mkCM (nrows_ (st this)) (ncols_ (st this))
              (nrows_ (st this) * ncols_ (st this))
              (concat (rows (st this)))), st).
Proof.
  intros (Hr & Hc & Hlen & Hrows) Hr0 Hc0 Hsize.
  set (A := st this) in *. set (r := nrows_ A) in *. set (c := ncols_ A) in *.
  assert (Hmul : size_mul r c = r * c).
  { unfold size_mul, SIZE_MAX1. apply Z.mod_small. nia. }
  unfold toContinuousMatrix, bind, get, lift. fold A r c.
  destruct (Z.eqb_spec r 0); [lia|]. destruct (Z.eqb_spec c 0); [lia|]. simpl.
  rewrite Hmul.
  change (replicate (Z.to_nat (r * c)) s_zero, 0)
    with ([] ++ replicate (Z.to_nat (r * c)) s_zero, len (@nil T)).
  rewrite <- (app_nil_r (replicate _ _)).
  rewrite (for_each_copy_out c).
  - simpl. rewrite app_nil_r, Hlen, len_nil, Z.add_0_l.
    rewrite Z.mod_small by (unfold SIZE_MAX1; nia).
    rewrite Z.eqb_refl. reflexivity.
  - exact Hrows.
  - unfold len. rewrite length_replicate. unfold len in Hlen. nia.
  - rewrite len_nil. lia.
Qed.

Lemma toContinuousMatrix_empty st :
  nrows_ (st this) = 0 \/ ncols_ (st this) = 0 ->
  toContinuousMatrix st = (Err MalformedInput, st).
Proof.
  intros Hz. unfold toContinuousMatrix, bind, get.
  destruct (Z.eqb_spec (nrows_ (st this)) 0); [reflexivity|].
  destruct (Z.eqb_spec (ncols_ (st this)) 0); [reflexivity|]. lia.
Qed.

(** With [2^31] rows of one cell the [int] counter of the copy wraps to
    [-2^31], and the final comparison with [cm->length] rejects the
    matrix. *)
Lemma toContinuousMatrix_overflow (N : nat) st :
  Z.of_nat N = 2 ^ 31 ->
  st this = mkMatrix (replicate N [s_zero]) (2 ^ 31) 1 ->
  toContinuousMatrix st = (Err MalformedInput, st).
Proof.
  intros HN Hst. destruct N as [|N']; [lia|].
  unfold toContinuousMatrix, bind, get, lift. rewrite Hst.
  cbn [rows nrows_ ncols_].
  change (size_mul (2 ^ 31) 1) with (2 ^ 31).
  change ((2 ^ 31 =? 0) || (1 =? 0)) with false. cbv beta iota.
  replace (Z.to_nat (2 ^ 31)) with (S N') by lia.
  rewrite (replicate_S_end N' [s_zero]), (replicate_S_end N' s_zero).
  rewrite for_each_app.
  change (replicate N' s_zero ++ [s_zero], 0)
    with ([] ++ replicate N' s_zero ++ [s_zero], len (@nil T)).
  rewrite (for_each_copy_out 1).
  - assert (Hvc : len (@nil T) + len (replicate N' [s_zero]) * 1 = 2 ^ 31 - 1).
    { unfold len. rewrite length_replicate. simpl. lia. }
    assert (Hlen : len (concat (replicate N' [s_zero]) ++ [s_zero]) = 2 ^ 31).
    { rewrite len_app, (len_concat 1) by (apply Forall_replicate; reflexivity).
      unfold len. rewrite length_replicate. simpl. lia. }
    cbn [for_each row_copy_out app]. rewrite Hvc, Hlen.
    change (len [s_zero]) with 1.
    change ((0 <=? 2 ^ 31 - 1) && (2 ^ 31 - 1 + 1 <=? 2 ^ 31)) with true.
    cbv iota. cbn [snd fst].
    change (negb (to_int (2 ^ 31 - 1 + 1) mod SIZE_MAX1 =? 2 ^ 31)) with true.
    reflexivity.
  - apply Forall_replicate. reflexivity.
  - unfold len. rewrite !length_replicate. lia.
  - unfold len. rewrite length_replicate. simpl. lia.
Qed.

(** Copying the buffer back in fills rows of the right lengths with the rows
    the buffer was made of. *)
Lemma for_each_copy_in (data : list T) (rs' rs : list (list T)) :
  Forall2 (fun r' r => length r' = length r) rs' rs ->
  forall filled pre post,
    data = pre ++ concat rs ++ post ->
    len pre + len (concat rs) < 2 ^ 31 ->
    for_each rs' (row_copy_in data) (filled, len pre)
    = Ok (filled ++ rs, len pre + len (concat rs)).
Proof.
  induction 1 as [|r' r rs' rs Hr Hrs IH]; intros filled pre post Hdata Hsize.
  - simpl. rewrite app_nil_r, len_nil, Z.add_0_r. reflexivity.
  - simpl in *. rewrite len_app in Hsize.
    pose proof (len_nonneg r). pose proof (len_nonneg pre).
    pose proof (len_nonneg (concat rs)). pose proof (len_nonneg post).
    assert (Hr' : len r' = len r) by (unfold len; lia).
    destruct (Z.leb_spec 0 (len pre)); [|lia].
    destruct (Z.leb_spec (len pre + len r') (len data)) as [_|Hlt].
    2:{ rewrite Hdata, !len_app in Hlt. lia. }
    assert (Hdrop : drop (length pre) data = (r ++ concat rs) ++ post).
    { rewrite Hdata, drop_app_length. reflexivity. }
    simpl. rewrite to_nat_len, Hdrop.
    rewrite take_app3_length' by exact Hr.
    rewrite to_int_small by lia. rewrite Hr', <- len_app.
    rewrite (IH _ _ post).
    + rewrite !len_app, <- app_assoc. simpl. do 2 f_equal. lia.
    + rewrite Hdata, <- !app_assoc. reflexivity.
    + rewrite len_app. lia.
Qed.

Lemma shaped_same_lengths r c m1 m2 :
  shaped r c m1 -> shaped r c m2 ->
  Forall2 (fun r1 r2 => length r1 = length r2) (rows m1) (rows m2).
Proof.
  intros [Hl1 Hc1] [Hl2 Hc2]. apply Forall2_same_length_lookup_2.
  - unfold len in *. lia.
  - intros i x y Hx Hy. rewrite Forall_lookup in Hc1, Hc2.
    pose proof (Hc1 _ _ Hx). pose proof (Hc2 _ _ Hy). unfold len in *. lia.
Qed.

Lemma fromContinuousMatrix_ok (A : Matrix T) st :
  wf A -> 0 < nrows_ A -> 0 < ncols_ A -> nrows_ A * ncols_ A < 2 ^ 31 ->
  exists st',
    fromContinuousMatrix
      (mkCM (nrows_ A) (ncols_ A) (nrows_ A * ncols_ A) (concat (rows A))) st
    = (Ok tt, st') /\ st' this = A /\ agree_except this st' st.
Proof.
  intros HA Hr0 Hc0 Hsize. pose proof (wf_shaped _ HA) as Hsh.
  destruct HA as (Hr & Hc & Hlen & Hrows).
  match goal with |- exists st', ?m st = _ /\ _ =>
    enough (Hs : sat m st (fun _ st' => st' this = A /\ agree_except this st' st)
                   no_err)
  end.
  { destruct (sat_ok _ _ _ Hs) as ([] & st' & Hrun & Hp). eauto. }
  unfold fromContinuousMatrix. cbn [cm_nrows cm_ncols cm_data].
  destruct (Z.eqb_spec (nrows_ A) 0); [lia|].
  destruct (Z.eqb_spec (ncols_ A) 0); [lia|]. cbn [orb].
  apply sat_bind, sat_resize. intros st1 Ht1 Hag1.
  apply sat_bind, sat_get. apply sat_bind, sat_lift.
  change ([], 0) with (@nil (list T), len (@nil T)).
  rewrite (for_each_copy_in _ _ (rows A)) with (post := []).
  - apply sat_put. split.
    + rewrite upd_same, Ht1. apply Matrix_eq; reflexivity.
    + intros v Hv. rewrite upd_other by exact Hv. apply Hag1. exact Hv.
  - rewrite Ht1.
    apply (shaped_same_lengths (nrows_ A) (ncols_ A)); [|exact Hsh].
    apply shaped_resize; lia.
  - rewrite app_nil_r. reflexivity.
  - rewrite len_nil, (len_concat (ncols_ A)) by exact Hrows. lia.
Qed.

End Flat.

(** ** [checkDominant] over the rationals *)

Section Dominant.

Implicit Types (st : store Q) (m : Matrix Q).

Lemma row_abs_sum_nonneg row : (0 <= row_abs_sum row)%Q.
Proof.
  induction row as [|x row IH]; simpl; [lra|].
  pose proof (Qabs_nonneg x). lra.
Qed.

Lemma row_abs_sum_ge row (k : nat) d :
  row !! k = Some d -> (Qabs d <= row_abs_sum row)%Q.
Proof.
  revert k. induction row as [|x row IH]; intros k Hk; [discriminate|].
  pose proof (row_abs_sum_nonneg row). pose proof (Qabs_nonneg x).
  destruct k as [|k]; simpl in *.
  - injection Hk as ->. lra.
  - specialize (IH k Hk). lra.
Qed.

Lemma foldl_abs_sum row :
  forall acc, (0 <= acc)%Q ->
    (foldl (fun l r => Qabs l + Qabs r) acc row == acc + row_abs_sum row)%Q.
Proof.
  induction row as [|x row IH]; intros acc Hacc; simpl; [lra|].
  pose proof (Qabs_nonneg x). pose proof (Qabs_pos acc Hacc) as Habs.
  rewrite IH by (rewrite Habs; lra). rewrite Habs. lra.
Qed.

(** The accumulation of the source computes the sum of the magnitudes. *)
Lemma accumulate_abs_sum row : (accumulate_abs row == row_abs_sum row)%Q.
Proof.
  unfold accumulate_abs. simpl. rewrite foldl_abs_sum by lra. lra.
Qed.

(** The test of the source, [d < sum - d], fails exactly when
    [d >= rowAbsSum - |d|]. *)
Lemma dominant_test row (k : nat) d :
  row !! k = Some d ->
  s_ltb d (s_sub (accumulate_abs row) d) = false
  <-> (row_abs_sum row - Qabs d <= d)%Q.
Proof.
  intros Hk. simpl. rewrite negb_false_iff, Qle_bool_iff, accumulate_abs_sum.
  pose proof (row_abs_sum_ge row k d Hk) as Hge.
  destruct (Qlt_le_dec d 0) as [Hneg|Hpos].
  - rewrite (Qabs_neg d) in * by lra. split; intros; lra.
  - rewrite (Qabs_pos d) in * by lra. reflexivity.
Qed.

Lemma sat_checkDominant st n :
  wf (st this) -> nrows_ (st this) = n -> ncols_ (st this) = n ->
  sat checkDominant st
    (fun b st' =>
       st' = st /\
       (b = true <-> forall i, 0 <= i < n -> dominant_row (st this) i))
    no_err.
Proof.
  intros Hwf Hr Hc. pose proof (wf_shaped _ Hwf) as Hsh.
  rewrite Hr, Hc in Hsh. destruct Hwf as (Hn & _).
  set (A := st this) in *.
  unfold checkDominant. apply sat_bind, sat_get. fold A. rewrite Hr.
  apply sat_bind.
  eapply sat_mono;
    [apply (sat_for_ctl
       (fun i (_ : unit) st' =>
          st' = st /\ forall i', 0 <= i' < i -> dominant_row A i')
       (fun (b : bool) st' =>
          st' = st /\ b = false /\ exists i, 0 <= i < n /\ ~ dominant_row A i)
       no_err)| |auto].
  - intros k [] st' Hk [-> Hdone].
    destruct (shaped_row n n A k Hsh Hk) as (row & Hrow & Hlen).
    destruct (lookup_lt_is_Some_2 row (Z.to_nat k)) as [d Hd].
    { unfold len in Hlen. lia. }
    apply sat_bind. unfold row_at. apply sat_bind, sat_get. fold A.
    apply sat_lift. rewrite (index_ok _ k row) by (lia || assumption).
    apply sat_bind. eapply sat_rd.
    { fold A. rewrite (cell_lookup A k k row) by (lia || assumption). exact Hd. }
    destruct (s_ltb d (s_sub (accumulate_abs row) d)) eqn:Htest.
    + apply sat_ret. split; [reflexivity|]. split; [reflexivity|].
      exists k. split; [lia|]. intros (row' & d' & Hrow' & Hd' & Hdom).
      rewrite Hrow in Hrow'. injection Hrow' as <-.
      rewrite Hd in Hd'. injection Hd' as <-.
      apply (dominant_test row _ d Hd) in Hdom. congruence.
    + apply sat_ret. split; [reflexivity|].
      intros i' Hi'. destruct (decide (i' = k)) as [->|Hne].
      * exists row, d. split; [exact Hrow|]. split; [exact Hd|].
        apply (dominant_test row _ d Hd). exact Htest.
      * apply Hdone. lia.
  - split; [reflexivity|]. intros; lia.
  - intros [[]|b] st'.
    + intros [-> Hall]. apply sat_ret. split; [reflexivity|].
      split; [|reflexivity]. intros _ i Hi. apply Hall. lia.
    + intros (-> & -> & i & Hi & Hnot). apply sat_ret.
      split; [reflexivity|]. split; [discriminate|].
      intros Hall. exfalso. apply Hnot, Hall, Hi.
Qed.

End Dominant.

(** *** [checkDominant], whatever the scalars *)

Section DominantRows.

Context {T : Type} `{Scalar T}.

Implicit Types (st : store T) (m : Matrix T).

(** The outcome of [checkDominant] on a well-formed matrix, row by row: it
    answers [false] at the first row that fails the test, reads outside the
    row [ncols] when the matrix has one and no row before it fails, and
    answers [true] otherwise. The store is never changed. *)
Lemma sat_checkDominant_rows st :
  wf (st this) ->
  sat checkDominant st
    (fun b st' =>
       st' = st /\
       if b
       then nrows_ (st this) <= ncols_ (st this) /\
            forall i, 0 <= i < nrows_ (st this) -> ~ row_fails (st this) i
       else exists i, 0 <= i < nrows_ (st this) /\ row_fails (st this) i)
    (fun e st' =>
       e = OutOfBounds /\ st' = st /\ ncols_ (st this) < nrows_ (st this) /\
       forall i, 0 <= i < ncols_ (st this) -> ~ row_fails (st this) i).
Proof.
  intros Hwf. pose proof (wf_shaped _ Hwf) as Hsh.
  destruct Hwf as (Hr & Hc & _).
  set (A := st this) in *.
  unfold checkDominant. apply sat_bind, sat_get. fold A. apply sat_bind.
  eapply sat_mono;
    [apply (sat_for_ctl
       (fun k (_ : unit) st' =>
          st' = st /\ k <= ncols_ A /\
          forall i, 0 <= i < k -> ~ row_fails A i)
       (fun (b : bool) st' =>
          st' = st /\ b = false /\
          exists i, 0 <= i < nrows_ A /\ row_fails A i)
       (fun e st' =>
          e = OutOfBounds /\ st' = st /\ ncols_ A < nrows_ A /\
          forall i, 0 <= i < ncols_ A -> ~ row_fails A i))| |auto].
  - intros k [] st' Hk (-> & Hkc & Hdone).
    destruct (shaped_row _ _ A k Hsh Hk) as (row & Hrow & Hlen).
    apply sat_bind. unfold row_at. apply sat_bind, sat_get. fold A.
    apply sat_lift. rewrite (index_ok _ k row) by (lia || assumption).
    apply sat_bind. unfold sat. rewrite rd_eq. fold A.
    rewrite (cell_lookup A k k row) by (lia || assumption).
    destruct (row !! Z.to_nat k) as [d|] eqn:Hd.
    + apply lookup_lt_Some in Hd as Hlt. unfold len in Hlen.
      destruct (s_ltb d (s_sub (accumulate_abs row) d)) eqn:Htest;
        apply sat_ret.
      * split; [reflexivity|]. split; [reflexivity|].
        exists k. split; [lia|]. exists row, d. auto.
      * split; [reflexivity|]. split; [lia|].
        intros i Hi. destruct (decide (i = k)) as [->|Hne]; [|apply Hdone; lia].
        intros (row' & d' & Hrow' & Hd' & Hfail).
        rewrite Hrow in Hrow'. injection Hrow' as <-.
        rewrite Hd in Hd'. injection Hd' as <-. congruence.
    + apply lookup_ge_None in Hd. unfold len in Hlen.
      split; [reflexivity|]. split; [reflexivity|]. split; [lia|].
      intros i Hi. apply Hdone. lia.
  - split; [reflexivity|]. split; [lia|]. intros; lia.
  - intros [[]|b] st'.
    + intros (-> & Hmax & Hall). apply sat_ret. split; [reflexivity|].
      split; [lia|]. intros i Hi. apply Hall. lia.
    + intros (-> & -> & Hex). apply sat_ret. split; [reflexivity|exact Hex].
Qed.

End DominantRows.

(** ** [inverse]: where it can stop with a zero pivot *)

Section Singular.

Context {T : Type} `{Scalar T}.

Implicit Types (st : store T) (m : Matrix T).

Lemma sat_graph {A} (m : M T A) st :
  sat m st (fun a st' => m st = (Ok a, st')) (fun e st' => m st = (Err e, st')).
Proof. unfold sat. destruct (m st) as [[a|e] st']; reflexivity. Qed.

(** A loop over the columns [j] of row [i] of a working matrix, each
    iteration amounting to one write into [v[i][j]]. *)
Lemma sat_row_loop n v i lo (body : Z -> M T unit) st E :
  v = mat \/ v = mat_inv -> working n st -> 0 <= i < n -> 0 <= lo ->
  (forall j st', lo <= j < n -> working n st' ->
     exists x, body j st' = wr v i j x st') ->
  sat (for_loop lo n body) st
    (fun _ st' =>
       working n st' /\ agree_except v st' st /\
       forall i' j', i' <> i -> cell (st' v) i' j' = cell (st v) i' j')
    E.
Proof.
  intros Hv Hw Hi Hlo Hbody.
  apply (sat_for_loop_post (fun _ st' =>
    working n st' /\ agree_except v st' st /\
    forall i' j', i' <> i -> cell (st' v) i' j' = cell (st v) i' j')).
  - intros j st' Hj (Hw' & Hag & Hrest).
    destruct (Hbody j st' Hj Hw') as [x Hx]. unfold sat. rewrite Hx, wr_eq.
    assert (Hsh : shaped n n (st' v)) by (destruct Hv as [->| ->]; apply Hw').
    destruct (shaped_cell n n (st' v) i j Hsh) as [y Hy]; [lia|lia|].
    rewrite Hy. split; [|split].
    + destruct Hw' as [Hm Hinv].
      destruct Hv as [->| ->]; split;
        rewrite ?upd_same, ?upd_other by discriminate;
        try apply shaped_set_cell; assumption.
    + intros v' Hv'. rewrite upd_other by exact Hv'. apply Hag. exact Hv'.
    + intros i' j' Hi'. rewrite upd_same, cell_set_cell by eauto.
      destruct (decide (i' = i /\ j' = j)) as [[? _]|_]; [contradiction|].
      apply Hrest. exact Hi'.
  - split; [exact Hw|]. split; [intros v' _; reflexivity|]. reflexivity.
  - auto.
Qed.

Lemma pivot_cell st k x :
  cell (st mat) k k = Some x ->
  (pivot_near_zero st k <-> near_zero x = true).
Proof.
  intros Hx. split.
  - intros (y & Hy & Hnz). congruence.
  - intros Hnz. exists x. auto.
Qed.

(** One step of the forward elimination on working matrices: it stops, with
    the store untouched, exactly when the pivot is near zero. *)
Lemma forward_step_sat n k st :
  working n st -> 0 <= k < n ->
  sat (forward_step n k) st
    (fun _ st' => working n st' /\ ~ pivot_near_zero st k)
    (fun e st' => e = SingularMatrix /\ pivot_near_zero st k).
Proof.
  intros Hw Hk. unfold forward_step. apply sat_bind.
  eapply (sat_rd_shaped n n); [apply Hw|lia|lia|]. intros p Hp.
  pose proof (pivot_cell st k p Hp) as Hpiv.
  destruct (near_zero p) eqn:Hnz.
  { apply sat_throw. split; [reflexivity|]. apply Hpiv. reflexivity. }
  assert (Hfine : ~ pivot_near_zero st k) by (rewrite Hpiv; discriminate).
  apply (sat_for_loop_post (fun _ st' => working n st')); [|exact Hw|auto].
  intros i st1 Hi Hw1. apply sat_bind.
  eapply (sat_rd_shaped n n); [apply Hw1|lia|lia|]. intros mik _.
  apply sat_bind.
  eapply (sat_rd_shaped n n); [apply Hw1|lia|lia|]. intros mkk _.
  apply sat_bind.
  eapply sat_mono; [apply (sat_row_loop n mat i k _ _ no_err); auto; try lia| |intros ? ? []].
  - intros j st2 Hj Hw2. unfold bind.
    destruct (shaped_cell n n (st2 mat) k j) as [b Hb]; [apply Hw2|lia|lia|].
    destruct (shaped_cell n n (st2 mat) i j) as [a Ha]; [apply Hw2|lia|lia|].
    rewrite rd_eq, Hb. cbv beta iota. rewrite rd_eq, Ha. eauto.
  - intros [] st2 (Hw2 & _ & _).
    eapply sat_mono; [apply (sat_row_loop n mat_inv i 0 _ _ no_err); auto; try lia| |intros ? ? []].
    + intros j st3 Hj Hw3. unfold bind.
      destruct (shaped_cell n n (st3 mat_inv) k j) as [b Hb];
        [apply Hw3|lia|lia|].
      destruct (shaped_cell n n (st3 mat_inv) i j) as [a Ha];
        [apply Hw3|lia|lia|].
      rewrite rd_eq, Hb. cbv beta iota. rewrite rd_eq, Ha. eauto.
    + intros [] st3 (Hw3 & _ & _). exact Hw3.
Qed.

(** One step of the normalization on working matrices: it stops exactly when
    the diagonal entry is near zero, and otherwise changes no other row of
    [mat]. *)
Lemma normalize_step_sat n i st :
  working n st -> 0 <= i < n ->
  sat (normalize_step n i) st
    (fun _ st' =>
       working n st' /\ ~ pivot_near_zero st i /\
       forall i' j', i' <> i -> cell (st' mat) i' j' = cell (st mat) i' j')
    (fun e st' => e = SingularMatrix /\ pivot_near_zero st i).
Proof.
  intros Hw Hi. unfold normalize_step. apply sat_bind.
  eapply (sat_rd_shaped n n); [apply Hw|lia|lia|]. intros p Hp.
  pose proof (pivot_cell st i p Hp) as Hpiv.
  destruct (near_zero p) eqn:Hnz.
  { apply sat_throw. split; [reflexivity|]. apply Hpiv. reflexivity. }
  assert (Hfine : ~ pivot_near_zero st i) by (rewrite Hpiv; discriminate).
  apply sat_bind.
  eapply (sat_rd_shaped n n); [apply Hw|lia|lia|]. intros coef _.
  apply sat_bind.
  eapply sat_mono; [apply (sat_row_loop n mat i i _ _ no_err); auto; try lia| |intros ? ? []].
  - intros j st2 Hj Hw2. unfold bind.
    destruct (shaped_cell n n (st2 mat) i j) as [a Ha]; [apply Hw2|lia|lia|].
    rewrite rd_eq, Ha. eauto.
  - intros [] st2 (Hw2 & _ & Hrest2).
    eapply sat_mono; [apply (sat_row_loop n mat_inv i 0 _ _ no_err); auto; try lia| |intros ? ? []].
    + intros j st3 Hj Hw3. unfold bind.
      destruct (shaped_cell n n (st3 mat_inv) i j) as [a Ha];
        [apply Hw3|lia|lia|].
      rewrite rd_eq, Ha. eauto.
    + intros [] st3 (Hw3 & Hag3 & _).
      split; [exact Hw3|]. split; [exact Hfine|].
      intros i' j' Hi'. rewrite Hag3 by discriminate. apply Hrest2. exact Hi'.
Qed.

Lemma pivot_near_zero_ext st st' k :
  cell (st' mat) k k = cell (st mat) k k ->
  pivot_near_zero st k -> pivot_near_zero st' k.
Proof. intros Heq (x & Hx & Hnz). exists x. rewrite Heq. auto. Qed.

Lemma size_sub_1 n : 1 <= n < SIZE_MAX1 -> size_sub n 1 = n - 1.
Proof. intros Hn. unfold size_sub. apply Z.mod_small. lia. Qed.

Lemma for_loop_nil lo (body : Z -> M T unit) st :
  for_loop lo lo body st = (Ok tt, st).
Proof.
  rewrite for_loop_unfold. destruct (Z.leb_spec lo lo); [reflexivity|lia].
Qed.

(** A loop that has run up to [k], followed by the iteration [k]. *)
Lemma for_loop_snoc k (body : Z -> M T unit) st0 st st' :
  0 <= k ->
  for_loop 0 k body st0 = (Ok tt, st) -> body k st = (Ok tt, st') ->
  for_loop 0 (k + 1) body st0 = (Ok tt, st').
Proof.
  intros Hk Hrun Hstep. rewrite (for_loop_split 0 k (k + 1)) by lia.
  unfold bind. rewrite Hrun, for_loop_unfold.
  destruct (Z.leb_spec (k + 1) k); [lia|].
  unfold bind. rewrite Hstep. apply for_loop_nil.
Qed.

(** The forward elimination either runs through every pivot and finds none
    near zero, or stops at the first one that is. *)
Lemma forward_outcome n st1 :
  working n st1 -> 1 <= n < SIZE_MAX1 ->
  (exists st_f,
     inverse_forward n st1 = (Ok tt, st_f) /\ working n st_f /\
     forall k st_k, 0 <= k <= n - 2 ->
       for_loop 0 k (forward_step n) st1 = (Ok tt, st_k) ->
       ~ pivot_near_zero st_k k)
  \/ (exists st',
        inverse_forward n st1 = (Err SingularMatrix, st') /\
        exists k st_k, 0 <= k <= n - 2 /\
          for_loop 0 k (forward_step n) st1 = (Ok tt, st_k) /\
          pivot_near_zero st_k k).
Proof.
  intros Hw Hn. unfold inverse_forward. rewrite size_sub_1 by exact Hn.
  set (I := fun k st =>
    working n st /\ for_loop 0 k (forward_step n) st1 = (Ok tt, st) /\
    forall k' stk', 0 <= k' < k ->
      for_loop 0 k' (forward_step n) st1 = (Ok tt, stk') ->
      ~ pivot_near_zero stk' k').
  set (E := fun e (_ : store T) =>
    e = SingularMatrix /\
    exists k st_k, 0 <= k <= n - 2 /\
      for_loop 0 k (forward_step n) st1 = (Ok tt, st_k) /\
      pivot_near_zero st_k k).
  assert (Hs : sat (for_loop 0 (n - 1) (forward_step n)) st1
                 (fun _ => I (n - 1)) E).
  { apply (sat_for_loop_post I E).
    - intros k st Hk (Hwk & Hrun & Hprev).
      eapply sat_mono;
        [apply sat_conj;
           [apply (forward_step_sat n k st Hwk); lia|apply sat_graph]| |].
      + intros [] st' ((Hw' & Hfine) & Hstep).
        split; [exact Hw'|]. split.
        * apply (for_loop_snoc k _ st1 st st'); (lia || assumption).
        * intros k' stk' Hk' Hrun'. destruct (decide (k' = k)) as [->|Hne].
          -- rewrite Hrun in Hrun'. injection Hrun' as <-. exact Hfine.
          -- apply (Hprev k'); [lia|exact Hrun'].
      + intros e st' ((-> & Hnz) & _). split; [reflexivity|].
        exists k, st. split; [lia|]. split; assumption.
    - split; [exact Hw|]. split; [apply for_loop_nil|]. intros; lia.
    - intros st'. replace (Z.max 0 (n - 1)) with (n - 1) by lia. auto. }
  unfold sat in Hs.
  destruct (for_loop 0 (n - 1) (forward_step n) st1) as [[[]|e] st'].
  - left. exists st'. destruct Hs as (Hw' & _ & Hprev).
    split; [reflexivity|]. split; [exact Hw'|].
    intros k st_k Hk. apply Hprev. lia.
  - right. exists st'. destruct Hs as (-> & Hex). split; [reflexivity|exact Hex].
Qed.

(** The normalization either divides every row, no diagonal entry being near
    zero, or stops at the first one that is. *)
Lemma normalize_outcome n st_f :
  working n st_f -> 0 <= n ->
  (exists st_n,
     inverse_normalize n st_f = (Ok tt, st_n) /\
     forall i, 0 <= i < n -> ~ pivot_near_zero st_f i)
  \/ (exists st',
        inverse_normalize n st_f = (Err SingularMatrix, st') /\
        exists i, 0 <= i < n /\ pivot_near_zero st_f i).
Proof.
  intros Hw Hn. unfold inverse_normalize.
  set (I := fun k st =>
    working n st /\
    (forall i' j', k <= i' -> cell (st mat) i' j' = cell (st_f mat) i' j') /\
    forall i, 0 <= i < k -> ~ pivot_near_zero st_f i).
  set (E := fun e (_ : store T) =>
    e = SingularMatrix /\ exists i, 0 <= i < n /\ pivot_near_zero st_f i).
  assert (Hs : sat (for_loop 0 n (normalize_step n)) st_f (fun _ => I n) E).
  { apply (sat_for_loop_post I E).
    - intros k st Hk (Hwk & Hsame & Hprev).
      eapply sat_mono; [apply (normalize_step_sat n k st Hwk); lia| |].
      + intros [] st' (Hw' & Hfine & Hrest).
        split; [exact Hw'|]. split.
        * intros i' j' Hi'. rewrite Hrest by lia. apply Hsame. lia.
        * intros i Hi. destruct (decide (i = k)) as [->|Hne].
          -- intros Hnz. apply Hfine.
             apply (pivot_near_zero_ext st_f st k); [apply Hsame; lia|exact Hnz].
          -- apply Hprev. lia.
      + intros e st' (-> & Hnz). split; [reflexivity|].
        exists k. split; [lia|].
        apply (pivot_near_zero_ext st st_f k); [|exact Hnz].
        symmetry. apply Hsame. lia.
    - split; [exact Hw|]. split; [reflexivity|]. intros; lia.
    - intros st'. replace (Z.max 0 n) with n by lia. auto. }
  unfold sat in Hs.
  destruct (for_loop 0 n (normalize_step n) st_f) as [[[]|e] st'].
  - left. exists st'. destruct Hs as (_ & _ & Hprev). auto.
  - right. exists st'. destruct Hs as (-> & Hex). auto.
Qed.

(** The backward elimination never reports a zero pivot. *)
Lemma backward_not_singular n st :
  fst ((inverse_backward n ;; get mat_inv) st) <> Err SingularMatrix.
Proof.
  apply sat_not_err.
  apply (keeps_sat (fun _ => False) (fun e => e <> SingularMatrix));
    [|auto|auto].
  apply keeps_bind; [|intros _; apply keeps_get].
  apply keeps_inverse_backward; [discriminate|intros v []].
Qed.

(** On the empty matrix the forward loop is entered and reads outside
    [mat]. *)
Lemma inverse_forward_empty st :
  shaped 0 0 (st mat) -> inverse_forward 0 st = (Err OutOfBounds, st).
Proof.
  intros Hsh. unfold inverse_forward. rewrite for_loop_unfold.
  change (size_sub 0 1 <=? 0) with false. cbv iota.
  unfold bind, forward_step, bind. rewrite rd_eq.
  destruct (cell (st mat) 0 0) as [x|] eqn:Hx; [|reflexivity].
  destruct (shaped_cell_inv 0 0 (st mat) 0 0 Hsh); [eauto|lia].
Qed.

(** [inverse] ends in [SingularMatrix] exactly when the forward elimination
    meets a pivot near zero, or completes and the normalization meets a
    diagonal entry near zero. *)
Lemma inverse_singular_iff st n :
  wf (st this) -> nrows_ (st this) = n -> ncols_ (st this) = n ->
  exists st1,
    inverse_init st = (Ok n, st1) /\
    (fst (inverse st) = Err SingularMatrix
     <-> (exists k st_k, 0 <= k <= n - 2 /\
            for_loop 0 k (forward_step n) st1 = (Ok tt, st_k) /\
            pivot_near_zero st_k k)
         \/ (exists st_f,
               inverse_forward n st1 = (Ok tt, st_f) /\
               exists i, 0 <= i < n /\ pivot_near_zero st_f i)).
Proof.
  intros Hwf Hr Hc.
  assert (Hn : 0 <= n < SIZE_MAX1) by (destruct Hwf; lia).
  destruct (sat_ok inverse_init st (fun r st1 => r = n /\ working n st1))
    as (r & st1 & Hinit & -> & Hw).
  { apply (sat_inverse_init st n); auto.
    intros st1 Hmat Hinv _ _. split; [reflexivity|]. split; [|exact Hinv].
    rewrite Hmat. pose proof (wf_shaped _ Hwf) as Hsh.
    rewrite Hr, Hc in Hsh. exact Hsh. }
  exists st1. split; [exact Hinit|].
  unfold inverse. unfold bind at 1. rewrite Hinit. unfold bind at 1.
  destruct (decide (n = 0)) as [->|Hn0].
  { rewrite inverse_forward_empty by apply Hw. simpl.
    split; [discriminate|].
    intros [(k & st_k & Hk & _)|(st_f & Hrun & _)]; [lia|discriminate]. }
  destruct (forward_outcome n st1 Hw ltac:(lia))
    as [(st_f & Hfwd & Hwf' & Hfine)|(st' & Hfwd & Hex)].
  - rewrite Hfwd. unfold bind at 1.
    destruct (normalize_outcome n st_f Hwf' ltac:(lia))
      as [(st_n & Hnorm & Hfine')|(st' & Hnorm & Hex)].
    + rewrite Hnorm. split.
      * intros Herr. exfalso. exact (backward_not_singular n st_n Herr).
      * intros [(k & st_k & Hk & Hrun & Hnz)|(st_f' & Hrun & i & Hi & Hnz)].
        -- exfalso. exact (Hfine k st_k Hk Hrun Hnz).
        -- exfalso. injection Hrun as <-. exact (Hfine' i Hi Hnz).
    + rewrite Hnorm. simpl. split; [|reflexivity].
      intros _. right. exists st_f. split; [reflexivity|exact Hex].
  - rewrite Hfwd. simpl. split; [|reflexivity]. intros _. left. exact Hex.
Qed.

End Singular.

(** ** The claims *)

(** C1. Inverting [[4,7],[2,6]] succeeds and returns a 2x2 matrix: over the
    rationals its cells are exactly 3/5, -7/10, -1/5 and 2/5, and over
    binary64 doubles each cell is within 1e-9 of these values. *)
Theorem C1_inverse_4726 :
  (exists B : Matrix Q,
     fst (inverse (call (A_4726 4 7 2 6)%Q empty_Matrix)) = Ok B /\
     nrows_ B = 2 /\ ncols_ B = 2 /\
     Forall2 (Forall2 Qeq) (rows B)
       [[3 # 5; -7 # 10]; [-1 # 5; 2 # 5]]%Q) /\
  (exists B : Matrix float,
     fst (inverse (call (A_4726 4 7 2 6)%float empty_Matrix)) = Ok B /\
     nrows_ B = 2 /\ ncols_ B = 2 /\
     Forall2 (Forall2 (within (1 # 1000000000)))
       (rows B) [[3 # 5; -7 # 10]; [-1 # 5; 2 # 5]]%Q).
Proof.
  split.
  - eexists. split; [vm_compute; reflexivity|].
    repeat split. repeat constructor; reflexivity.
  - eexists. split; [vm_compute; reflexivity|].
    repeat split.
    repeat constructor; (eexists; split; [vm_compute; reflexivity|]);
      vm_compute; reflexivity.
Qed.

(** C10. On the empty 0x0 matrix the shape check of [inverse] passes, the
    bound [nsize - 1] of the forward loop wraps to [2^64 - 1], the loop is
    entered and the read of [mat[0][0]] is outside the empty copy: the call
    ends in the out-of-bounds outcome, not with a matrix and not with
    [ShapeMismatch] or [SingularMatrix]. *)
Theorem C10_inverse_empty_out_of_bounds {T} `{Scalar T} (st : store T) :
  st this = empty_Matrix ->
  size_sub (nrows_ (st this)) 1 = 2 ^ 64 - 1 /\
  fst (rd mat 0 0 (snd (inverse_init st))) = Err OutOfBounds /\
  fst (inverse st) = Err OutOfBounds.
Proof.
  intros Hst. split; [rewrite Hst; reflexivity|].
  assert (Hwf : wf (st this)).
  { rewrite Hst. repeat split; simpl; try (unfold SIZE_MAX1; lia).
    constructor. }
  assert (Hoob : forall st1, st1 mat = st this ->
                   rd mat 0 0 st1 = (Err OutOfBounds, st1)).
  { intros st1 Hmat. rewrite rd_eq, Hmat, Hst, cell_empty. reflexivity. }
  split.
  - destruct (sat_ok inverse_init st (fun _ st1 => st1 mat = st this))
      as (n & st1 & Hrun & Hmat).
    { apply (sat_inverse_init st 0); try (rewrite Hst; reflexivity); auto. }
    rewrite Hrun. simpl. rewrite Hoob by exact Hmat. reflexivity.
  - apply sat_err. unfold inverse. apply sat_bind.
    apply (sat_inverse_init st 0); try (rewrite Hst; reflexivity); [exact Hwf|].
    intros st1 Hmat _ _ _. apply sat_bind.
    unfold inverse_forward, sat. rewrite for_loop_unfold.
    change (size_sub 0 1 <=? 0) with false. cbv iota.
    apply sat_bind. unfold forward_step. apply sat_bind.
    unfold sat. rewrite Hoob by exact Hmat. reflexivity.
Qed.

Lemma C10_inverse_empty_witness :
  size_sub (nrows_ (call (@empty_Matrix Q) empty_Matrix this)) 1 = 2 ^ 64 - 1 /\
  fst (rd mat 0 0 (snd (inverse_init (call (@empty_Matrix Q) empty_Matrix))))
    = Err OutOfBounds /\
  fst (inverse (call (@empty_Matrix Q) empty_Matrix)) = Err OutOfBounds.
Proof. apply C10_inverse_empty_out_of_bounds. reflexivity. Defined.

(** Discharges [wf] of a literal matrix. *)
Ltac wf_literal :=
  repeat split; simpl;
  try (unfold SIZE_MAX1; lia); repeat constructor.

(** C4, as stated in the specification, fails: [resize] keeps the cells the
    matrix already has. A 1x1 matrix holding 5, resized to 1x1, still holds 5
    and not 0. *)
Lemma C4_resize_not_zeroed :
  ~ (forall (m : Matrix Q) (r c i j : Z),
       0 <= i < r -> 0 <= j < c ->
       exists x,
         cell (snd (resize this r c (call m empty_Matrix)) this) i j = Some x /\
         (x == 0)%Q).
Proof.
  intros Hall.
  destruct (Hall (mkMatrix [[5%Q]] 1 1) 1 1 0 0 ltac:(lia) ltac:(lia))
    as (x & Hx & Hzero).
  vm_compute in Hx. injection Hx as <-. vm_compute in Hzero. discriminate.
Qed.

(** C4, amended. For every matrix and all [r, c >= 0], [resize(r, c)]
    succeeds and leaves a matrix whose members are [r] and [c], with [r] rows
    of [c] cells; a cell that existed before the call keeps its value, and
    every other cell is zero. In particular a matrix that had no cells is
    all zero afterwards. *)
Theorem C4_resize_keeps_old_cells {T} `{Scalar T} (st : store T) (v : var)
    (r c : Z) :
  0 <= r -> 0 <= c ->
  exists st',
    resize v r c st = (Ok tt, st') /\
    nrows_ (st' v) = r /\ ncols_ (st' v) = c /\ shaped r c (st' v) /\
    (forall i j x, 0 <= i < r -> 0 <= j < c ->
       cell (st v) i j = Some x -> cell (st' v) i j = Some x) /\
    (forall i j, 0 <= i < r -> 0 <= j < c ->
       cell (st v) i j = None -> cell (st' v) i j = Some s_zero) /\
    (rows (st v) = [] ->
     forall i j, 0 <= i < r -> 0 <= j < c -> cell (st' v) i j = Some s_zero).
Proof.
  intros Hr Hc. eexists. split; [reflexivity|].
  rewrite upd_same. simpl.
  split; [reflexivity|]. split; [reflexivity|].
  split; [apply shaped_resize; assumption|].
  split; [|split].
  - intros i j x Hi Hj Hx. rewrite cell_resize, Hx by assumption. reflexivity.
  - intros i j Hi Hj Hx. rewrite cell_resize, Hx by assumption. reflexivity.
  - intros Hrows i j Hi Hj. rewrite cell_resize by assumption.
    unfold cell at 1. rewrite Hrows.
    destruct (_ && _); reflexivity.
Qed.

Lemma C4_resize_witness :
  exists st',
    resize this 3 2 (call (A_4726 4 7 2 6)%Q empty_Matrix) = (Ok tt, st') /\
    nrows_ (st' this) = 3 /\ ncols_ (st' this) = 2 /\ shaped 3 2 (st' this) /\
    (forall i j x, 0 <= i < 3 -> 0 <= j < 2 ->
       cell (call (A_4726 4 7 2 6)%Q empty_Matrix this) i j = Some x ->
       cell (st' this) i j = Some x) /\
    (forall i j, 0 <= i < 3 -> 0 <= j < 2 ->
       cell (call (A_4726 4 7 2 6)%Q empty_Matrix this) i j = None ->
       cell (st' this) i j = Some s_zero) /\
    (rows (call (A_4726 4 7 2 6)%Q empty_Matrix this) = [] ->
     forall i j, 0 <= i < 3 -> 0 <= j < 2 -> cell (st' this) i j = Some s_zero).
Proof. apply C4_resize_keeps_old_cells; lia. Defined.

(** C5. Each shape-checked operation ends in [ShapeMismatch] exactly when its
    shape test fails: [+] and [-] when the operands differ in [nrows] or in
    [ncols], [*] when [lhs.ncols <> rhs.nrows], [inverse] when the receiver
    is not square. Adding a 2x3 to a 3x2 matrix and multiplying a 2x3 by a
    4x2 matrix end in [ShapeMismatch]. *)
Theorem C5_shape_mismatch_iff {T} `{Scalar T} (st : store T) :
  (fst (operator_add st) = Err ShapeMismatch
   <-> ~ (nrows_ (st lhs) = nrows_ (st rhs) /\ ncols_ (st lhs) = ncols_ (st rhs))) /\
  (fst (operator_sub st) = Err ShapeMismatch
   <-> ~ (nrows_ (st lhs) = nrows_ (st rhs) /\ ncols_ (st lhs) = ncols_ (st rhs))) /\
  (fst (operator_mul st) = Err ShapeMismatch
   <-> ncols_ (st lhs) <> nrows_ (st rhs)) /\
  (fst (inverse st) = Err ShapeMismatch
   <-> nrows_ (st this) <> ncols_ (st this)) /\
  fst (operator_add (call (resize_Matrix 2 3 empty_Matrix)
                          (resize_Matrix 3 2 empty_Matrix)))
    = Err (A := Matrix T) ShapeMismatch /\
  fst (operator_mul (call (resize_Matrix 2 3 empty_Matrix)
                          (resize_Matrix 4 2 empty_Matrix)))
    = Err (A := Matrix T) ShapeMismatch.
Proof.
  split; [apply operator_add_shape|]. split; [apply operator_sub_shape|].
  split; [apply operator_mul_shape|]. split; [apply inverse_shape|].
  split.
  - apply operator_add_shape. simpl. lia.
  - apply operator_mul_shape. simpl. lia.
Qed.

(** C6. For well-formed [A] and [B] with [A.ncols = B.nrows], [A * B]
    succeeds with a well-formed matrix of shape [A.nrows x B.ncols] whose
    cell [i][j] is the sum over [k] from [0] to [A.ncols - 1] of
    [A[i][k] * B[k][j]]. *)
Theorem C6_multiply_cells {T} `{Scalar T} (A B : Matrix T) (st : store T) :
  wf A -> wf B -> st lhs = A -> st rhs = B -> ncols_ A = nrows_ B ->
  exists C,
    fst (operator_mul st) = Ok C /\
    nrows_ C = nrows_ A /\ ncols_ C = ncols_ B /\ wf C /\
    forall i j, 0 <= i < nrows_ A -> 0 <= j < ncols_ B ->
      cell C i j = Some (dot A B i j (ncols_ A)).
Proof.
  intros HA HB <- <- Hmid.
  destruct (sat_ok _ _ _ (sat_operator_mul st HA HB Hmid))
    as (C & st' & Hrun & Hn & Hc & Hwf & Hcells & _).
  exists C. rewrite Hrun. auto.
Qed.

Lemma C6_multiply_witness :
  exists C,
    fst (operator_mul (call A_23 B_32)) = Ok C /\
    nrows_ C = nrows_ A_23 /\ ncols_ C = ncols_ B_32 /\ wf C /\
    forall i j, 0 <= i < nrows_ A_23 -> 0 <= j < ncols_ B_32 ->
      cell C i j = Some (dot A_23 B_32 i j (ncols_ A_23)).
Proof.
  apply (C6_multiply_cells A_23 B_32 (call A_23 B_32));
    try reflexivity; wf_literal.
Defined.

(** C7. For every well-formed matrix [A], of any shape, [transpose] succeeds
    with a well-formed [ncols x nrows] matrix whose cell [j][i] is the cell
    [i][j] of [A], and transposing that result gives [A] again, exactly. *)
Theorem C7_transpose_involutive {T} `{Scalar T} (A : Matrix T) (st : store T) :
  wf A -> st this = A ->
  exists B,
    fst (transpose st) = Ok B /\
    nrows_ B = ncols_ A /\ ncols_ B = nrows_ A /\ wf B /\
    (forall i j, 0 <= i < nrows_ A -> 0 <= j < ncols_ A ->
       exists x, cell A i j = Some x /\ cell B j i = Some x) /\
    (forall st2, st2 this = B -> fst (transpose st2) = Ok A).
Proof.
  intros HA <-.
  destruct (sat_ok _ _ _ (sat_transpose st HA))
    as (B & st' & Hrun & Hn & Hc & HB & Hcells & _).
  exists B. rewrite Hrun.
  split; [reflexivity|]. split; [exact Hn|]. split; [exact Hc|].
  split; [exact HB|]. split.
  - intros i j Hi Hj. exists (at_ (st this) i j). split; [|auto].
    apply (shaped_at _ _ _ i j (wf_shaped _ HA)); assumption.
  - intros st2 Hst2. rewrite <- Hst2 in HB.
    destruct (sat_ok _ _ _ (sat_transpose st2 HB))
      as (A' & st2' & Hrun2 & Hn2 & Hc2 & HA' & Hcells2 & _).
    rewrite Hrun2. simpl. f_equal. rewrite Hst2 in *.
    apply Matrix_eq; [|congruence|congruence].
    apply (rows_ext (nrows_ (st this)) (ncols_ (st this)));
      [rewrite <- Hc, <- Hn2 at 1; rewrite <- Hn, <- Hc2; apply wf_shaped, HA'
      |apply wf_shaped, HA|].
    intros i j Hi Hj. rewrite Hcells2 by lia.
    rewrite (at_cell B j i (at_ (st this) i j)) by auto.
    symmetry. apply (shaped_at _ _ _ i j (wf_shaped _ HA)); assumption.
Qed.

Lemma C7_transpose_witness :
  exists B,
    fst (transpose (call A_23 empty_Matrix)) = Ok B /\
    nrows_ B = ncols_ A_23 /\ ncols_ B = nrows_ A_23 /\ wf B /\
    (forall i j, 0 <= i < nrows_ A_23 -> 0 <= j < ncols_ A_23 ->
       exists x, cell A_23 i j = Some x /\ cell B j i = Some x) /\
    (forall st2, st2 this = B -> fst (transpose st2) = Ok A_23).
Proof.
  apply (C7_transpose_involutive A_23 (call A_23 empty_Matrix));
    [wf_literal|reflexivity].
Defined.

(** C9. Whatever the outcome, [inverse] and [transpose] leave [*this] as it
    was, and [+], [-] and [*] leave [lhs] and [rhs] as they were: every
    write of these bodies goes to a matrix constructed in the body. The
    outcome, and so the matrix returned, depends on the operands only, not
    on what the store held before the call. *)
Theorem C9_operands_unchanged {T} `{Scalar T} (st : store T) :
  (snd (inverse st) this = st this /\
   snd (transpose st) this = st this /\
   (snd (operator_add st) lhs = st lhs /\ snd (operator_add st) rhs = st rhs) /\
   (snd (operator_sub st) lhs = st lhs /\ snd (operator_sub st) rhs = st rhs) /\
   (snd (operator_mul st) lhs = st lhs /\ snd (operator_mul st) rhs = st rhs)) /\
  (forall st' : store T,
     (st' this = st this ->
      fst (inverse st') = fst (inverse st) /\
      fst (transpose st') = fst (transpose st)) /\
     (st' lhs = st lhs -> st' rhs = st rhs ->
      fst (operator_add st') = fst (operator_add st) /\
      fst (operator_sub st') = fst (operator_sub st) /\
      fst (operator_mul st') = fst (operator_mul st))).
Proof.
  split.
  - set (vs := fun v : var => v = this \/ v = lhs \/ v = rhs).
    set (P := fun _ : error => True).
    assert (Hops : forall v, vs v -> v = this \/ v = lhs \/ v = rhs) by auto.
    assert (Hinv : keeps vs P inverse) by (apply keeps_inverse; unfold P; auto).
    assert (Htr : keeps vs P transpose)
      by (apply keeps_transpose; unfold P; auto).
    assert (Hadd : keeps vs P operator_add)
      by (apply keeps_operator_add; unfold P; auto).
    assert (Hsub : keeps vs P operator_sub)
      by (apply keeps_operator_sub; unfold P; auto).
    assert (Hmul : keeps vs P operator_mul)
      by (apply keeps_operator_mul; unfold P; auto).
    repeat split; eapply keeps_snd; eauto; unfold vs; auto.
  - intros st'. split.
    + intros Hthis.
      assert (Hag : agree_on (fun v => v = this) st' st) by (intros v ->; auto).
      destruct (pure_inverse (T := T)) as [vi Hi].
      destruct (pure_transpose (T := T)) as [vt Ht].
      split; [apply (Hi st' st Hag)|apply (Ht st' st Hag)].
    + intros Hl Hr.
      assert (Hag : agree_on (fun v => v = lhs \/ v = rhs) st' st)
        by (intros v [->| ->]; auto).
      destruct (pure_operator_add (T := T)) as [va Ha].
      destruct (pure_operator_sub (T := T)) as [vb Hb].
      destruct (pure_operator_mul (T := T)) as [vc Hc].
      split; [apply (Ha st' st Hag)|].
      split; [apply (Hb st' st Hag)|apply (Hc st' st Hag)].
Qed.

Lemma C9_operands_unchanged_witness :
  fst (inverse (upd mat_inv B_32 (call (A_4726 4 7 2 6)%Q empty_Matrix)))
    = fst (inverse (call (A_4726 4 7 2 6)%Q empty_Matrix)) /\
  fst (transpose (upd mat_inv B_32 (call (A_4726 4 7 2 6)%Q empty_Matrix)))
    = fst (transpose (call (A_4726 4 7 2 6)%Q empty_Matrix)).
Proof.
  apply (proj1 (proj2 (C9_operands_unchanged
                         (call (A_4726 4 7 2 6)%Q empty_Matrix))
                      (upd mat_inv B_32
                         (call (A_4726 4 7 2 6)%Q empty_Matrix)))).
  reflexivity.
Defined.

(** C2. On a well-formed square matrix, [inverse] ends in [SingularMatrix]
    exactly when a pivot magnitude is below the zero threshold: either the
    forward elimination reaches some pivot index [k] in [0, n-2] with
    [|mat[k][k]| < _ZERO_LIMIT], or it completes and the normalization finds
    a row [i] with [|mat[i][i]| < _ZERO_LIMIT]. Inverting [[1,2],[2,4]] ends
    in [SingularMatrix], over the rationals and over the doubles: the forward
    elimination completes and leaves zero in [mat[1][1]]. *)
Theorem C2_singular_iff :
  (forall T (HT : Scalar T) (st : store T) (n : Z),
     wf (st this) -> nrows_ (st this) = n -> ncols_ (st this) = n ->
     exists st1,
       inverse_init st = (Ok n, st1) /\
       (fst (inverse st) = Err SingularMatrix
        <-> (exists k st_k, 0 <= k <= n - 2 /\
               for_loop 0 k (forward_step n) st1 = (Ok tt, st_k) /\
               pivot_near_zero st_k k)
            \/ (exists st_f,
                  inverse_forward n st1 = (Ok tt, st_f) /\
                  exists i, 0 <= i < n /\ pivot_near_zero st_f i))) /\
  fst (inverse (call (S_1224 1 2 4)%Q empty_Matrix)) = Err SingularMatrix /\
  fst (inverse (call (S_1224 1 2 4)%float empty_Matrix)) = Err SingularMatrix /\
  (let st1 := snd (inverse_init (call (S_1224 1 2 4)%Q empty_Matrix)) in
   fst (inverse_forward 2 st1) = Ok tt /\
   exists x, cell (snd (inverse_forward 2 st1) mat) 1 1 = Some x /\ (x == 0)%Q).
Proof.
  split; [intros T HT st n; apply inverse_singular_iff|].
  split; [vm_compute; reflexivity|]. split; [vm_compute; reflexivity|].
  split; [vm_compute; reflexivity|].
  eexists. split; [vm_compute; reflexivity|reflexivity].
Qed.

Lemma C2_singular_witness :
  exists st1,
    inverse_init (call (S_1224 1 2 4)%Q empty_Matrix) = (Ok 2, st1) /\
    (fst (inverse (call (S_1224 1 2 4)%Q empty_Matrix)) = Err SingularMatrix
     <-> (exists k st_k, 0 <= k <= 2 - 2 /\
            for_loop 0 k (forward_step 2) st1 = (Ok tt, st_k) /\
            pivot_near_zero st_k k)
         \/ (exists st_f,
               inverse_forward 2 st1 = (Ok tt, st_f) /\
               exists i, 0 <= i < 2 /\ pivot_near_zero st_f i)).
Proof.
  apply (proj1 C2_singular_iff Q Q_scalar
           (call (S_1224 1 2 4)%Q empty_Matrix) 2);
    [wf_literal|reflexivity|reflexivity].
Defined.

(** C3, as stated, fails on doubles. In the matrix [R_ulp] every row
    satisfies [a[i][i] >= rowAbsSum - |a[i][i]|] on the exact values of its
    cells (the first with equality), yet [checkDominant] answers [false]:
    the sum of the first row is rounded up twice, and [sum - a[0][0]] comes
    out above [a[0][0]]. *)
Lemma C3_checkDominant_rounding :
  wf R_ulp /\ nrows_ R_ulp = ncols_ R_ulp /\
  (exists E,
     exact_Matrix R_ulp = Some E /\
     forall i, 0 <= i < 3 -> dominant_row E i) /\
  fst (checkDominant (call R_ulp empty_Matrix)) = Ok false.
Proof.
  split; [wf_literal|]. split; [reflexivity|]. split; [|vm_compute; reflexivity].
  eexists. split; [vm_compute; reflexivity|].
  match goal with
  | |- forall i, _ -> dominant_row ?E i =>
      destruct (sat_ok _ _ _ (sat_checkDominant (call E empty_Matrix) 3
                                ltac:(wf_literal) eq_refl eq_refl))
        as (b & st' & Hrun & _ & Hiff);
      assert (Hb : fst (checkDominant (call E empty_Matrix)) = Ok true)
        by (vm_compute; reflexivity)
  end.
  rewrite Hrun in Hb. injection Hb as ->. apply Hiff. reflexivity.
Qed.

(** C3, amended. For every well-formed square matrix, whatever the scalars,
    [checkDominant] returns and leaves the store as it was; it answers
    [false] exactly when some row [i] fails the test of the source,
    [a[i][i] < sum - a[i][i]], where [sum] is accumulated over the row from
    zero and the test is evaluated in the arithmetic of the scalars. In
    exact rational arithmetic that is the specification's condition: the
    answer is [true] exactly when every row [i] satisfies
    [a[i][i] >= rowAbsSum - |a[i][i]|]. *)
Theorem C3_checkDominant_iff :
  (forall (T : Type) (S : Scalar T) (A : Matrix T) (st : store T) (n : Z),
     wf A -> nrows_ A = n -> ncols_ A = n -> st this = A ->
     exists b,
       checkDominant st = (Ok b, st) /\
       (b = false <-> exists i, 0 <= i < n /\ row_fails A i)) /\
  (forall (A : Matrix Q) (st : store Q) (n : Z),
     wf A -> nrows_ A = n -> ncols_ A = n -> st this = A ->
     exists b,
       checkDominant st = (Ok b, st) /\
       (b = true <-> forall i, 0 <= i < n -> dominant_row A i)).
Proof.
  split.
  - intros T S A st n HA Hr Hc <-.
    pose proof (sat_checkDominant_rows st HA) as Hs. unfold sat in Hs.
    destruct (checkDominant st) as [[b|e] st'].
    + destruct Hs as [-> Hb]. exists b. split; [reflexivity|].
      rewrite Hr in Hb. destruct b.
      * destruct Hb as [_ Hall]. split; [discriminate|].
        intros (i & Hi & Hfail). exfalso. exact (Hall i Hi Hfail).
      * split; [intros _; exact Hb|reflexivity].
    + exfalso. destruct Hs as (_ & _ & Hlt & _). lia.
  - intros A st n HA Hr Hc <-.
    destruct (sat_ok _ _ _ (sat_checkDominant st n HA Hr Hc))
      as (b & st' & Hrun & -> & Hiff).
    exists b. split; assumption.
Qed.

Lemma C3_checkDominant_witness :
  (exists b,
     checkDominant (call R_ulp empty_Matrix)
       = (Ok b, call R_ulp empty_Matrix) /\
     (b = false <-> exists i, 0 <= i < 3 /\ row_fails R_ulp i)) /\
  (exists b,
     checkDominant (call D_dominant empty_Matrix)
       = (Ok b, call D_dominant empty_Matrix) /\
     (b = true <-> forall i, 0 <= i < 3 -> dominant_row D_dominant i)).
Proof.
  split.
  - apply (proj1 C3_checkDominant_iff float double_scalar R_ulp
             (call R_ulp empty_Matrix) 3);
      try reflexivity; wf_literal.
  - apply (proj2 C3_checkDominant_iff D_dominant
             (call D_dominant empty_Matrix) 3);
      try reflexivity; wf_literal.
Defined.

(** The two scenarios of the specification for [checkDominant], over the
    rationals and over the doubles. *)
Example checkDominant_scenarios :
  fst (checkDominant (call D_dominant empty_Matrix)) = Ok true /\
  fst (checkDominant (call D_not_dominant empty_Matrix)) = Ok false /\
  fst (checkDominant
         (call (mkMatrix [[5; 1; 1]; [1; 4; 1]; [1; 1; 3]]%float 3 3)
               empty_Matrix)) = Ok true /\
  fst (checkDominant
         (call (mkMatrix [[1; 5; 1]; [1; 4; 1]; [1; 1; 3]]%float 3 3)
               empty_Matrix)) = Ok false.
Proof. repeat split; vm_compute; reflexivity. Qed.

(** C8. The round trip is broken for very large matrices: the copy counts
    the cells in an [int], which wraps at [2^31] and is then compared with
    the [size_t] length. For the well-formed, regular, non-empty matrix of
    [2^31] rows of one cell, the conversion to the flat form gives no flat
    matrix: it ends in [MalformedInput], the error of a matrix that "does
    not have regular shape". *)
Lemma C8_round_trip_overflow :
  let A : Matrix Q :=
    mkMatrix (replicate (Z.to_nat (2 ^ 31)) [0%Q]) (2 ^ 31) 1 in
  wf A /\ 0 < nrows_ A /\ 0 < ncols_ A /\
  fst (toContinuousMatrix (call A empty_Matrix)) = Err MalformedInput.
Proof.
  cbv zeta.
  assert (HN : Z.of_nat (Z.to_nat (2 ^ 31)) = 2 ^ 31) by (apply Z2Nat.id; lia).
  revert HN. generalize (Z.to_nat (2 ^ 31)). intros N HN.
  split; [|split; [|split]].
  - unfold wf. cbn [rows nrows_ ncols_].
    split; [unfold SIZE_MAX1; lia|]. split; [unfold SIZE_MAX1; lia|]. split.
    + unfold len. rewrite length_replicate. exact HN.
    + apply Forall_replicate. reflexivity.
  - cbn [nrows_]. lia.
  - cbn [ncols_]. lia.
  - rewrite (toContinuousMatrix_overflow N _ HN); reflexivity.
Qed.

(** ** Further properties of the code *)

(** X15. A well-formed, non-empty matrix with fewer than [2^31] cells (the
    range of the [int] counter of the copy) converts to the flat form with
    the cell [i][j] at offset [i * ncols + j], and converting that back
    gives a matrix identical to the original. Converting a matrix with no
    rows or no columns to the flat form ends in [MalformedInput]. *)
Theorem matrix_flat_matrix {T} `{Scalar T} (A : Matrix T) (st st2 : store T) :
  st this = A ->
  (wf A -> 0 < nrows_ A -> 0 < ncols_ A -> nrows_ A * ncols_ A < 2 ^ 31 ->
   exists cm,
     fst (toContinuousMatrix st) = Ok cm /\
     cm_nrows cm = nrows_ A /\ cm_ncols cm = ncols_ A /\
     cm_length cm = nrows_ A * ncols_ A /\
     (forall i j, 0 <= i < nrows_ A -> 0 <= j < ncols_ A ->
        cm_data cm !! Z.to_nat (i * ncols_ A + j) = cell A i j) /\
     exists st2',
       fromContinuousMatrix cm st2 = (Ok tt, st2') /\ st2' this = A) /\
  (nrows_ A = 0 \/ ncols_ A = 0 ->
   fst (toContinuousMatrix st) = Err MalformedInput).
Proof.
  intros <-. split.
  - intros HA Hr Hc Hsize.
    rewrite toContinuousMatrix_ok by assumption.
    eexists. split; [reflexivity|]. cbn [cm_nrows cm_ncols cm_length cm_data].
    split; [reflexivity|]. split; [reflexivity|]. split; [reflexivity|]. split.
    + intros i j Hi Hj. destruct HA as (_ & _ & _ & Hrows).
      rewrite (lookup_concat_rows (ncols_ (st this))) by (lia || assumption).
      unfold cell. destruct (Z.leb_spec 0 i), (Z.leb_spec 0 j); try lia.
      reflexivity.
    + destruct (fromContinuousMatrix_ok (st this) st2 HA Hr Hc Hsize)
        as (st2' & Hrun & Hthis & _).
      exists st2'. split; assumption.
  - intros Hz. rewrite toContinuousMatrix_empty by exact Hz. reflexivity.
Qed.

Lemma matrix_flat_matrix_witness :
  exists cm,
    fst (toContinuousMatrix (call A_23 empty_Matrix)) = Ok cm /\
    cm_nrows cm = nrows_ A_23 /\ cm_ncols cm = ncols_ A_23 /\
    cm_length cm = nrows_ A_23 * ncols_ A_23 /\
    (forall i j, 0 <= i < nrows_ A_23 -> 0 <= j < ncols_ A_23 ->
       cm_data cm !! Z.to_nat (i * ncols_ A_23 + j) = cell A_23 i j) /\
    exists st2',
      fromContinuousMatrix cm (call B_32 empty_Matrix) = (Ok tt, st2') /\
      st2' this = A_23.
Proof.
  apply (proj1 (matrix_flat_matrix A_23 (call A_23 empty_Matrix)
                  (call B_32 empty_Matrix) eq_refl));
    [wf_literal|simpl; lia|simpl; lia|simpl; lia].
Defined.


(** *** Sum and difference *)

Section AddSub.

Context {T : Type} `{Scalar T}.

Implicit Types (st : store T) (m : Matrix T).

Lemma sat_operator_add st :
  wf (st lhs) -> wf (st rhs) ->
  nrows_ (st lhs) = nrows_ (st rhs) -> ncols_ (st lhs) = ncols_ (st rhs) ->
  sat operator_add st
    (fun C st' =>
       nrows_ C = nrows_ (st lhs) /\ ncols_ C = ncols_ (st lhs) /\ wf C /\
       (forall i j, 0 <= i < nrows_ (st lhs) -> 0 <= j < ncols_ (st lhs) ->
          cell C i j = Some (s_add (at_ (st lhs) i j) (at_ (st rhs) i j))) /\
       agree_except mat_add st' st)
    no_err.
Proof.
  intros Hwfa Hwfb Hr Hc.
  pose proof (wf_shaped _ Hwfa) as Hsa. pose proof (wf_shaped _ Hwfb) as Hsb.
  set (a := st lhs) in *. set (b := st rhs) in *.
  assert (Hra : 0 <= nrows_ a < SIZE_MAX1) by (destruct Hwfa; lia).
  assert (Hca : 0 <= ncols_ a < SIZE_MAX1) by (destruct Hwfa as (_ & ? & _); lia).
  unfold operator_add. apply sat_bind, sat_construct. intros st1 _ Hag1.
  apply sat_bind, sat_get. apply sat_bind, sat_get.
  rewrite !Hag1 by discriminate. fold a b.
  rewrite Hr, Hc, !Z.eqb_refl. simpl. rewrite <- Hr, <- Hc.
  apply sat_bind, sat_resize. intros st2 Ht2 Hag2.
  apply sat_bind.
  eapply sat_mono;
    [apply (sat_fill mat_add (nrows_ a) (ncols_ a) _
              (fun i j => s_add (at_ a i j) (at_ b i j))
              (fun i j => i) (fun i j => j) st2)| |intros e st' []].
  - intros i j i' j' _ _ _ _ Hi Hj. auto.
  - intros i j Hi Hj. rewrite Ht2, cell_resize by lia. eauto.
  - intros i j st3 Hi Hj Hag3. unfold bind. rewrite rd_eq.
    rewrite (Hag3 lhs), (Hag2 lhs), (Hag1 lhs) by discriminate. fold a.
    rewrite (shaped_at _ _ a i j Hsa) by assumption.
    rewrite rd_eq.
    rewrite (Hag3 rhs), (Hag2 rhs), (Hag1 rhs) by discriminate. fold b.
    rewrite (shaped_at _ _ b i j Hsb) by lia. reflexivity.
  - intros [] st3 ((Hag3 & Hn3 & Hc3 & Hl3) & Hcells). apply sat_get.
    rewrite Ht2 in Hn3, Hc3. simpl in Hn3, Hc3.
    split; [exact Hn3|]. split; [exact Hc3|]. split; [|split].
    + apply shaped_wf; rewrite ?Hn3, ?Hc3; try lia.
      eapply row_lengths_shaped; [exact Hl3|]. rewrite Ht2.
      apply shaped_resize; lia.
    + intros i j Hi Hj. apply Hcells; assumption.
    + intros v Hv. rewrite Hag3, Hag2, Hag1 by exact Hv. reflexivity.
Qed.

Lemma sat_operator_sub st :
  wf (st lhs) -> wf (st rhs) ->
  nrows_ (st lhs) = nrows_ (st rhs) -> ncols_ (st lhs) = ncols_ (st rhs) ->
  sat operator_sub st
    (fun C st' =>
       nrows_ C = nrows_ (st lhs) /\ ncols_ C = ncols_ (st lhs) /\ wf C /\
       (forall i j, 0 <= i < nrows_ (st lhs) -> 0 <= j < ncols_ (st lhs) ->
          cell C i j = Some (s_sub (at_ (st lhs) i j) (at_ (st rhs) i j))) /\
       agree_except mat_minus st' st)
    no_err.
Proof.
  intros Hwfa Hwfb Hr Hc.
  pose proof (wf_shaped _ Hwfa) as Hsa. pose proof (wf_shaped _ Hwfb) as Hsb.
  set (a := st lhs) in *. set (b := st rhs) in *.
  assert (Hra : 0 <= nrows_ a < SIZE_MAX1) by (destruct Hwfa; lia).
  assert (Hca : 0 <= ncols_ a < SIZE_MAX1) by (destruct Hwfa as (_ & ? & _); lia).
  unfold operator_sub. apply sat_bind, sat_construct. intros st1 _ Hag1.
  apply sat_bind, sat_get. apply sat_bind, sat_get.
  rewrite !Hag1 by discriminate. fold a b.
  rewrite Hr, Hc, !Z.eqb_refl. simpl. rewrite <- Hr, <- Hc.
  apply sat_bind, sat_resize. intros st2 Ht2 Hag2.
  apply sat_bind.
  eapply sat_mono;
    [apply (sat_fill mat_minus (nrows_ a) (ncols_ a) _
              (fun i j => s_sub (at_ a i j) (at_ b i j))
              (fun i j => i) (fun i j => j) st2)| |intros e st' []].
  - intros i j i' j' _ _ _ _ Hi Hj. auto.
  - intros i j Hi Hj. rewrite Ht2, cell_resize by lia. eauto.
  - intros i j st3 Hi Hj Hag3. unfold bind. rewrite rd_eq.
    rewrite (Hag3 lhs), (Hag2 lhs), (Hag1 lhs) by discriminate. fold a.
    rewrite (shaped_at _ _ a i j Hsa) by assumption.
    rewrite rd_eq.
    rewrite (Hag3 rhs), (Hag2 rhs), (Hag1 rhs) by discriminate. fold b.
    rewrite (shaped_at _ _ b i j Hsb) by lia. reflexivity.
  - intros [] st3 ((Hag3 & Hn3 & Hc3 & Hl3) & Hcells). apply sat_get.
    rewrite Ht2 in Hn3, Hc3. simpl in Hn3, Hc3.
    split; [exact Hn3|]. split; [exact Hc3|]. split; [|split].
    + apply shaped_wf; rewrite ?Hn3, ?Hc3; try lia.
      eapply row_lengths_shaped; [exact Hl3|]. rewrite Ht2.
      apply shaped_resize; lia.
    + intros i j Hi Hj. apply Hcells; assumption.
    + intros v Hv. rewrite Hag3, Hag2, Hag1 by exact Hv. reflexivity.
Qed.

End AddSub.

(** X5. For well-formed operands of one shape, [lhs + rhs] succeeds with a
    well-formed matrix of that shape whose cell [i][j] is
    [lhs[i][j] + rhs[i][j]]. *)
Theorem add_cells {T} `{Scalar T} (A B : Matrix T) (st : store T) :
  wf A -> wf B -> st lhs = A -> st rhs = B ->
  nrows_ A = nrows_ B -> ncols_ A = ncols_ B ->
  exists C,
    fst (operator_add st) = Ok C /\
    nrows_ C = nrows_ A /\ ncols_ C = ncols_ A /\ wf C /\
    forall i j, 0 <= i < nrows_ A -> 0 <= j < ncols_ A ->
      exists a b, cell A i j = Some a /\ cell B i j = Some b /\
                  cell C i j = Some (s_add a b).
Proof.
  intros HA HB <- <- Hr Hc.
  destruct (sat_ok _ _ _ (sat_operator_add st HA HB Hr Hc))
    as (C & st' & Hrun & Hn & Hc' & Hwf & Hcells & _).
  exists C. rewrite Hrun. repeat (split; [assumption || reflexivity|]).
  intros i j Hi Hj. exists (at_ (st lhs) i j), (at_ (st rhs) i j).
  split; [apply (shaped_at _ _ _ i j (wf_shaped _ HA)); assumption|].
  split; [apply (shaped_at _ _ _ i j (wf_shaped _ HB)); lia|].
  apply Hcells; assumption.
Qed.

Lemma add_cells_witness :
  exists C,
    fst (operator_add (call A_23 A_23)) = Ok C /\
    nrows_ C = nrows_ A_23 /\ ncols_ C = ncols_ A_23 /\ wf C /\
    forall i j, 0 <= i < nrows_ A_23 -> 0 <= j < ncols_ A_23 ->
      exists a b, cell A_23 i j = Some a /\ cell A_23 i j = Some b /\
                  cell C i j = Some (s_add a b).
Proof.
  apply (add_cells A_23 A_23 (call A_23 A_23)); try reflexivity; wf_literal.
Defined.

(** X6. For well-formed operands of one shape, [lhs - rhs] succeeds with a
    well-formed matrix of that shape whose cell [i][j] is
    [lhs[i][j] - rhs[i][j]]. *)
Theorem sub_cells {T} `{Scalar T} (A B : Matrix T) (st : store T) :
  wf A -> wf B -> st lhs = A -> st rhs = B ->
  nrows_ A = nrows_ B -> ncols_ A = ncols_ B ->
  exists C,
    fst (operator_sub st) = Ok C /\
    nrows_ C = nrows_ A /\ ncols_ C = ncols_ A /\ wf C /\
    forall i j, 0 <= i < nrows_ A -> 0 <= j < ncols_ A ->
      exists a b, cell A i j = Some a /\ cell B i j = Some b /\
                  cell C i j = Some (s_sub a b).
Proof.
  intros HA HB <- <- Hr Hc.
  destruct (sat_ok _ _ _ (sat_operator_sub st HA HB Hr Hc))
    as (C & st' & Hrun & Hn & Hc' & Hwf & Hcells & _).
  exists C. rewrite Hrun. repeat (split; [assumption || reflexivity|]).
  intros i j Hi Hj. exists (at_ (st lhs) i j), (at_ (st rhs) i j).
  split; [apply (shaped_at _ _ _ i j (wf_shaped _ HA)); assumption|].
  split; [apply (shaped_at _ _ _ i j (wf_shaped _ HB)); lia|].
  apply Hcells; assumption.
Qed.

Lemma sub_cells_witness :
  exists C,
    fst (operator_sub (call A_23 A_23)) = Ok C /\
    nrows_ C = nrows_ A_23 /\ ncols_ C = ncols_ A_23 /\ wf C /\
    forall i j, 0 <= i < nrows_ A_23 -> 0 <= j < ncols_ A_23 ->
      exists a b, cell A_23 i j = Some a /\ cell A_23 i j = Some b /\
                  cell C i j = Some (s_sub a b).
Proof.
  apply (sub_cells A_23 A_23 (call A_23 A_23)); try reflexivity; wf_literal.
Defined.

(** *** Assignment and construction *)

(** X8. [dst = src] and the copy constructor [Matrix dst(src)] make [dst]
    equal to a well-formed [src], members and all cells, whatever [dst] held
    before, and change no other object; assigning an object to itself
    changes nothing. *)
Theorem assign_copies {T} `{Scalar T} (dst src : var) (st : store T) :
  wf (st src) ->
  (dst <> src ->
   (exists st', assign dst src st = (Ok tt, st') /\
                st' dst = st src /\ forall v, v <> dst -> st' v = st v) /\
   (exists st', copy_construct dst src st = (Ok tt, st') /\
                st' dst = st src /\ forall v, v <> dst -> st' v = st v)) /\
  assign src src st = (Ok tt, st).
Proof.
  intros Hwf. split.
  - intros Hne. split.
    + destruct (sat_ok (assign dst src) st
                  (fun _ st' => st' dst = st src /\ agree_except dst st' st))
        as ([] & st' & Hrun & Hd & Hag); [apply sat_assign; auto|].
      exists st'. auto.
    + destruct (sat_ok (copy_construct dst src) st
                  (fun _ st' => st' dst = st src /\ agree_except dst st' st))
        as ([] & st' & Hrun & Hd & Hag); [apply sat_copy_construct; auto|].
      exists st'. auto.
  - unfold assign. destruct (decide (src = src)); [reflexivity|congruence].
Qed.

Lemma assign_copies_witness :
  exists st', assign mat this (call A_23 B_32) = (Ok tt, st') /\
              st' mat = call A_23 B_32 this /\
              forall v, v <> mat -> st' v = call A_23 B_32 v.
Proof.
  apply (proj1 (proj1 (assign_copies mat this (call A_23 B_32)
                         ltac:(wf_literal)) ltac:(discriminate))).
Defined.

(** X9. [Matrix v(nrows, ncols)] (and [Matrix v(nsize)]) builds a
    well-formed matrix of that shape with every cell zero, whatever the
    store held for [v], and changes no other object. *)
Theorem construct_zero {T} `{Scalar T} (v : var) (r c : Z) (st : store T) :
  0 <= r < SIZE_MAX1 -> 0 <= c < SIZE_MAX1 ->
  exists st',
    construct v r c st = (Ok tt, st') /\
    wf (st' v) /\ nrows_ (st' v) = r /\ ncols_ (st' v) = c /\
    (forall i j, 0 <= i < r -> 0 <= j < c -> cell (st' v) i j = Some s_zero) /\
    forall v', v' <> v -> st' v' = st v'.
Proof.
  intros Hr Hc.
  destruct (sat_ok (construct v r c) st
              (fun _ st' => st' v = resize_Matrix r c empty_Matrix /\
                            agree_except v st' st))
    as ([] & st' & Hrun & Hv & Hag); [apply sat_construct; auto|].
  exists st'. split; [exact Hrun|]. rewrite Hv.
  split; [apply shaped_wf; simpl; try lia; apply shaped_resize; lia|].
  split; [reflexivity|]. split; [reflexivity|]. split; [|exact Hag].
  intros i j Hi Hj. rewrite cell_resize, cell_empty by lia. reflexivity.
Qed.

Lemma construct_zero_witness :
  exists st',
    construct mat_t 2 3 (call A_23 B_32) = (Ok tt, st') /\
    wf (st' mat_t) /\ nrows_ (st' mat_t) = 2 /\ ncols_ (st' mat_t) = 3 /\
    (forall i j, 0 <= i < 2 -> 0 <= j < 3 ->
       cell (st' mat_t) i j = Some s_zero) /\
    forall v', v' <> mat_t -> st' v' = call A_23 B_32 v'.
Proof. apply construct_zero; unfold SIZE_MAX1; lia. Defined.

(** *** [checkDominant] on matrices that are not square *)

(** X10. On a well-formed matrix with at most as many rows as columns
    [checkDominant] returns, leaves the store as it was, and answers [false]
    exactly when some row fails the test of the source. On a well-formed
    matrix with more rows than columns it answers [false] when one of the
    first [ncols] rows fails that test; when none does, it goes on to read
    the diagonal cell of the row [ncols], which lies outside that row. *)
Theorem checkDominant_not_square {T} `{Scalar T} (st : store T) :
  wf (st this) ->
  (nrows_ (st this) <= ncols_ (st this) ->
   exists b,
     checkDominant st = (Ok b, st) /\
     (b = false <->
      exists i, 0 <= i < nrows_ (st this) /\ row_fails (st this) i)) /\
  (ncols_ (st this) < nrows_ (st this) ->
   ((exists i, 0 <= i < ncols_ (st this) /\ row_fails (st this) i) ->
    checkDominant st = (Ok false, st)) /\
   ((forall i, 0 <= i < ncols_ (st this) -> ~ row_fails (st this) i) ->
    checkDominant st = (Err OutOfBounds, st))).
Proof.
  intros Hwf. pose proof (sat_checkDominant_rows st Hwf) as Hs.
  unfold sat in Hs. destruct (checkDominant st) as [[[]|e] st'].
  - destruct Hs as (-> & Hle & Hall). split; intros Hshape; [|lia].
    exists true. split; [reflexivity|]. split; [discriminate|].
    intros (i & Hi & Hfail). exfalso. exact (Hall i Hi Hfail).
  - destruct Hs as (-> & i & Hi & Hfail). split; intros Hshape.
    + exists false. split; [reflexivity|]. split; [eauto|reflexivity].
    + split; [reflexivity|]. intros Hall. exfalso.
      apply (Hall i); [|exact Hfail].
      destruct Hfail as (row & d & Hrow & Hd & _).
      apply lookup_lt_Some in Hd.
      destruct Hwf as (_ & _ & _ & Hrows).
      rewrite Forall_forall in Hrows.
      specialize (Hrows row (list_elem_of_lookup_2 _ _ _ Hrow)).
      unfold len in Hrows. lia.
  - destruct Hs as (-> & -> & Hlt & Hall). split; intros Hshape; [lia|].
    split; [|reflexivity]. intros (i & Hi & Hfail). exfalso.
    exact (Hall i Hi Hfail).
Qed.

Lemma checkDominant_not_square_witness :
  (exists b,
     checkDominant (call A_23 B_32) = (Ok b, call A_23 B_32) /\
     (b = false <-> exists i, 0 <= i < nrows_ A_23 /\ row_fails A_23 i)) /\
  checkDominant (call B_32 A_23) = (Err OutOfBounds, call B_32 A_23).
Proof.
  split.
  - apply (proj1 (checkDominant_not_square (call A_23 B_32) ltac:(wf_literal))).
    simpl. lia.
  - apply (proj2 (proj2 (checkDominant_not_square (call B_32 A_23)
                            ltac:(wf_literal)) ltac:(simpl; lia))).
    intros i Hi (row & d & Hrow & Hd & Hfail). cbn [call ncols_ B_32] in Hi.
    assert (i = 0 \/ i = 1) as [-> | ->] by lia;
      cbn in Hrow; injection Hrow as <-; cbn in Hd; injection Hd as <-;
      vm_compute in Hfail; discriminate.
Defined.

(** *** The flat buffer, in both directions *)

Section FlatMore.

Context {T : Type} `{Scalar T}.

Implicit Types (st : store T) (m : Matrix T).

(** Copying rows of any lengths out: the copy succeeds when the rows fit in
    what is left of the buffer, and runs past its end otherwise. *)
Lemma for_each_copy_out_gen (rs : list (list T)) :
  forall pre junk,
    len pre + len (concat rs) < 2 ^ 31 ->
    for_each rs row_copy_out (pre ++ junk, len pre)
    = if len (concat rs) <=? len junk
      then Ok (pre ++ concat rs ++ drop (length (concat rs)) junk,
               len pre + len (concat rs))
      else Err OutOfBounds.
Proof.
  induction rs as [|row rs IH]; intros pre junk Hsize.
  - simpl. rewrite (len_nil (A := T)).
    pose proof (len_nonneg junk).
    destruct (Z.leb_spec 0 (len junk)); [|lia].
    rewrite drop_0, Z.add_0_r. reflexivity.
  - simpl in *. rewrite !len_app. rewrite len_app in Hsize.
    pose proof (len_nonneg row). pose proof (len_nonneg (concat rs)).
    pose proof (len_nonneg pre). pose proof (len_nonneg junk).
    destruct (Z.leb_spec 0 (len pre)); [|lia].
    destruct (Z.leb_spec (len pre + len row) (len pre + len junk)) as [Hfit|Hno].
    + simpl. rewrite !to_nat_len, take_app_length, drop_app_add.
      rewrite to_int_small by lia.
      rewrite app_assoc, <- len_app, IH by (rewrite len_app; lia).
      assert (Hlj : len (drop (length row) junk) = len junk - len row).
      { unfold len in *. rewrite length_drop. lia. }
      rewrite Hlj.
      destruct (Z.leb_spec (len (concat rs)) (len junk - len row)),
               (Z.leb_spec (len row + len (concat rs)) (len junk)); try lia;
        [|reflexivity].
      rewrite length_app, drop_drop, <- !app_assoc, len_app.
      do 2 f_equal. lia.
    + simpl.
      destruct (Z.leb_spec (len row + len (concat rs)) (len junk)); [lia|].
      reflexivity.
Qed.

(** [toContinuousMatrix] compares only the number of cells copied with
    [nrows * ncols]. *)
Lemma toContinuousMatrix_count st :
  0 < nrows_ (st this) -> 0 < ncols_ (st this) ->
  nrows_ (st this) * ncols_ (st this) < 2 ^ 31 ->
  len (concat (rows (st this))) < 2 ^ 31 ->
  toContinuousMatrix st
  = (match len (concat (rows (st this)))
           ?= nrows_ (st this) * ncols_ (st this) with
     | Eq => Ok (mkCM (nrows_ (st this)) (ncols_ (st this))
                      (nrows_ (st this) * ncols_ (st this))
                      (concat (rows (st this))))
     | Lt => Err MalformedInput
     | Gt => Err OutOfBounds
     end, st).
Proof.
  intros Hr Hc HL HS.
  set (A := st this) in *. set (r := nrows_ A) in *. set (c := ncols_ A) in *.
  set (S := len (concat (rows A))) in *.
  assert (Hmul : size_mul r c = r * c).
  { unfold size_mul, SIZE_MAX1. apply Z.mod_small. nia. }
  assert (HS0 : 0 <= S) by apply len_nonneg.
  unfold toContinuousMatrix, bind, get, lift. fold A r c.
  destruct (Z.eqb_spec r 0); [lia|]. destruct (Z.eqb_spec c 0); [lia|].
  cbn [orb]. cbv beta iota zeta. rewrite Hmul.
  change (replicate (Z.to_nat (r * c)) s_zero, 0)
    with ([] ++ replicate (Z.to_nat (r * c)) s_zero, len (@nil T)).
  rewrite for_each_copy_out_gen by (rewrite len_nil; fold S; lia).
  fold S.
  assert (Hlr : len (replicate (Z.to_nat (r * c)) (s_zero (T := T))) = r * c).
  { unfold len. rewrite length_replicate. nia. }
  rewrite Hlr.
  destruct (Z.compare_spec S (r * c)) as [Heq|Hlt|Hgt].
  - destruct (Z.leb_spec S (r * c)); [|lia]. cbn [snd fst app].
    rewrite len_nil, Z.add_0_l, Z.mod_small by (unfold SIZE_MAX1; lia).
    destruct (Z.eqb_spec S (r * c)); [|lia]. cbn [negb].
    rewrite drop_ge, app_nil_r; [reflexivity|].
    unfold S, len in Heq. rewrite length_replicate. lia.
  - destruct (Z.leb_spec S (r * c)); [|lia]. cbn [snd fst app].
    rewrite len_nil, Z.add_0_l, Z.mod_small by (unfold SIZE_MAX1; lia).
    destruct (Z.eqb_spec S (r * c)); [lia|]. reflexivity.
  - destruct (Z.leb_spec S (r * c)); [lia|]. reflexivity.
Qed.

(** Copying a buffer in, into rows of [c] cells each, from the run [s] on:
    the rows become the runs of the buffer when it is long enough, and the
    copy reads past its end otherwise. *)
Lemma for_each_copy_in_chunks (data : list T) (c : nat) (rs : list (list T)) :
  Forall (fun r => length r = c) rs ->
  forall filled (s : nat),
    Z.of_nat ((s + length rs) * c) < 2 ^ 31 ->
    for_each rs (row_copy_in data) (filled, Z.of_nat (s * c))
    = if Z.of_nat ((s + length rs) * c) <=? len data
      then Ok (filled ++ (chunk c data <$> seq s (length rs)),
               Z.of_nat ((s + length rs) * c))
      else if decide (rs = []) then Ok (filled, Z.of_nat (s * c))
      else Err OutOfBounds.
Proof.
  induction 1 as [|row rs Hrow Hrs IH]; intros filled s Hsize.
  - simpl. rewrite Nat.add_0_r, app_nil_r.
    destruct (_ <=? _); reflexivity.
  - cbn [for_each row_copy_in length].
    destruct (decide (row :: rs = [])) as [|_]; [discriminate|].
    destruct (Z.leb_spec 0 (Z.of_nat (s * c))); [|lia].
    assert (Hlr : len row = Z.of_nat c) by (unfold len; lia).
    rewrite Hlr, Hrow. cbn [length] in Hsize.
    destruct (Z.leb_spec (Z.of_nat (s * c) + Z.of_nat c) (len data))
      as [Hfit|Hno].
    + cbn [andb]. rewrite to_int_small by nia.
      replace (Z.of_nat (s * c) + Z.of_nat c) with (Z.of_nat (S s * c)) by lia.
      rewrite IH by (replace (S s + length rs)%nat
                       with (s + S (length rs))%nat by lia; exact Hsize).
      replace (S s + length rs)%nat with (s + S (length rs))%nat by lia.
      rewrite Nat2Z.id.
      destruct (Z.leb_spec (Z.of_nat ((s + S (length rs)) * c)) (len data)).
      * rewrite <- app_assoc. reflexivity.
      * destruct (decide (rs = [])) as [->|]; [|reflexivity].
        simpl in *. lia.
    + cbn [andb].
      destruct (Z.leb_spec (Z.of_nat ((s + S (length rs)) * c)) (len data));
        [nia|reflexivity].
Qed.

Lemma lookup_chunk (c : nat) (data : list T) (i j : nat) :
  (j < c)%nat -> chunk c data i !! j = data !! (i * c + j)%nat.
Proof.
  intros Hj. unfold chunk. rewrite lookup_take_lt by exact Hj.
  apply lookup_drop.
Qed.

Lemma length_chunk (c : nat) (data : list T) (i : nat) :
  (S i * c <= length data)%nat -> length (chunk c data i) = c.
Proof.
  intros Hi. unfold chunk. rewrite length_take, length_drop. simpl in Hi. lia.
Qed.

Lemma concat_chunks (c : nat) (data : list T) (n : nat) :
  (n * c <= length data)%nat ->
  concat (chunk c data <$> seq 0 n) = take (n * c) data.
Proof.
  induction n as [|n IH]; intros Hn; [reflexivity|].
  rewrite seq_S, fmap_app, concat_app, IH by (simpl in Hn; lia).
  simpl. rewrite app_nil_r. unfold chunk.
  replace (c + n * c)%nat with (n * c + c)%nat by lia.
  rewrite <- take_take_drop. reflexivity.
Qed.

(** What [fromContinuousMatrix] leaves in the receiver. *)
Lemma sat_fromContinuousMatrix (cm : continuousMatrix T) st :
  0 < cm_nrows cm < SIZE_MAX1 -> 0 < cm_ncols cm < SIZE_MAX1 ->
  cm_nrows cm * cm_ncols cm < 2 ^ 31 ->
  cm_nrows cm * cm_ncols cm <= len (cm_data cm) ->
  sat (fromContinuousMatrix cm) st
    (fun _ st' =>
       st' this = mkMatrix (chunk (Z.to_nat (cm_ncols cm)) (cm_data cm)
                              <$> seq 0 (Z.to_nat (cm_nrows cm)))
                           (cm_nrows cm) (cm_ncols cm) /\
       agree_except this st' st)
    no_err.
Proof.
  intros Hr Hc Hsize Hdata.
  set (r := cm_nrows cm) in *. set (c := cm_ncols cm) in *.
  unfold fromContinuousMatrix. fold r c.
  destruct (Z.eqb_spec r 0); [lia|]. destruct (Z.eqb_spec c 0); [lia|].
  cbn [orb].
  apply sat_bind, sat_resize. intros st1 Ht1 Hag1.
  apply sat_bind, sat_get. apply sat_bind, sat_lift.
  destruct (shaped_resize r c (st this)) as [Hlen Hrows]; [lia|lia|].
  rewrite <- Ht1 in Hlen, Hrows.
  change ([], 0) with (@nil (list T), Z.of_nat (0 * Z.to_nat c)).
  rewrite (for_each_copy_in_chunks _ (Z.to_nat c)).
  - replace (length (rows (st1 this))) with (Z.to_nat r)
      by (unfold len in Hlen; lia).
    destruct (Z.leb_spec (Z.of_nat ((0 + Z.to_nat r) * Z.to_nat c))
                         (len (cm_data cm))); [|nia].
    apply sat_put. split.
    + rewrite upd_same, Ht1. reflexivity.
    + intros v Hv. rewrite upd_other by exact Hv. apply Hag1. exact Hv.
  - eapply Forall_impl; [exact Hrows|]. intros row Hrow. simpl in Hrow.
    unfold len in Hrow. lia.
  - unfold len in Hlen. nia.
Qed.

End FlatMore.

(** X11. From a flat record with positive [nrows] and [ncols], fewer than
    [2^31] cells and a buffer of at least [nrows * ncols] doubles,
    [fromContinuousMatrix] makes the receiver, whatever it held, the
    well-formed [nrows x ncols] matrix whose cell [i][j] is the buffer's
    element at offset [i * ncols + j]; no other object changes. *)
Theorem fromContinuousMatrix_cells {T} `{Scalar T}
    (cm : continuousMatrix T) (st : store T) :
  0 < cm_nrows cm < SIZE_MAX1 -> 0 < cm_ncols cm < SIZE_MAX1 ->
  cm_nrows cm * cm_ncols cm < 2 ^ 31 ->
  cm_nrows cm * cm_ncols cm <= len (cm_data cm) ->
  exists st',
    fromContinuousMatrix cm st = (Ok tt, st') /\
    wf (st' this) /\
    nrows_ (st' this) = cm_nrows cm /\ ncols_ (st' this) = cm_ncols cm /\
    (forall i j, 0 <= i < cm_nrows cm -> 0 <= j < cm_ncols cm ->
       exists x, cm_data cm !! Z.to_nat (i * cm_ncols cm + j) = Some x /\
                 cell (st' this) i j = Some x) /\
    forall v, v <> this -> st' v = st v.
Proof.
  intros Hr Hc Hsize Hdata.
  destruct (sat_ok _ _ _ (sat_fromContinuousMatrix cm st Hr Hc Hsize Hdata))
    as ([] & st' & Hrun & Hthis & Hag).
  exists st'. split; [exact Hrun|]. rewrite Hthis.
  set (r := cm_nrows cm) in *. set (c := cm_ncols cm) in *.
  assert (Hrow : forall i : nat, (i < Z.to_nat r)%nat ->
            (chunk (Z.to_nat c) (cm_data cm) <$> seq 0 (Z.to_nat r)) !! i
            = Some (chunk (Z.to_nat c) (cm_data cm) i)).
  { intros i Hi. rewrite list_lookup_fmap, lookup_seq_lt by exact Hi.
    reflexivity. }
  split; [|split; [reflexivity|split; [reflexivity|split; [|exact Hag]]]].
  - apply shaped_wf; cbn [nrows_ ncols_]; try lia. split; cbn [rows].
    + unfold len. rewrite length_fmap, length_seq. lia.
    + apply Forall_forall. intros row Hin.
      apply list_elem_of_fmap in Hin as (i & -> & Hi).
      apply elem_of_seq in Hi. unfold len.
      rewrite length_chunk; [lia|]. unfold len in Hdata. nia.
  - intros i j Hi Hj.
    destruct (lookup_lt_is_Some_2 (cm_data cm) (Z.to_nat (i * c + j)))
      as [x Hx]; [unfold len in Hdata; nia|].
    exists x. split; [exact Hx|].
    rewrite (cell_lookup _ i j (chunk (Z.to_nat c) (cm_data cm) (Z.to_nat i)))
      by (lia || (cbn [rows]; apply Hrow; lia)).
    rewrite lookup_chunk by lia. rewrite <- Hx. f_equal. nia.
Qed.

Lemma fromContinuousMatrix_cells_witness :
  exists st',
    fromContinuousMatrix F_23 (call B_32 B_32) = (Ok tt, st') /\
    wf (st' this) /\
    nrows_ (st' this) = cm_nrows F_23 /\ ncols_ (st' this) = cm_ncols F_23 /\
    (forall i j, 0 <= i < cm_nrows F_23 -> 0 <= j < cm_ncols F_23 ->
       exists x, cm_data F_23 !! Z.to_nat (i * cm_ncols F_23 + j) = Some x /\
                 cell (st' this) i j = Some x) /\
    forall v, v <> this -> st' v = call B_32 B_32 v.
Proof.
  apply fromContinuousMatrix_cells; simpl; unfold SIZE_MAX1, len; simpl; lia.
Defined.

(** X12. The round trip from the flat side: for a flat record whose [length]
    is [nrows * ncols], the size of its buffer (positive counts, fewer than
    [2^31] cells), [fromContinuousMatrix] followed by [toContinuousMatrix]
    on the receiver gives the record back, exactly. *)
Theorem flat_matrix_flat {T} `{Scalar T}
    (cm : continuousMatrix T) (st : store T) :
  0 < cm_nrows cm < SIZE_MAX1 -> 0 < cm_ncols cm < SIZE_MAX1 ->
  cm_nrows cm * cm_ncols cm < 2 ^ 31 ->
  cm_length cm = cm_nrows cm * cm_ncols cm ->
  len (cm_data cm) = cm_nrows cm * cm_ncols cm ->
  exists st',
    fromContinuousMatrix cm st = (Ok tt, st') /\
    toContinuousMatrix st' = (Ok cm, st').
Proof.
  intros Hr Hc Hsize Hlen Hdata.
  destruct (fromContinuousMatrix_cells cm st Hr Hc Hsize ltac:(lia))
    as (st' & Hrun & Hwf & Hn & Hc' & _ & _).
  destruct (sat_ok _ _ _ (sat_fromContinuousMatrix cm st Hr Hc Hsize ltac:(lia)))
    as ([] & st'' & Hrun' & Hthis & _).
  rewrite Hrun in Hrun'. injection Hrun' as <-.
  exists st'. split; [exact Hrun|].
  rewrite toContinuousMatrix_ok by (rewrite ?Hn, ?Hc'; (assumption || lia)).
  rewrite Hn, Hc', Hthis. cbn [rows].
  rewrite concat_chunks by (unfold len in Hdata; nia).
  rewrite take_ge by (unfold len in Hdata; nia).
  destruct cm as [r c l d]. simpl in *. subst l. reflexivity.
Qed.

Lemma flat_matrix_flat_witness :
  exists st',
    fromContinuousMatrix F_23 (call B_32 B_32) = (Ok tt, st') /\
    toContinuousMatrix st' = (Ok F_23, st').
Proof.
  apply flat_matrix_flat; simpl; unfold SIZE_MAX1, len; simpl; lia.
Defined.

(** X13. [fromContinuousMatrix] rejects a flat record with no rows or no
    columns with [MalformedInput], before it touches the receiver; with
    positive counts (fewer than [2^31] cells) and a buffer shorter than
    [nrows * ncols] the copy reads past the end of the buffer. *)
Theorem fromContinuousMatrix_errors {T} `{Scalar T}
    (cm : continuousMatrix T) (st : store T) :
  (cm_nrows cm = 0 \/ cm_ncols cm = 0 ->
   fromContinuousMatrix cm st = (Err MalformedInput, st)) /\
  (0 < cm_nrows cm < SIZE_MAX1 -> 0 < cm_ncols cm < SIZE_MAX1 ->
   cm_nrows cm * cm_ncols cm < 2 ^ 31 ->
   len (cm_data cm) < cm_nrows cm * cm_ncols cm ->
   fst (fromContinuousMatrix cm st) = Err OutOfBounds).
Proof.
  split.
  - intros Hz. unfold fromContinuousMatrix.
    destruct (Z.eqb_spec (cm_nrows cm) 0); [reflexivity|].
    destruct (Z.eqb_spec (cm_ncols cm) 0); [reflexivity|]. lia.
  - intros Hr Hc Hsize Hshort. apply sat_err.
    set (r := cm_nrows cm) in *. set (c := cm_ncols cm) in *.
    unfold fromContinuousMatrix. fold r c.
    destruct (Z.eqb_spec r 0); [lia|]. destruct (Z.eqb_spec c 0); [lia|].
    cbn [orb].
    apply sat_bind, sat_resize. intros st1 Ht1 Hag1.
    apply sat_bind, sat_get. apply sat_bind, sat_lift.
    destruct (shaped_resize r c (st this)) as [Hlen Hrows]; [lia|lia|].
    rewrite <- Ht1 in Hlen, Hrows.
    change ([], 0) with (@nil (list T), Z.of_nat (0 * Z.to_nat c)).
    rewrite (for_each_copy_in_chunks _ (Z.to_nat c)).
    + replace (length (rows (st1 this))) with (Z.to_nat r)
        by (unfold len in Hlen; lia).
      destruct (Z.leb_spec (Z.of_nat ((0 + Z.to_nat r) * Z.to_nat c))
                           (len (cm_data cm))); [nia|].
      destruct (decide (rows (st1 this) = [])) as [Hnil|_]; [|reflexivity].
      rewrite Hnil in Hlen. unfold len in Hlen. simpl in Hlen. lia.
    + eapply Forall_impl; [exact Hrows|]. intros row Hrow. simpl in Hrow.
      unfold len in Hrow. lia.
    + unfold len in Hlen. nia.
Qed.

Lemma fromContinuousMatrix_errors_witness :
  fromContinuousMatrix (mkCM 0 3 0 []) (call A_23 B_32)
    = (Err MalformedInput, call A_23 B_32) /\
  fst (fromContinuousMatrix (mkCM 2 3 6 [1; 2; 3; 4; 5]%Q) (call A_23 B_32))
    = Err OutOfBounds.
Proof.
  split.
  - apply (proj1 (fromContinuousMatrix_errors (mkCM 0 3 0 []) (call A_23 B_32))).
    left. reflexivity.
  - apply (proj2 (fromContinuousMatrix_errors
                    (mkCM 2 3 6 [1; 2; 3; 4; 5]%Q) (call A_23 B_32)));
      simpl; unfold SIZE_MAX1, len; simpl; lia.
Defined.

(** X14. The regular-shape test of [toContinuousMatrix] compares only the
    number of cells copied with [nrows * ncols] (positive counts, both
    numbers below [2^31]): with fewer cells the call ends in
    [MalformedInput]; with more, the copy writes past the end of the buffer;
    with exactly as many it returns the rows laid end to end, also when the
    rows are not of one length. *)
Theorem toContinuousMatrix_counts_cells {T} `{Scalar T} (st : store T) :
  0 < nrows_ (st this) -> 0 < ncols_ (st this) ->
  nrows_ (st this) * ncols_ (st this) < 2 ^ 31 ->
  len (concat (rows (st this))) < 2 ^ 31 ->
  (len (concat (rows (st this))) < nrows_ (st this) * ncols_ (st this) ->
   toContinuousMatrix st = (Err MalformedInput, st)) /\
  (len (concat (rows (st this))) > nrows_ (st this) * ncols_ (st this) ->
   toContinuousMatrix st = (Err OutOfBounds, st)) /\
  (len (concat (rows (st this))) = nrows_ (st this) * ncols_ (st this) ->
   toContinuousMatrix st
   = (Ok (mkCM (nrows_ (st this)) (ncols_ (st this))
               (nrows_ (st this) * ncols_ (st this))
               (concat (rows (st this)))), st)).
Proof.
  intros Hr Hc HL HS. rewrite (toContinuousMatrix_count st Hr Hc HL HS).
  destruct (Z.compare_spec (len (concat (rows (st this))))
                           (nrows_ (st this) * ncols_ (st this)));
    repeat split; intros; (reflexivity || lia).
Qed.

Lemma toContinuousMatrix_counts_cells_witness :
  toContinuousMatrix (call J_13 B_32)
  = (Ok (mkCM 2 2 4 [1; 2; 3; 4]%Q), call J_13 B_32).
Proof.
  apply (proj2 (proj2 (toContinuousMatrix_counts_cells (call J_13 B_32)
                         ltac:(simpl; lia) ltac:(simpl; lia)
                         ltac:(simpl; lia) ltac:(unfold len; simpl; lia)))).
  reflexivity.
Defined.

(** *** No pivoting *)

(** X4. [inverse] does not permute rows: on a well-formed square matrix
    with at least one row whose leading entry [a[0][0]] is below the zero
    threshold in magnitude, it ends in [SingularMatrix], whatever the rest
    of the matrix. *)
Theorem inverse_leading_zero {T} `{Scalar T} (st : store T) (n : Z) (x : T) :
  wf (st this) -> nrows_ (st this) = n -> ncols_ (st this) = n -> 1 <= n ->
  cell (st this) 0 0 = Some x -> near_zero x = true ->
  fst (inverse st) = Err SingularMatrix.
Proof.
  intros Hwf Hr Hc Hn Hx Hnz.
  destruct (inverse_singular_iff st n Hwf Hr Hc) as (st1 & Hinit & Hiff).
  destruct (sat_ok inverse_init st (fun _ st1 => st1 mat = st this))
    as (n' & st1' & Hinit' & Hmat).
  { apply (sat_inverse_init st n); auto. }
  rewrite Hinit in Hinit'. injection Hinit' as _ <-.
  assert (Hpiv : pivot_near_zero st1 0).
  { exists x. rewrite Hmat. auto. }
  apply Hiff. destruct (decide (n = 1)) as [->|Hn1].
  - right. exists st1. split.
    + unfold inverse_forward. change (size_sub 1 1) with 0.
      apply for_loop_nil.
    + exists 0. split; [lia|exact Hpiv].
  - left. exists 0, st1. split; [lia|]. split; [apply for_loop_nil|exact Hpiv].
Qed.

Lemma inverse_leading_zero_witness :
  fst (inverse (call P_0110 empty_Matrix)) = Err SingularMatrix.
Proof.
  apply (inverse_leading_zero (call P_0110 empty_Matrix) 2 0%Q);
    try reflexivity; try lia; wf_literal.
Defined.

(** *** [inverse]: what each pass does to the cells *)

Section InverseCells.

Context {T : Type} `{Scalar T}.

Implicit Types (st : store T) (m : Matrix T).

(** A loop over the columns [j >= lo] of row [i] of a working matrix, each
    iteration storing [g j] of the old cell into [v[i][j]]. *)
Lemma sat_row_map n v i lo (g : Z -> T -> T) (body : Z -> M T unit) st E :
  v = mat \/ v = mat_inv -> working n st -> 0 <= i < n -> 0 <= lo ->
  (forall j st', lo <= j < n -> working n st' -> agree_except v st' st ->
     (forall i' j', i' <> i -> cell (st' v) i' j' = cell (st v) i' j') ->
     (forall j', j <= j' -> cell (st' v) i j' = cell (st v) i j') ->
     body j st' = wr v i j (g j (at_ (st v) i j)) st') ->
  sat (for_loop lo n body) st
    (fun _ st' =>
       working n st' /\ agree_except v st' st /\
       nrows_ (st' v) = nrows_ (st v) /\ ncols_ (st' v) = ncols_ (st v) /\
       (forall i' j', i' <> i -> cell (st' v) i' j' = cell (st v) i' j') /\
       forall j, 0 <= j < n ->
         at_ (st' v) i j
         = if decide (lo <= j) then g j (at_ (st v) i j) else at_ (st v) i j)
    E.
Proof.
  intros Hv Hw Hi Hlo Hbody.
  apply (sat_for_loop_post (fun j0 st' =>
    working n st' /\ agree_except v st' st /\
    nrows_ (st' v) = nrows_ (st v) /\ ncols_ (st' v) = ncols_ (st v) /\
    (forall i' j', i' <> i -> cell (st' v) i' j' = cell (st v) i' j') /\
    (forall j, j < lo \/ j0 <= j -> cell (st' v) i j = cell (st v) i j) /\
    (forall j, lo <= j < j0 -> at_ (st' v) i j = g j (at_ (st v) i j)))).
  - intros j st' Hj (Hw' & Hag & Hnr & Hnc & Hrest & Hsame & Hdone).
    unfold sat.
    rewrite (Hbody j st' Hj Hw' Hag Hrest) by (intros; apply Hsame; lia).
    rewrite wr_eq.
    assert (Hsh : shaped n n (st' v)) by (destruct Hv as [->| ->]; apply Hw').
    destruct (shaped_cell n n (st' v) i j Hsh) as [y Hy]; [lia|lia|].
    rewrite Hy. split; [|split; [|rewrite upd_same; repeat split]].
    + destruct Hw' as [Hm Hinv].
      destruct Hv as [->| ->]; split;
        rewrite ?upd_same, ?upd_other by discriminate;
        try apply shaped_set_cell; assumption.
    + intros v' Hv'. rewrite upd_other by exact Hv'. apply Hag. exact Hv'.
    + rewrite set_cell_nrows. exact Hnr.
    + rewrite set_cell_ncols. exact Hnc.
    + intros i' j' Hi'. rewrite cell_set_cell by eauto.
      destruct (decide (i' = i /\ j' = j)) as [[? _]|_]; [contradiction|].
      apply Hrest. exact Hi'.
    + intros j' Hj'. rewrite cell_set_cell by eauto.
      destruct (decide (i = i /\ j' = j)) as [[_ ->]|_]; [lia|].
      apply Hsame. lia.
    + intros j' Hj'. unfold at_ at 1. rewrite cell_set_cell by eauto.
      destruct (decide (i = i /\ j' = j)) as [[_ ->]|Hne]; [reflexivity|].
      apply Hdone. destruct (decide (j' = j)); [tauto|lia].
  - split; [exact Hw|]. split; [intros v' _; reflexivity|].
    repeat split; auto. intros; lia.
  - intros st' (Hw' & Hag & Hnr & Hnc & Hrest & Hsame & Hdone).
    split; [exact Hw'|]. split; [exact Hag|]. split; [exact Hnr|].
    split; [exact Hnc|]. split; [exact Hrest|].
    intros j Hj. destruct (decide (lo <= j)).
    + apply Hdone. lia.
    + unfold at_. rewrite Hsame by lia. reflexivity.
Qed.

(** Reading a cell of a working matrix gives its value. *)
Lemma rd_working n v i j st :
  v = mat \/ v = mat_inv -> working n st -> 0 <= i < n -> 0 <= j < n ->
  rd v i j st = (Ok (at_ (st v) i j), st) /\
  cell (st v) i j = Some (at_ (st v) i j).
Proof.
  intros Hv Hw Hi Hj.
  assert (Hsh : shaped n n (st v)) by (destruct Hv as [->| ->]; apply Hw).
  destruct (shaped_cell n n (st v) i j Hsh) as [y Hy]; [lia|lia|].
  rewrite rd_eq, Hy, (at_cell _ _ _ _ Hy). auto.
Qed.

Lemma sat_rd_working n v i j st (Q : T -> store T -> Prop) E :
  v = mat \/ v = mat_inv -> working n st -> 0 <= i < n -> 0 <= j < n ->
  Q (at_ (st v) i j) st -> sat (rd v i j) st Q E.
Proof.
  intros Hv Hw Hi Hj HQ. unfold sat.
  destruct (rd_working n v i j st Hv Hw Hi Hj) as [-> _]. exact HQ.
Qed.

Lemma at_ext m m' i j : cell m' i j = cell m i j -> at_ m' i j = at_ m i j.
Proof. intros Heq. unfold at_. rewrite Heq. reflexivity. Qed.

(** [mat[i][j] -= mat[k][j] * coef] for [j >= k], then
    [mat_inv[i][j] -= mat_inv[k][j] * coef] for every [j]. *)
Lemma forward_row_cells n k i coef st :
  working n st -> 0 <= k < n -> 0 <= i < n -> i <> k ->
  sat (for_loop k n (fun j =>
         let* b := rd mat k j in
         let* a := rd mat i j in
         wr mat i j (s_sub a (s_mul b coef))) ;;
       for_loop 0 n (fun j =>
         let* b := rd mat_inv k j in
         let* a := rd mat_inv i j in
         wr mat_inv i j (s_sub a (s_mul b coef)))) st
    (fun _ st' =>
       reworked n st st'
         (fun r c => if decide (r = i /\ k <= c)
                     then s_sub (at_ (st mat) i c)
                                (s_mul (at_ (st mat) k c) coef)
                     else at_ (st mat) r c)
         (fun r c => if decide (r = i)
                     then s_sub (at_ (st mat_inv) i c)
                                (s_mul (at_ (st mat_inv) k c) coef)
                     else at_ (st mat_inv) r c))
    no_err.
Proof.
  intros Hw Hk Hi Hik. apply sat_bind.
  eapply sat_mono;
    [apply (sat_row_map n mat i k
              (fun j a => s_sub a (s_mul (at_ (st mat) k j) coef)) _ _ no_err);
       auto; try lia| |intros ? ? []].
  { intros j st2 Hj Hw2 _ Hrest Hsame. unfold bind.
    destruct (rd_working n mat k j st2) as [-> _]; auto; try lia.
    destruct (rd_working n mat i j st2) as [-> _]; auto; try lia.
    rewrite (at_ext (st mat) (st2 mat) k j) by (apply Hrest; lia).
    rewrite (at_ext (st mat) (st2 mat) i j) by (apply Hsame; lia).
    reflexivity. }
  intros [] st2 (Hw2 & Hag2 & _ & _ & Hrest2 & Hrow2).
  eapply sat_mono;
    [apply (sat_row_map n mat_inv i 0
              (fun j a => s_sub a (s_mul (at_ (st2 mat_inv) k j) coef))
              _ _ no_err);
       auto; try lia| |intros ? ? []].
  { intros j st3 Hj Hw3 _ Hrest Hsame. unfold bind.
    destruct (rd_working n mat_inv k j st3) as [-> _]; auto; try lia.
    destruct (rd_working n mat_inv i j st3) as [-> _]; auto; try lia.
    rewrite (at_ext (st2 mat_inv) (st3 mat_inv) k j) by (apply Hrest; lia).
    rewrite (at_ext (st2 mat_inv) (st3 mat_inv) i j) by (apply Hsame; lia).
    reflexivity. }
  intros [] st3 (Hw3 & Hag3 & Hnr3 & Hnc3 & Hrest3 & Hrow3).
  assert (Hinv2 : st2 mat_inv = st mat_inv) by (apply Hag2; discriminate).
  assert (Hmat3 : st3 mat = st2 mat) by (apply Hag3; discriminate).
  split; [exact Hw3|]. rewrite Hnr3, Hnc3, Hinv2.
  split; [reflexivity|]. split; [reflexivity|].
  intros r c Hr Hc. rewrite Hmat3. split.
  - destruct (decide (r = i)) as [->|Hne].
    + rewrite Hrow2 by lia.
      destruct (decide (k <= c)), (decide (i = i /\ k <= c));
        (reflexivity || tauto).
    + rewrite (at_ext (st mat) (st2 mat) r c) by (apply Hrest2; exact Hne).
      destruct (decide (r = i /\ k <= c)); [tauto|reflexivity].
  - destruct (decide (r = i)) as [->|Hne].
    + rewrite Hrow3, Hinv2 by lia.
      destruct (decide (0 <= c)); [reflexivity|lia].
    + rewrite (at_ext (st2 mat_inv) (st3 mat_inv) r c)
        by (apply Hrest3; exact Hne).
      rewrite Hinv2. reflexivity.
Qed.

(** The cells after one step of the forward elimination: every row [i]
    below the pivot row [k] has lost [mat[i][k] / mat[k][k]] times the row
    [k], in [mat] from the column [k] on and in [mat_inv] throughout. *)
Lemma forward_step_cells n k st :
  working n st -> 0 <= k < n ->
  sat (forward_step n k) st
    (fun _ st' =>
       near_zero (at_ (st mat) k k) = false /\
       reworked n st st'
         (fun i j =>
            if decide (k < i /\ k <= j)
            then s_sub (at_ (st mat) i j)
                   (s_mul (at_ (st mat) k j)
                          (s_div (at_ (st mat) i k) (at_ (st mat) k k)))
            else at_ (st mat) i j)
         (fun i j =>
            if decide (k < i)
            then s_sub (at_ (st mat_inv) i j)
                   (s_mul (at_ (st mat_inv) k j)
                          (s_div (at_ (st mat) i k) (at_ (st mat) k k)))
            else at_ (st mat_inv) i j))
    (fun e _ => e = SingularMatrix /\ near_zero (at_ (st mat) k k) = true).
Proof.
  intros Hw Hk. unfold forward_step.
  apply sat_bind, (sat_rd_working n); [auto|exact Hw|lia|lia|].
  destruct (near_zero (at_ (st mat) k k)) eqn:Hnz.
  { apply sat_throw. auto. }
  set (coef := fun i => s_div (at_ (st mat) i k) (at_ (st mat) k k)).
  apply (sat_for_loop_post (fun i0 st1 =>
    reworked n st st1
      (fun i j => if decide (k < i < i0 /\ k <= j)
                  then s_sub (at_ (st mat) i j)
                             (s_mul (at_ (st mat) k j) (coef i))
                  else at_ (st mat) i j)
      (fun i j => if decide (k < i < i0)
                  then s_sub (at_ (st mat_inv) i j)
                             (s_mul (at_ (st mat_inv) k j) (coef i))
                  else at_ (st mat_inv) i j))).
  - intros i st1 Hi (Hw1 & Hnr1 & Hnc1 & Hcells1).
    apply sat_bind, (sat_rd_working n); [auto|exact Hw1|lia|lia|].
    apply sat_bind, (sat_rd_working n); [auto|exact Hw1|lia|lia|].
    assert (Hold : forall r c, 0 <= r < n -> 0 <= c < n -> ~ k < r < i ->
              at_ (st1 mat) r c = at_ (st mat) r c /\
              at_ (st1 mat_inv) r c = at_ (st mat_inv) r c).
    { intros r c Hr Hc Hout. destruct (Hcells1 r c Hr Hc) as [-> ->].
      destruct (decide (k < r < i /\ k <= c)); [tauto|].
      destruct (decide (k < r < i)); [tauto|]. auto. }
    destruct (Hold i k) as [-> _]; try lia.
    destruct (Hold k k) as [-> _]; try lia.
    fold (coef i).
    eapply sat_mono;
      [apply (forward_row_cells n k i (coef i) st1); auto; lia|
      |intros ? ? []].
    intros [] st2 (Hw2 & Hnr2 & Hnc2 & Hcells2).
    split; [exact Hw2|]. rewrite Hnr2, Hnc2.
    split; [exact Hnr1|]. split; [exact Hnc1|].
    intros r c Hr Hc. destruct (Hcells2 r c Hr Hc) as [-> ->].
    destruct (decide (r = i)) as [->|Hne].
    + destruct (Hold i c) as [-> ->]; try lia.
      destruct (Hold k c) as [-> ->]; try lia.
      destruct (decide (i = i /\ k <= c)), (decide (k < i < i + 1 /\ k <= c)),
        (decide (k < i < i + 1)); (tauto || lia || auto).
    + destruct (Hcells1 r c Hr Hc) as [-> ->].
      destruct (decide (r = i /\ k <= c)); [tauto|].
      destruct (decide (k < r < i /\ k <= c)),
        (decide (k < r < i + 1 /\ k <= c)),
        (decide (k < r < i)), (decide (k < r < i + 1)); (lia || auto).
  - split; [exact Hw|]. split; [reflexivity|]. split; [reflexivity|].
    intros i j Hi Hj.
    destruct (decide (k < i < k + 1 /\ k <= j)); [lia|].
    destruct (decide (k < i < k + 1)); [lia|]. auto.
  - intros st' (Hw' & Hnr & Hnc & Hcells).
    replace (Z.max (k + 1) n) with n in Hcells by lia.
    split; [reflexivity|]. split; [exact Hw'|].
    split; [exact Hnr|]. split; [exact Hnc|].
    intros i j Hi Hj. destruct (Hcells i j Hi Hj) as [-> ->]. unfold coef.
    destruct (decide (k < i < n /\ k <= j)), (decide (k < i /\ k <= j)),
      (decide (k < i < n)), (decide (k < i)); (lia || auto).
Qed.

(** The cells after one step of the normalization: the row [i] has been
    divided by [mat[i][i]], in [mat] from the diagonal on and in [mat_inv]
    throughout. *)
Lemma normalize_step_cells n i st :
  working n st -> 0 <= i < n ->
  sat (normalize_step n i) st
    (fun _ st' =>
       near_zero (at_ (st mat) i i) = false /\
       reworked n st st'
         (fun r c => if decide (r = i /\ i <= c)
                     then s_div (at_ (st mat) i c) (at_ (st mat) i i)
                     else at_ (st mat) r c)
         (fun r c => if decide (r = i)
                     then s_div (at_ (st mat_inv) i c) (at_ (st mat) i i)
                     else at_ (st mat_inv) r c))
    (fun e _ => e = SingularMatrix /\ near_zero (at_ (st mat) i i) = true).
Proof.
  intros Hw Hi. unfold normalize_step.
  apply sat_bind, (sat_rd_working n); [auto|exact Hw|lia|lia|].
  destruct (near_zero (at_ (st mat) i i)) eqn:Hnz.
  { apply sat_throw. auto. }
  apply sat_bind, (sat_rd_working n); [auto|exact Hw|lia|lia|].
  set (coef := at_ (st mat) i i).
  apply sat_bind.
  eapply sat_mono;
    [apply (sat_row_map n mat i i (fun _ a => s_div a coef) _ _ no_err);
       auto; try lia| |intros ? ? []].
  { intros j st2 Hj Hw2 _ _ Hsame. unfold bind.
    destruct (rd_working n mat i j st2) as [-> _]; auto; try lia.
    rewrite (at_ext (st mat) (st2 mat) i j) by (apply Hsame; lia).
    reflexivity. }
  intros [] st2 (Hw2 & Hag2 & _ & _ & Hrest2 & Hrow2).
  eapply sat_mono;
    [apply (sat_row_map n mat_inv i 0 (fun _ a => s_div a coef) _ _ no_err);
       auto; try lia| |intros ? ? []].
  { intros j st3 Hj Hw3 _ _ Hsame. unfold bind.
    destruct (rd_working n mat_inv i j st3) as [-> _]; auto; try lia.
    rewrite (at_ext (st2 mat_inv) (st3 mat_inv) i j) by (apply Hsame; lia).
    reflexivity. }
  intros [] st3 (Hw3 & Hag3 & Hnr3 & Hnc3 & Hrest3 & Hrow3).
  assert (Hinv2 : st2 mat_inv = st mat_inv) by (apply Hag2; discriminate).
  assert (Hmat3 : st3 mat = st2 mat) by (apply Hag3; discriminate).
  split; [reflexivity|]. split; [exact Hw3|]. rewrite Hnr3, Hnc3, Hinv2.
  split; [reflexivity|]. split; [reflexivity|].
  intros r c Hr Hc. rewrite Hmat3. split.
  - destruct (decide (r = i)) as [->|Hne].
    + rewrite Hrow2 by lia.
      destruct (decide (i <= c)), (decide (i = i /\ i <= c));
        (reflexivity || tauto).
    + rewrite (at_ext (st mat) (st2 mat) r c) by (apply Hrest2; exact Hne).
      destruct (decide (r = i /\ i <= c)); [tauto|reflexivity].
  - destruct (decide (r = i)) as [->|Hne].
    + rewrite Hrow3, Hinv2 by lia.
      destruct (decide (0 <= c)); [reflexivity|lia].
    + rewrite (at_ext (st2 mat_inv) (st3 mat_inv) r c)
        by (apply Hrest3; exact Hne).
      rewrite Hinv2. reflexivity.
Qed.

(** The cells after one step of the backward elimination: the row [i] of
    [mat_inv] has lost [mat[i][j]] times its row [j], and [mat[i][j]] has
    lost [mat[j][j]] times itself; the step cannot fail. *)
Lemma backward_step_cells n i j st :
  working n st -> 0 <= i < n -> 0 <= j < n -> i <> j ->
  sat (backward_step n i j) st
    (fun _ st' =>
       reworked n st st'
         (fun r c => if decide (r = i /\ c = j)
                     then s_sub (at_ (st mat) i j)
                                (s_mul (at_ (st mat) j j) (at_ (st mat) i j))
                     else at_ (st mat) r c)
         (fun r c => if decide (r = i)
                     then s_sub (at_ (st mat_inv) i c)
                                (s_mul (at_ (st mat_inv) j c)
                                       (at_ (st mat) i j))
                     else at_ (st mat_inv) r c))
    no_err.
Proof.
  intros Hw Hi Hj Hij. unfold backward_step. apply sat_bind.
  eapply sat_mono;
    [apply (sat_row_map n mat_inv i 0
              (fun c a => s_sub a (s_mul (at_ (st mat_inv) j c)
                                         (at_ (st mat) i j)))
              _ _ no_err);
       auto; try lia| |intros ? ? []].
  { intros m st2 Hm Hw2 Hag Hrest Hsame. unfold bind.
    destruct (rd_working n mat_inv j m st2) as [-> _]; auto; try lia.
    destruct (rd_working n mat i j st2) as [-> _]; auto; try lia.
    destruct (rd_working n mat_inv i m st2) as [-> _]; auto; try lia.
    rewrite (at_ext (st mat_inv) (st2 mat_inv) j m) by (apply Hrest; lia).
    rewrite (at_ext (st mat_inv) (st2 mat_inv) i m) by (apply Hsame; lia).
    rewrite (Hag mat) by discriminate. reflexivity. }
  intros [] st2 (Hw2 & Hag2 & Hnr2 & Hnc2 & Hrest2 & Hrow2).
  assert (Hmat2 : st2 mat = st mat) by (apply Hag2; discriminate).
  apply sat_bind, (sat_rd_working n); [auto|exact Hw2|lia|lia|].
  apply sat_bind, (sat_rd_working n); [auto|exact Hw2|lia|lia|].
  apply sat_bind, (sat_rd_working n); [auto|exact Hw2|lia|lia|].
  apply (sat_wr_shaped n n); [apply Hw2|lia|lia|].
  intros st3 Hmat3 Hag3. rewrite Hmat2 in Hmat3.
  assert (Hinv3 : st3 mat_inv = st2 mat_inv) by (apply Hag3; discriminate).
  split; [|rewrite Hinv3; split; [exact Hnr2|split; [exact Hnc2|]]].
  - split; [|rewrite Hinv3; apply Hw2].
    rewrite Hmat3. apply shaped_set_cell, Hw.
  - intros r c Hr Hc. split.
    + rewrite Hmat3. unfold at_ at 1. rewrite cell_set_cell
        by (apply (shaped_cell n n); [apply Hw|lia|lia]).
      destruct (decide (r = i /\ c = j)); reflexivity.
    + destruct (decide (r = i)) as [->|Hne].
      * rewrite Hrow2 by lia. destruct (decide (0 <= c)); [reflexivity|lia].
      * apply at_ext, Hrest2. exact Hne.
Qed.

(** On a well-formed square matrix the set-up of [inverse] leaves [mat] a
    copy of [*this] and [mat_inv] the identity matrix of that size, members
    included. *)
Lemma sat_inverse_init_members st n :
  wf (st this) -> nrows_ (st this) = n -> ncols_ (st this) = n ->
  sat inverse_init st
    (fun r st1 =>
       r = n /\ st1 mat = st this /\ working n st1 /\
       identity_cells n (st1 mat_inv) /\
       nrows_ (st1 mat_inv) = n /\ ncols_ (st1 mat_inv) = n)
    no_err.
Proof.
  intros Hwf Hr Hc. assert (Hn : 0 <= n) by (destruct Hwf; lia).
  assert (H1 : sat inverse_init st
                 (fun r st1 => r = n /\ st1 mat = st this /\ working n st1 /\
                               identity_cells n (st1 mat_inv)) no_err).
  { apply (sat_inverse_init st n); auto.
    intros st1 Hmat Hinv Hid _. split; [reflexivity|].
    split; [exact Hmat|]. split; [|exact Hid]. split; [|exact Hinv].
    rewrite Hmat. pose proof (wf_shaped _ Hwf) as Hsh.
    rewrite Hr, Hc in Hsh. exact Hsh. }
  assert (H2 : sat inverse_init st
                 (fun _ st1 => nrows_ (st1 mat_inv) = n /\
                               ncols_ (st1 mat_inv) = n) no_err).
  { unfold inverse_init. apply sat_bind, sat_get.
    rewrite Hr, Hc, Z.eqb_refl. simpl.
    apply sat_bind, sat_construct. intros st1 Hinv1 Hag1.
    apply sat_bind, sat_copy_construct; [discriminate| |].
    { rewrite Hag1 by discriminate. exact Hwf. }
    intros st2 _ Hag2. apply sat_bind.
    eapply sat_mono;
      [apply (sat_fill_row mat_inv n _ (fun _ => s_one)
                (fun j => j) (fun j => j) st2)| |intros e st' []].
    + intros j j' _ _ Hjj _. exact Hjj.
    + intros j Hj. rewrite Hag2, Hinv1, cell_resize by (lia || discriminate).
      eauto.
    + intros j st3 _ _. reflexivity.
    + intros [] st3 ((_ & Hnr & Hnc & _) & _). apply sat_ret.
      rewrite Hnr, Hnc, Hag2, Hinv1 by discriminate. split; reflexivity. }
  eapply sat_mono; [exact (sat_conj _ _ _ _ _ _ H1 H2)| |intros ? ? [[] _]].
  intros r st1 ((-> & Hmat & Hw & Hid) & Hnr & Hnc). auto 10.
Qed.

Lemma to_int_size_sub n d :
  1 <= d <= 2 -> 1 <= n < 2 ^ 31 -> to_int (size_sub n d) = n - d.
Proof.
  intros Hd Hn. destruct (decide (d <= n)).
  - unfold size_sub. rewrite Z.mod_small by (unfold SIZE_MAX1; lia).
    apply to_int_small. lia.
  - assert (n = 1) as -> by lia. assert (d = 2) as -> by lia. reflexivity.
Qed.

(** The passes keep the working matrices [n x n] and the members of
    [mat_inv] at [n]. *)
Lemma reworked_ready n st st' fa fb :
  reworked n st st' fa fb ->
  nrows_ (st mat_inv) = n /\ ncols_ (st mat_inv) = n ->
  working n st' /\ nrows_ (st' mat_inv) = n /\ ncols_ (st' mat_inv) = n.
Proof. intros (Hw & -> & -> & _) [Hnr Hnc]. auto. Qed.

(** The backward elimination runs through, on working matrices of fewer
    than [2^31] rows. *)
Lemma inverse_backward_ready n st :
  1 <= n < 2 ^ 31 ->
  working n st -> nrows_ (st mat_inv) = n -> ncols_ (st mat_inv) = n ->
  sat (inverse_backward n) st
    (fun _ st' =>
       working n st' /\ nrows_ (st' mat_inv) = n /\ ncols_ (st' mat_inv) = n)
    no_err.
Proof.
  intros Hn Hw Hnr Hnc. unfold inverse_backward, for_down.
  rewrite !to_int_size_sub by lia.
  apply (sat_for_loop_post (fun _ st' =>
    working n st' /\ nrows_ (st' mat_inv) = n /\ ncols_ (st' mat_inv) = n));
    [|auto|auto].
  intros d st1 Hd Hr1.
  apply (sat_for_loop_post (fun _ st' =>
    working n st' /\ nrows_ (st' mat_inv) = n /\ ncols_ (st' mat_inv) = n));
    [|exact Hr1|auto].
  intros e st2 He (Hw2 & Hm2).
  eapply sat_mono;
    [apply (backward_step_cells n (n - 2 - d) (n - 1 - e) st2 Hw2); lia|
    |intros ? ? []].
  intros [] st3 Hre. exact (reworked_ready _ _ _ _ _ Hre Hm2).
Qed.

End InverseCells.

(** The outcome of [inverse] on a square matrix of at least one and fewer
    than [2^31] rows. *)
Lemma sat_inverse_members {T} `{Scalar T} (st : store T) (n : Z) :
  wf (st this) -> nrows_ (st this) = n -> ncols_ (st this) = n ->
  1 <= n < 2 ^ 31 ->
  sat inverse st
    (fun B _ => wf B /\ nrows_ B = n /\ ncols_ B = n)
    (fun e _ => e = SingularMatrix).
Proof.
  intros Hwf Hr Hc Hn. unfold inverse. apply sat_bind.
  eapply sat_mono;
    [apply (sat_inverse_init_members st n); auto| |intros ? ? []].
  intros r st1 (-> & _ & Hw1 & _ & Hnr1 & Hnc1).
  apply sat_bind. unfold inverse_forward.
  rewrite size_sub_1 by (unfold SIZE_MAX1; lia).
  apply (sat_for_loop_post (fun _ st' =>
    working n st' /\ nrows_ (st' mat_inv) = n /\ ncols_ (st' mat_inv) = n));
    [|auto|].
  { intros k st2 Hk (Hw2 & Hm2).
    eapply sat_mono; [apply (forward_step_cells n k st2 Hw2); lia| |].
    - intros [] st3 (_ & Hre). exact (reworked_ready _ _ _ _ _ Hre Hm2).
    - intros e st3 [-> _]. reflexivity. }
  intros st2 (Hw2 & Hm2). apply sat_bind. unfold inverse_normalize.
  apply (sat_for_loop_post (fun _ st' =>
    working n st' /\ nrows_ (st' mat_inv) = n /\ ncols_ (st' mat_inv) = n));
    [|auto|].
  { intros k st3 Hk (Hw3 & Hm3).
    eapply sat_mono; [apply (normalize_step_cells n k st3 Hw3); lia| |].
    - intros [] st4 (_ & Hre). exact (reworked_ready _ _ _ _ _ Hre Hm3).
    - intros e st4 [-> _]. reflexivity. }
  intros st3 (Hw3 & Hnr3 & Hnc3). apply sat_bind.
  eapply sat_mono;
    [apply (inverse_backward_ready n st3); auto| |intros ? ? []].
  intros [] st4 (Hw4 & Hnr4 & Hnc4). apply sat_get.
  split; [|auto].
  apply shaped_wf; rewrite ?Hnr4, ?Hnc4; try (unfold SIZE_MAX1; lia).
  apply Hw4.
Qed.

(** X1. On a well-formed square matrix of at least one and fewer than
    [2^31] rows, whatever the scalars, [inverse] stays inside its working
    matrices: it either returns a well-formed matrix of the same size or
    ends in [SingularMatrix]. *)
Theorem inverse_outcomes {T} `{Scalar T} (st : store T) (n : Z) :
  wf (st this) -> nrows_ (st this) = n -> ncols_ (st this) = n ->
  1 <= n < 2 ^ 31 ->
  (exists B st',
     inverse st = (Ok B, st') /\ wf B /\ nrows_ B = n /\ ncols_ B = n) \/
  fst (inverse st) = Err SingularMatrix.
Proof.
  intros Hwf Hr Hc Hn.
  pose proof (sat_inverse_members st n Hwf Hr Hc Hn) as Hs.
  unfold sat in Hs. destruct (inverse st) as [[B|e] st'].
  - left. eauto.
  - right. simpl. congruence.
Qed.

Lemma inverse_outcomes_witness :
  (exists B st',
     inverse (call (A_4726 4 7 2 6)%Q empty_Matrix) = (Ok B, st') /\
     wf B /\ nrows_ B = 2 /\ ncols_ B = 2) \/
  fst (inverse (call (A_4726 4 7 2 6)%Q empty_Matrix)) = Err SingularMatrix.
Proof.
  apply (inverse_outcomes (call (A_4726 4 7 2 6)%Q empty_Matrix) 2);
    try reflexivity; try lia; wf_literal.
Defined.

(** *** [inverse] in exact arithmetic *)

Section InverseExact.

Implicit Types (st : store Q) (a b : Matrix Q).

Ltac qsimp := cbn [s_add s_sub s_mul s_div s_zero s_one Q_scalar] in *.

Lemma sum_upto_ext (f g : nat -> Q) N :
  (forall m, (m < N)%nat -> (f m == g m)%Q) ->
  (sum_upto f N == sum_upto g N)%Q.
Proof.
  induction N as [|N IH]; intros Hfg; [reflexivity|]. cbn [sum_upto]. qsimp.
  rewrite IH by (intros; apply Hfg; lia). rewrite (Hfg N) by lia.
  reflexivity.
Qed.

Lemma sum_upto_lin (f g h : nat -> Q) (q : Q) N :
  (sum_upto (fun m => (f m - g m * q) * h m) N
   == sum_upto (fun m => f m * h m) N
      - sum_upto (fun m => g m * h m) N * q)%Q.
Proof.
  induction N as [|N IH]; cbn [sum_upto]; qsimp; [ring|]. rewrite IH. ring.
Qed.

Lemma sum_upto_div (f h : nat -> Q) (q : Q) N :
  (sum_upto (fun m => (f m / q) * h m) N
   == sum_upto (fun m => f m * h m) N / q)%Q.
Proof.
  unfold Qdiv.
  induction N as [|N IH]; cbn [sum_upto]; qsimp; [ring|]. rewrite IH. ring.
Qed.

Lemma sum_upto_pick (f h : nat -> Q) (i N : nat) :
  (forall m, (m < N)%nat -> f m = if decide (m = i) then 1%Q else 0%Q) ->
  (sum_upto (fun m => f m * h m) N
   == if decide (i < N)%nat then h i else 0)%Q.
Proof.
  induction N as [|N IH]; intros Hf; cbn [sum_upto]; qsimp.
  - destruct (decide (i < 0)%nat); [lia|reflexivity].
  - rewrite IH by (intros; apply Hf; lia). rewrite (Hf N) by lia.
    destruct (decide (N = i)) as [->|Hne].
    + destruct (decide (i < i)%nat); [lia|].
      destruct (decide (i < S i)%nat); [ring|lia].
    + destruct (decide (i < N)%nat), (decide (i < S N)%nat);
        (lia || ring).
Qed.

Lemma dot_same b' b a i j n :
  (forall c, 0 <= c < n -> at_ b' i c = at_ b i c) ->
  (dot b' a i j n == dot b a i j n)%Q.
Proof.
  intros Hrow. unfold dot. apply sum_upto_ext. intros m Hm.
  rewrite Hrow by lia. reflexivity.
Qed.

Lemma dot_lin b' b a i k j n (q : Q) :
  (forall c, 0 <= c < n -> at_ b' i c = (at_ b i c - at_ b k c * q)%Q) ->
  (dot b' a i j n == dot b a i j n - dot b a k j n * q)%Q.
Proof.
  intros Hrow. unfold dot.
  transitivity (sum_upto (fun m =>
    (at_ b i (Z.of_nat m) - at_ b k (Z.of_nat m) * q)
    * at_ a (Z.of_nat m) j)%Q (Z.to_nat n)).
  - apply sum_upto_ext. intros m Hm. rewrite Hrow by lia. reflexivity.
  - apply (sum_upto_lin (fun m => at_ b i (Z.of_nat m))
             (fun m => at_ b k (Z.of_nat m)) (fun m => at_ a (Z.of_nat m) j)).
Qed.

Lemma dot_div b' b a i j n (q : Q) :
  (forall c, 0 <= c < n -> at_ b' i c = (at_ b i c / q)%Q) ->
  (dot b' a i j n == dot b a i j n / q)%Q.
Proof.
  intros Hrow. unfold dot.
  transitivity (sum_upto (fun m =>
    (at_ b i (Z.of_nat m) / q) * at_ a (Z.of_nat m) j)%Q (Z.to_nat n)).
  - apply sum_upto_ext. intros m Hm. rewrite Hrow by lia. reflexivity.
  - apply (sum_upto_div (fun m => at_ b i (Z.of_nat m))
             (fun m => at_ a (Z.of_nat m) j)).
Qed.

(** The identity matrix times [a] is [a]. *)
Lemma dot_identity b a i j n :
  identity_cells n b -> 0 <= i < n ->
  (dot b a i j n == at_ a i j)%Q.
Proof.
  intros Hid Hi. unfold dot.
  rewrite (sum_upto_pick (fun m => at_ b i (Z.of_nat m))
             (fun m => at_ a (Z.of_nat m) j) (Z.to_nat i)).
  - destruct (decide (Z.to_nat i < Z.to_nat n)%nat); [|lia].
    rewrite Z2Nat.id by lia. reflexivity.
  - intros m Hm. rewrite (at_cell _ _ _ _ (Hid i (Z.of_nat m) Hi ltac:(lia))).
    destruct (decide (i = Z.of_nat m)), (decide (m = Z.to_nat i));
      (reflexivity || lia).
Qed.

(** A pivot that passes the test against [_ZERO_LIMIT] is not zero. *)
Lemma near_zero_nonzero (x : Q) : near_zero x = false -> ~ (x == 0)%Q.
Proof.
  unfold near_zero. cbn [s_ltb s_abs ZERO_LIMIT Q_scalar]. intros Hnz Hx.
  apply negb_false_iff, Qle_bool_iff in Hnz. rewrite Hx in Hnz.
  revert Hnz. apply Qlt_not_le. reflexivity.
Qed.

Lemma forward_step_exact n a k st :
  0 <= k < n -> working n st -> tracks n a st -> lower_zero n k st ->
  sat (forward_step n k) st
    (fun _ st' => working n st' /\ tracks n a st' /\ lower_zero n (k + 1) st')
    (fun _ _ => True).
Proof.
  intros Hk Hw Htr Hlz.
  eapply sat_mono; [apply (forward_step_cells n k st Hw Hk)| |auto].
  intros [] st' (Hnz & Hw' & _ & _ & Hcells).
  apply near_zero_nonzero in Hnz.
  split; [exact Hw'|]. split.
  - intros i j Hi Hj. destruct (Hcells i j Hi Hj) as [-> _].
    destruct (decide (k < i)) as [Hki|Hki].
    + rewrite (dot_lin (st' mat_inv) (st mat_inv) a i k j n
                 (at_ (st mat) i k / at_ (st mat) k k)).
      2: { intros c Hc. destruct (Hcells i c Hi Hc) as [_ ->].
           rewrite decide_True by lia. reflexivity. }
      rewrite (Htr i j), (Htr k j) by lia.
      destruct (decide (k < i /\ k <= j)) as [_|Hn]; [reflexivity|].
      rewrite (Hlz k j) by lia. ring.
    + rewrite (dot_same (st' mat_inv) (st mat_inv)).
      2: { intros c Hc. destruct (Hcells i c Hi Hc) as [_ ->].
           rewrite decide_False by lia. reflexivity. }
      rewrite decide_False by lia. apply Htr; lia.
  - intros r c Hc Hr. destruct (Hcells r c ltac:(lia) ltac:(lia)) as [-> _].
    destruct (decide (k < r /\ k <= c)) as [[? ?]|Hn].
    + assert (c = k) as -> by lia. qsimp. field. exact Hnz.
    + apply Hlz; lia.
Qed.

Lemma normalize_step_exact n a i st :
  0 <= i < n -> working n st -> tracks n a st -> lower_zero n n st ->
  unit_diag i st ->
  sat (normalize_step n i) st
    (fun _ st' =>
       working n st' /\ tracks n a st' /\ lower_zero n n st' /\
       unit_diag (i + 1) st')
    (fun _ _ => True).
Proof.
  intros Hi Hw Htr Hlz Hud.
  eapply sat_mono; [apply (normalize_step_cells n i st Hw Hi)| |auto].
  intros [] st' (Hnz & Hw' & _ & _ & Hcells).
  apply near_zero_nonzero in Hnz.
  split; [exact Hw'|]. split; [|split].
  - intros r c Hr Hc. destruct (Hcells r c Hr Hc) as [-> _].
    destruct (decide (r = i)) as [->|Hne].
    + rewrite (dot_div (st' mat_inv) (st mat_inv) a i c n (at_ (st mat) i i)).
      2: { intros c' Hc'. destruct (Hcells i c' Hi Hc') as [_ ->].
           rewrite decide_True by reflexivity. reflexivity. }
      rewrite (Htr i c) by lia.
      destruct (decide (i = i /\ i <= c)) as [_|Hn]; [reflexivity|].
      rewrite (Hlz i c) by lia. unfold Qdiv. ring.
    + rewrite (dot_same (st' mat_inv) (st mat_inv)).
      2: { intros c' Hc'. destruct (Hcells r c' Hr Hc') as [_ ->].
           rewrite decide_False by exact Hne. reflexivity. }
      rewrite decide_False by tauto. apply Htr; lia.
  - intros r c Hc Hr. destruct (Hcells r c ltac:(lia) ltac:(lia)) as [-> _].
    rewrite decide_False by lia. apply Hlz; lia.
  - intros r Hr. destruct (Hcells r r ltac:(lia) ltac:(lia)) as [-> _].
    destruct (decide (r = i /\ i <= r)) as [[-> _]|Hn].
    + qsimp. field. exact Hnz.
    + apply Hud. lia.
Qed.

Lemma backward_step_exact n a i j st :
  0 <= i < j -> j < n -> working n st -> tracks n a st ->
  lower_zero n n st -> unit_diag n st -> upper_zero n (i + 1) st ->
  (forall c, j < c < n -> (at_ (st mat) i c == 0)%Q) ->
  sat (backward_step n i j) st
    (fun _ st' =>
       working n st' /\ tracks n a st' /\ lower_zero n n st' /\
       unit_diag n st' /\ upper_zero n (i + 1) st' /\
       forall c, j - 1 < c < n -> (at_ (st' mat) i c == 0)%Q)
    (fun _ _ => True).
Proof.
  intros Hi Hj Hw Htr Hlz Hud Huz Hrow.
  eapply sat_mono; [apply (backward_step_cells n i j st Hw); lia| |auto].
  intros [] st' (Hw' & _ & _ & Hcells).
  split; [exact Hw'|]. split; [|split; [|split; [|split]]].
  - intros r c Hr Hc. destruct (Hcells r c Hr Hc) as [-> _].
    destruct (decide (r = i)) as [->|Hne].
    + rewrite (dot_lin (st' mat_inv) (st mat_inv) a i j c n
                 (at_ (st mat) i j)).
      2: { intros c' Hc'. destruct (Hcells i c' Hr Hc') as [_ ->].
           rewrite decide_True by reflexivity. reflexivity. }
      rewrite (Htr i c), (Htr j c) by lia.
      destruct (decide (i = i /\ c = j)) as [[_ ->]|Hn]; [reflexivity|].
      assert (Hz : (at_ (st mat) j c == 0)%Q).
      { destruct (decide (c < j)); [apply Hlz; lia|apply Huz; lia]. }
      rewrite Hz. ring.
    + rewrite (dot_same (st' mat_inv) (st mat_inv)).
      2: { intros c' Hc'. destruct (Hcells r c' Hr Hc') as [_ ->].
           rewrite decide_False by exact Hne. reflexivity. }
      rewrite decide_False by tauto. apply Htr; lia.
  - intros r c Hc Hr. destruct (Hcells r c ltac:(lia) ltac:(lia)) as [-> _].
    rewrite decide_False by lia. apply Hlz; lia.
  - intros r Hr. destruct (Hcells r r ltac:(lia) ltac:(lia)) as [-> _].
    rewrite decide_False by lia. apply Hud; lia.
  - intros r c Hr Hc. destruct (Hcells r c ltac:(lia) ltac:(lia)) as [-> _].
    rewrite decide_False by lia. apply Huz; lia.
  - intros c Hc. destruct (Hcells i c ltac:(lia) ltac:(lia)) as [-> _].
    destruct (decide (i = i /\ c = j)) as [[_ ->]|Hn].
    + qsimp. rewrite (Hud j) by lia. ring.
    + apply Hrow. lia.
Qed.

(** Over the rationals, the matrix [inverse] returns, multiplied by the
    receiver, is the identity. *)
Lemma sat_inverse_exact st n :
  wf (st this) -> nrows_ (st this) = n -> ncols_ (st this) = n ->
  1 <= n < 2 ^ 31 ->
  sat inverse st
    (fun B _ => forall i j, 0 <= i < n -> 0 <= j < n ->
                  (dot B (st this) i j n == delta i j)%Q)
    (fun _ _ => True).
Proof.
  intros Hwf Hr Hc Hn. set (a := st this).
  unfold inverse. apply sat_bind.
  eapply sat_mono;
    [apply (sat_inverse_init_members st n); auto| |intros ? ? []].
  intros r st1 (-> & Hmat1 & Hw1 & Hid1 & _).
  assert (Htr1 : tracks n a st1).
  { intros i j Hi Hj. rewrite Hmat1. apply dot_identity; assumption. }
  apply sat_bind. unfold inverse_forward.
  rewrite size_sub_1 by (unfold SIZE_MAX1; lia).
  apply (sat_for_loop_post (fun k st' =>
    working n st' /\ tracks n a st' /\ lower_zero n k st')).
  { intros k st2 Hk (Hw2 & Htr2 & Hlz2).
    apply forward_step_exact; (lia || assumption). }
  { split; [exact Hw1|]. split; [exact Htr1|]. intros r c Hc'; lia. }
  replace (Z.max 0 (n - 1)) with (n - 1) by lia.
  intros st2 (Hw2 & Htr2 & Hlz2). apply sat_bind. unfold inverse_normalize.
  apply (sat_for_loop_post (fun k st' =>
    working n st' /\ tracks n a st' /\ lower_zero n n st' /\
    unit_diag k st')).
  { intros k st3 Hk (Hw3 & Htr3 & Hlz3 & Hud3).
    apply normalize_step_exact; (lia || assumption). }
  { split; [exact Hw2|]. split; [exact Htr2|]. split.
    - intros r c Hc' Hr'. apply Hlz2; lia.
    - intros r Hr'; lia. }
  replace (Z.max 0 n) with n by lia.
  intros st3 (Hw3 & Htr3 & Hlz3 & Hud3). apply sat_bind.
  unfold inverse_backward, for_down. rewrite !to_int_size_sub by lia.
  apply (sat_for_loop_post (fun d st' =>
    working n st' /\ tracks n a st' /\ lower_zero n n st' /\
    unit_diag n st' /\ upper_zero n (n - 1 - d) st')).
  { intros d st4 Hd (Hw4 & Htr4 & Hlz4 & Hud4 & Huz4).
    apply (sat_for_loop_post (fun e st' =>
      working n st' /\ tracks n a st' /\ lower_zero n n st' /\
      unit_diag n st' /\ upper_zero n (n - 2 - d + 1) st' /\
      forall c, n - 1 - e < c < n -> (at_ (st' mat) (n - 2 - d) c == 0)%Q)).
    - intros e st5 He (Hw5 & Htr5 & Hlz5 & Hud5 & Huz5 & Hrow5).
      eapply sat_mono;
        [apply (backward_step_exact n a (n - 2 - d) (n - 1 - e) st5);
           (lia || assumption)| |auto].
      intros [] st6 (Hw6 & Htr6 & Hlz6 & Hud6 & Huz6 & Hrow6).
      repeat (split; [assumption|]).
      intros c Hc'. apply Hrow6. lia.
    - repeat (split; [assumption|]). split.
      + intros r c Hr' Hc'. apply Huz4; lia.
      + intros c Hc'. lia.
    - intros st5 (Hw5 & Htr5 & Hlz5 & Hud5 & Huz5 & Hrow5).
      repeat (split; [assumption|]).
      intros r c Hr' Hc'. destruct (decide (r = n - 2 - d)) as [->|Hne].
      + apply Hrow5. lia.
      + apply Huz5; lia. }
  { repeat (split; [assumption|]). intros r c Hr' Hc'. lia. }
  intros st4 (Hw4 & Htr4 & Hlz4 & Hud4 & Huz4). apply sat_get.
  intros i j Hi Hj. rewrite (Htr4 i j Hi Hj). unfold delta.
  destruct (decide (i = j)) as [->|Hne].
  - apply Hud4. lia.
  - destruct (decide (j < i)); [apply Hlz4; lia|apply Huz4; lia].
Qed.

End InverseExact.

(** X2. In exact rational arithmetic the matrix [B] that [inverse] returns
    for a well-formed square matrix [A] of fewer than [2^31] rows is a left
    inverse of [A]: every cell of the product [B * A] equals the cell of the
    identity matrix. *)
Theorem inverse_left_inverse (st : store Q) (n : Z) (B : Matrix Q) :
  wf (st this) -> nrows_ (st this) = n -> ncols_ (st this) = n ->
  n < 2 ^ 31 ->
  fst (inverse st) = Ok B ->
  forall i j, 0 <= i < n -> 0 <= j < n ->
    (dot B (st this) i j n == delta i j)%Q.
Proof.
  intros Hwf Hr Hc Hn Hrun i j Hi Hj.
  pose proof (sat_inverse_exact st n Hwf Hr Hc ltac:(lia)) as Hs.
  unfold sat in Hs. destruct (inverse st) as [[B'|e] st']; [|discriminate].
  injection Hrun as ->. apply Hs; assumption.
Qed.

Lemma inverse_left_inverse_witness :
  (dot (mkMatrix [[384 # 640; -448 # 640]; [-8 # 40; 16 # 40]] 2 2)
       (A_4726 4 7 2 6) 0 0 2 == delta 0 0)%Q /\
  (dot (mkMatrix [[384 # 640; -448 # 640]; [-8 # 40; 16 # 40]] 2 2)
       (A_4726 4 7 2 6) 0 1 2 == delta 0 1)%Q.
Proof.
  split;
    apply (inverse_left_inverse (call (A_4726 4 7 2 6)%Q empty_Matrix) 2);
    try reflexivity; try lia; wf_literal.
Defined.

(** X3. In exact rational arithmetic, [operator*] applied to the matrix
    that [inverse] returns for [A] and to [A] itself gives a matrix of the
    size of [A] whose cells equal those of the identity matrix. *)
Theorem inverse_times_matrix (st : store Q) (n : Z) (B : Matrix Q) :
  wf (st this) -> nrows_ (st this) = n -> ncols_ (st this) = n ->
  1 <= n < 2 ^ 31 ->
  fst (inverse st) = Ok B ->
  exists C,
    fst (operator_mul (call B (st this))) = Ok C /\
    nrows_ C = n /\ ncols_ C = n /\
    forall i j, 0 <= i < n -> 0 <= j < n ->
      exists x, cell C i j = Some x /\ (x == delta i j)%Q.
Proof.
  intros Hwf Hr Hc Hn Hrun.
  pose proof (sat_inverse_exact st n Hwf Hr Hc Hn) as Hex.
  pose proof (sat_inverse_members st n Hwf Hr Hc Hn) as Hsh.
  unfold sat in Hex, Hsh. destruct (inverse st) as [[B'|e] st']; [|discriminate].
  injection Hrun as ->. destruct Hsh as (HwfB & HrB & HcB).
  destruct (sat_ok _ _ _ (sat_operator_mul (call B (st this)) HwfB Hwf
                            ltac:(simpl; lia)))
    as (C & st2 & Hmul & HrC & HcC & _ & Hcells & _).
  simpl in HrC, HcC, Hcells.
  exists C. rewrite Hmul. split; [reflexivity|].
  split; [lia|]. split; [lia|].
  intros i j Hi Hj. eexists. split; [apply Hcells; lia|].
  rewrite HcB. apply Hex; assumption.
Qed.

Lemma inverse_times_matrix_witness :
  exists C,
    fst (operator_mul
           (call (mkMatrix [[384 # 640; -448 # 640]; [-8 # 40; 16 # 40]] 2 2)
                 (A_4726 4 7 2 6)%Q)) = Ok C /\
    nrows_ C = 2 /\ ncols_ C = 2 /\
    forall i j, 0 <= i < 2 -> 0 <= j < 2 ->
      exists x, cell C i j = Some x /\ (x == delta i j)%Q.
Proof.
  apply (inverse_times_matrix (call (A_4726 4 7 2 6)%Q empty_Matrix) 2);
    try reflexivity; try lia; wf_literal.
Defined.

(** *** The transpose of a product *)

Lemma sum_upto_eq {T} `{Scalar T} (f g : nat -> T) N :
  (forall m, (m < N)%nat -> f m = g m) -> sum_upto f N = sum_upto g N.
Proof.
  induction N as [|N IH]; intros Hfg; [reflexivity|]. cbn [sum_upto].
  rewrite IH by (intros; apply Hfg; lia). rewrite (Hfg N) by lia.
  reflexivity.
Qed.

(** X7. [transpose] and [operator*] compose as they should when the
    product of two scalars does not depend on their order: for well-formed
    [A] and [B] with as many columns in [A] as rows in [B], the product of
    the transposes, [B^T * A^T], is the very matrix that transposing
    [A * B] gives. *)
Theorem transpose_of_product {T} `{Scalar T} (A B : Matrix T) :
  (forall x y : T, s_mul x y = s_mul y x) ->
  wf A -> wf B -> ncols_ A = nrows_ B ->
  exists C At Bt D,
    fst (operator_mul (call A B)) = Ok C /\
    fst (transpose (call A A)) = Ok At /\
    fst (transpose (call B B)) = Ok Bt /\
    fst (transpose (call C C)) = Ok D /\
    fst (operator_mul (call Bt At)) = Ok D.
Proof.
  intros Hcomm HA HB Hinner.
  destruct (sat_ok _ _ _ (sat_operator_mul (call A B) HA HB Hinner))
    as (C & s1 & HrunC & HrC & HcC & HwfC & HcellC & _).
  destruct (sat_ok _ _ _ (sat_transpose (call A A) HA))
    as (At & s2 & HrunA & HrA & HcA & HwfA & HcellA & _).
  destruct (sat_ok _ _ _ (sat_transpose (call B B) HB))
    as (Bt & s3 & HrunB & HrB & HcB & HwfB & HcellB & _).
  destruct (sat_ok _ _ _ (sat_transpose (call C C) HwfC))
    as (D & s4 & HrunD & HrD & HcD & HwfD & HcellD & _).
  cbn [call] in *.
  assert (Hinner' : ncols_ Bt = nrows_ At) by congruence.
  destruct (sat_ok _ _ _ (sat_operator_mul (call Bt At) HwfB HwfA Hinner'))
    as (D' & s5 & HrunD' & HrD' & HcD' & HwfD' & HcellD' & _).
  cbn [call] in *.
  exists C, At, Bt, D.
  rewrite HrunC, HrunA, HrunB, HrunD, HrunD'. cbn [fst].
  repeat (split; [reflexivity|]). f_equal.
  apply Matrix_eq; [|congruence|congruence].
  apply (rows_ext (ncols_ B) (nrows_ A)).
  - rewrite <- HrB, <- HrD' at 1. rewrite <- HcA, <- HcD'.
    apply wf_shaped, HwfD'.
  - rewrite <- HcC, <- HrD at 1. rewrite <- HrC, <- HcD.
    apply wf_shaped, HwfD.
  - intros i j Hi Hj.
    rewrite HcellD' by lia. rewrite HcellD by lia.
    rewrite (at_cell C j i _ (HcellC j i ltac:(lia) ltac:(lia))).
    f_equal. unfold dot. rewrite HcB, <- Hinner.
    apply sum_upto_eq. intros m Hm.
    rewrite (at_cell Bt i (Z.of_nat m) _
               (HcellB (Z.of_nat m) i ltac:(lia) ltac:(lia))).
    rewrite (at_cell At (Z.of_nat m) j _
               (HcellA j (Z.of_nat m) ltac:(lia) ltac:(lia))).
    apply Hcomm.
Qed.

Lemma transpose_of_product_witness :
  exists C At Bt D,
    fst (operator_mul (call A_23 B_32)) = Ok C /\
    fst (transpose (call A_23 A_23)) = Ok At /\
    fst (transpose (call B_32 B_32)) = Ok Bt /\
    fst (transpose (call C C)) = Ok D /\
    fst (operator_mul (call Bt At)) = Ok D.
Proof.
  apply (transpose_of_product A_23 B_32); [|wf_literal|wf_literal|reflexivity].
  intros [a b] [c d]. simpl. unfold Qmult. simpl. f_equal; lia.
Defined.
